(** * gdsfactory [Component]: cell graph, naming, locking, hashing, export

    A shallow embedding of [src/gdsfactory/component.py].

    Python objects are mutable and shared, so components and references live
    in a store ([World]) and are named by their identity; every method is a
    computation in a state-and-exception monad [M].  An exception leaves the
    store as it was at the [raise], as in Python.

    Floating-point coordinates are idealised as exact rationals ([Q]). *)

From Stdlib Require Import QArith Qround Qabs.
From Stdlib.Strings Require Import Byte Ascii String.
From stdpp Require Import gmap strings list pretty sorting.

Local Open Scope Z_scope.
Local Open Scope nat_scope.

Global Instance Q_eq_dec : EqDecision Q.
Proof. solve_decision. Defined.

(** ** Exceptions *)

(** The exceptions raised by [component.py], with the data their messages
    carry.  [MutabilityError] is the subclass of [ValueError] declared at the
    top of the file. *)
Inductive exn :=
  | MutabilityError (cell : string)
  | ValueError_needs_Port
  | ValueError_needs_width
  | ValueError_needs_center
  | ValueError_port_exists (port : option string) (cell : string)
  | ValueError_alias_in_use (alias : string)
  | ValueError_not_in_list
  | ValueError_duplicated_cells (cell : string) (names : list string)
  | ValueError_on_duplicate_cell (policy : string)
  | ValueError_math_domain
  | TypeError_add_ref
  | IndexError_too_many_indices
  | ImportError_klayout
  | FileNotFoundError (path : string)
  | ExternalError (what : string)
  | DanglingObject.

Global Instance exn_eq_dec : EqDecision exn.
Proof. solve_decision. Defined.

Inductive result (A : Type) :=
  | Ok (a : A)
  | Raise (e : exn).
Arguments Ok {A} a.
Arguments Raise {A} e.

Definition is_ok {A} (r : result A) : bool :=
  match r with Ok _ => true | Raise _ => false end.

(** ** Objects *)

Definition cid := nat.   (* identity of a Component object *)
Definition rid := nat.   (* identity of a ComponentReference / CellArray object *)

Definition Layer : Type := Z * Z.        (* (layer, datatype) *)
Definition Coordinate : Type := Q * Q.

(** A port.  Its class lives in [gdsfactory/port.py]; [add_port] reads and
    writes [name] and [parent] and passes the other fields through. *)
Record Port := mkPort {
  port_name : option string;
  port_center : Coordinate;
  port_width : Q;
  port_orientation : option Q;
  port_parent : option cid;
  port_layer : Layer;
  port_type : string;
  port_cross_section : option string
}.

Global Instance Port_eq_dec : EqDecision Port.
Proof. solve_decision. Defined.

Record Polygon := mkPolygon {
  polygon_points : list Coordinate;
  polygon_layer : Layer
}.

Global Instance Polygon_eq_dec : EqDecision Polygon.
Proof. solve_decision. Defined.

Record Label := mkLabel {
  label_text : string;
  label_position : Coordinate;
  label_layer : Layer
}.

Global Instance Label_eq_dec : EqDecision Label.
Proof. solve_decision. Defined.

(** A placement: [parent] is the referenced component ([reference.parent]),
    [owner] the component the placement was registered in, [ref_name] its
    alias. *)
Record Reference := mkReference {
  parent : cid;
  owner : option cid;
  ref_name : option string
}.

(** The fields of a [Component] that [component.py] reads or writes. *)
Record Component := mkComponent {
  name : string;
  ports : gmap (option string) Port;
  polygons : list Polygon;
  references : list rid;
  labels : list Label;
  function_name : option string;       (* settings.function_name, when present *)
  _locked : bool;
  _bb_valid : bool;
  _reference_names_counter : gmap string nat;
  _reference_names_used : gset string;
  path : option string                 (* set by [write_gds] *)
}.

(** What [lib.write_gds] puts in a file: the cells it was given, in order. *)
Record GdsFile := mkGdsFile {
  file_cells : list cid;
  file_unit : Q;
  file_precision : Q;
  file_timestamp : option Z
}.

Inductive file :=
  | Gds (g : GdsFile)
  | Oasis (source : string).

(** The store: the objects, and what the process leaves outside itself. *)
Record World := mkWorld {
  comps : gmap cid Component;
  refs : gmap rid Reference;
  files : gmap string file;
  dirs : gset string;
  warnings : list string;
  log : list string
}.

(** ** The state-and-exception monad *)

Definition M (A : Type) : Type := World → result A * World.

Global Instance M_ret : MRet M := λ A a w, (Ok a, w).
Global Instance M_bind : MBind M := λ A B f m w,
  match m w with
  | (Ok a, w') => f a w'
  | (Raise e, w') => (Raise e, w')
  end.

Definition raise {A} (e : exn) : M A := λ w, (Raise e, w).

Definition get_world : M World := λ w, (Ok w, w).

Definition get_comp (c : cid) : M Component := λ w,
  match comps w !! c with
  | Some C => (Ok C, w)
  | None => (Raise DanglingObject, w)
  end.

Definition put_comp (c : cid) (C : Component) : M unit := λ w,
  (Ok tt, mkWorld (<[c := C]> (comps w)) (refs w) (files w) (dirs w) (warnings w) (log w)).

Definition modify_comp (c : cid) (f : Component → Component) : M unit :=
  C ← get_comp c; put_comp c (f C).

Definition get_ref (r : rid) : M Reference := λ w,
  match refs w !! r with
  | Some R => (Ok R, w)
  | None => (Raise DanglingObject, w)
  end.

Definition put_ref (r : rid) (R : Reference) : M unit := λ w,
  (Ok tt, mkWorld (comps w) (<[r := R]> (refs w)) (files w) (dirs w) (warnings w) (log w)).

Definition new_ref (R : Reference) : M rid := λ w,
  let r := fresh (dom (refs w)) in
  (Ok r, mkWorld (comps w) (<[r := R]> (refs w)) (files w) (dirs w) (warnings w) (log w)).

Definition new_comp (C : Component) : M cid := λ w,
  let c := fresh (dom (comps w)) in
  (Ok c, mkWorld (<[c := C]> (comps w)) (refs w) (files w) (dirs w) (warnings w) (log w)).

(** [for x in xs: body x] *)
Fixpoint for_each {A} (xs : list A) (body : A → M unit) : M unit :=
  match xs with
  | [] => mret tt
  | x :: xs' => body x;; for_each xs' body
  end.

(** Field updates. *)
Definition set_ports (P : gmap (option string) Port) (C : Component) : Component :=
  mkComponent (name C) P (polygons C) (references C) (labels C) (function_name C)
    (_locked C) (_bb_valid C) (_reference_names_counter C) (_reference_names_used C) (path C).
Definition set_polygons (ps : list Polygon) (C : Component) : Component :=
  mkComponent (name C) (ports C) ps (references C) (labels C) (function_name C)
    (_locked C) (_bb_valid C) (_reference_names_counter C) (_reference_names_used C) (path C).
Definition set_references (rs : list rid) (C : Component) : Component :=
  mkComponent (name C) (ports C) (polygons C) rs (labels C) (function_name C)
    (_locked C) (_bb_valid C) (_reference_names_counter C) (_reference_names_used C) (path C).
Definition set_labels (ls : list Label) (C : Component) : Component :=
  mkComponent (name C) (ports C) (polygons C) (references C) ls (function_name C)
    (_locked C) (_bb_valid C) (_reference_names_counter C) (_reference_names_used C) (path C).
Definition set_locked (b : bool) (C : Component) : Component :=
  mkComponent (name C) (ports C) (polygons C) (references C) (labels C) (function_name C)
    b (_bb_valid C) (_reference_names_counter C) (_reference_names_used C) (path C).
Definition set_bb_valid (b : bool) (C : Component) : Component :=
  mkComponent (name C) (ports C) (polygons C) (references C) (labels C) (function_name C)
    (_locked C) b (_reference_names_counter C) (_reference_names_used C) (path C).
Definition set_counter (cnt : gmap string nat) (C : Component) : Component :=
  mkComponent (name C) (ports C) (polygons C) (references C) (labels C) (function_name C)
    (_locked C) (_bb_valid C) cnt (_reference_names_used C) (path C).
Definition set_used (u : gset string) (C : Component) : Component :=
  mkComponent (name C) (ports C) (polygons C) (references C) (labels C) (function_name C)
    (_locked C) (_bb_valid C) (_reference_names_counter C) u (path C).
Definition set_path (p : option string) (C : Component) : Component :=
  mkComponent (name C) (ports C) (polygons C) (references C) (labels C) (function_name C)
    (_locked C) (_bb_valid C) (_reference_names_counter C) (_reference_names_used C) p.

Definition set_owner (o : option cid) (R : Reference) : Reference :=
  mkReference (parent R) o (ref_name R).
Definition set_ref_name (n : option string) (R : Reference) : Reference :=
  mkReference (parent R) (owner R) n.
Definition set_port_name (n : option string) (p : Port) : Port :=
  mkPort n (port_center p) (port_width p) (port_orientation p) (port_parent p)
    (port_layer p) (port_type p) (port_cross_section p).
Definition set_port_parent (c : option cid) (p : Port) : Port :=
  mkPort (port_name p) (port_center p) (port_width p) (port_orientation p) c
    (port_layer p) (port_type p) (port_cross_section p).

(** ** Arguments of dynamically typed methods *)

(** What [add_ref] can be handed: a component, or anything else (which
    fails the [isinstance] test). *)
Inductive pyobj :=
  | AComponent (c : cid)
  | NotADevice.

(** What [add] and [remove] can be handed. *)
Inductive atom :=
  | APolygonSet (p : Polygon)
  | ACellReference (r : rid)
  | ALabel (l : Label)
  | APort (p : Port).

Inductive element :=
  | One (a : atom)
  | Many (es : list atom).

(** The ways [add_port] is called, in the order the source tells them apart:
    [if port:], [elif isinstance(name, Port):], [else:].  Names are strings
    or [None]. *)
Inductive add_port_call :=
  | PortGiven (port : option Port) (name : option string)
      (* port=<a truthy object>; [None] when that object is not a Port *)
  | NameIsPort (name : Port)
  | Fields (name : option string) (center : option Coordinate) (width : option Q).

Record add_port_args := mkAddPortArgs {
  arg_call : add_port_call;
  arg_orientation : option Q;
  arg_layer : Layer;                 (* the value of [get_layer(layer)] *)
  arg_port_type : string;
  arg_cross_section : option string
}.

(** ** Methods of [Component] *)

(** [Component.__init__]: a fresh, unlocked component with no ports,
    geometry or references, an empty counter and an empty set of used
    names.  The uid suffix of unnamed components is part of [name]. *)
Definition init_component (nm : string) : Component :=
  mkComponent nm ∅ [] [] [] None false true ∅ ∅ None.

Definition Component_init (nm : string) : M cid := new_comp (init_component nm).

Definition unlock (self : cid) : M unit := modify_comp self (set_locked false).

Definition lock (self : cid) : M unit := modify_comp self (set_locked true).

Definition is_unlocked (self : cid) : M unit :=
  C ← get_comp self;
  if _locked C then raise (MutabilityError (name C)) else mret tt.

(** [phidl.Device.add] for one element (external): append it to the list of
    its kind and invalidate the bounding box.  A port is not an element. *)
Definition Device_add (self : cid) (a : atom) : M unit :=
  match a with
  | APolygonSet p =>
      modify_comp self (λ C, set_bb_valid false (set_polygons (polygons C ++ [p]) C))
  | ACellReference r =>
      modify_comp self (λ C, set_bb_valid false (set_references (references C ++ [r]) C))
  | ALabel l =>
      modify_comp self (λ C, set_bb_valid false (set_labels (labels C ++ [l]) C))
  | APort _ => raise (ExternalError "Device.add")
  end.

Definition _add (self : cid) (e : element) : M unit :=
  is_unlocked self;;
  match e with
  | One a => Device_add self a
  | Many es => for_each es (Device_add self)
  end.

(** [Counter.update({prefix: 1})] and [counter[prefix]]. *)
Definition counter_get (cnt : gmap string nat) (prefix : string) : nat :=
  default 0 (cnt !! prefix).
Definition counter_update (cnt : gmap string nat) (prefix : string) : gmap string nat :=
  <[prefix := S (counter_get cnt prefix)]> cnt.

(** [f"{prefix}_{n}"] *)
Definition alias_of (prefix : string) (n : nat) : string :=
  prefix +:+ "_" +:+ pretty n.

(** Modelled from the spec: the constructor of [ComponentReference]
    (gdsfactory/component_reference.py is not under src/).  Spec 3 lists what
    a Placement holds: the referenced cell, the owning cell, a transform and
    an alias.  A new placement has no owner and no alias yet. *)
Definition ComponentReference (component : cid) : M rid :=
  new_ref (mkReference component None None).

(** [reference.owner = self] *)
Definition set_reference_owner (r : rid) (o : option cid) : M unit :=
  R ← get_ref r; put_ref r (set_owner o R).

(** The alias of placement [r], if it has one. *)
Definition alias_of_ref (w : World) (r : rid) : option string :=
  refs w !! r ≫= ref_name.

(** The aliases of the placements of [C] other than [r]. *)
Definition other_aliases (w : World) (C : Component) (r : rid) : list string :=
  omap (λ r', if decide (r' = r) then None else alias_of_ref w r') (references C).

(** The aliases of the placements of cell [c], in the order of
    [c.references] (the keys of [named_references], before the dict merges
    equal ones). *)
Definition placements (w : World) (c : cid) : list rid :=
  default [] (references <$> comps w !! c).

Definition aliases (w : World) (c : cid) : list string :=
  omap (alias_of_ref w) (placements w c).

(** The aliases of the placements of cell [c] other than [r]. *)
Definition aliases_except (w : World) (c : cid) (r : rid) : list string :=
  omap (λ r', if decide (r' = r) then None else alias_of_ref w r') (placements w c).

(** Modelled from the spec: the setter behind [reference.name = alias]
    (gdsfactory/component_reference.py is not under src/).  Spec 4.2: the
    owning cell keeps "a set of aliases already consumed"; spec 7: "a
    caller-supplied alias colliding with another placement's alias" is a
    fatal naming conflict.  So the setter refuses an alias another placement
    of the owner carries, and otherwise stores it and records it as consumed
    in the owner. *)
Definition set_reference_name (r : rid) (alias : string) : M unit :=
  R ← get_ref r;
  match owner R with
  | None => put_ref r (set_ref_name (Some alias) R)
  | Some o =>
      C ← get_comp o;
      w ← get_world;
      if decide (alias ∈ other_aliases w C r)
      then raise (ValueError_alias_in_use alias)
      else
        put_ref r (set_ref_name (Some alias) R);;
        modify_comp o (λ C, set_used ({[alias]} ∪ _reference_names_used C) C)
  end.

(** The [while alias in self._reference_names_used] loop.  The set is finite,
    so more than [size used] rounds cannot happen; [fuel] starts above that. *)
Fixpoint while_alias_used (fuel : nat) (self : cid) (prefix alias : string) : M string :=
  C ← get_comp self;
  if decide (alias ∈ _reference_names_used C) then
    match fuel with
    | O => raise (ExternalError "while: out of fuel")
    | S fuel' =>
        modify_comp self (λ C,
          set_counter (counter_update (_reference_names_counter C) prefix) C);;
        C' ← get_comp self;
        while_alias_used fuel' self prefix
          (alias_of prefix (counter_get (_reference_names_counter C') prefix))
    end
  else mret alias.

Definition _register_reference (self : cid) (reference : rid) (alias : option string)
  : M unit :=
  R ← get_ref reference;
  let component := parent R in
  set_reference_owner reference (Some self);;
  alias ←
    match alias with
    | Some a => mret a
    | None =>
        R ← get_ref reference;
        match ref_name R with
        | Some n => mret n
        | None =>
            child ← get_comp component;
            let prefix := default (name child) (function_name child) in
            modify_comp self (λ C,
              set_counter (counter_update (_reference_names_counter C) prefix) C);;
            C ← get_comp self;
            while_alias_used (size (_reference_names_used C)) self prefix
              (alias_of prefix (counter_get (_reference_names_counter C) prefix))
        end
    end;
  set_reference_name reference alias.

Definition register_if_reference (self : cid) (a : atom) : M unit :=
  match a with
  | ACellReference r => _register_reference self r None
  | _ => mret tt
  end.

Definition add (self : cid) (e : element) : M unit :=
  _add self e;;
  match e with
  | One a => register_if_reference self a
  | Many es => for_each es (register_if_reference self)
  end.

Definition add_ref (self : cid) (component : pyobj) (alias : option string) : M rid :=
  match component with
  | NotADevice => raise TypeError_add_ref
  | AComponent c =>
      ref ← ComponentReference c;
      _add self (One (ACellReference ref));;
      _register_reference self ref alias;;
      mret ref
  end.

(** [add_polygon]: [phidl.Device.add_polygon] (external) builds the polygon
    and hands it to [self.add]. *)
Definition add_polygon (self : cid) (points : list Coordinate) (layer : Layer)
  : M Polygon :=
  let polygon := mkPolygon points layer in
  add self (One (APolygonSet polygon));;
  mret polygon.

(** The port [add_port] is about to insert, after the renaming. *)
Definition port_to_add (self : cid) (a : add_port_args) : result Port :=
  match arg_call a with
  | PortGiven None _ => Raise ValueError_needs_Port
  | PortGiven (Some port) nm =>
      let p := port in
      let p := match nm with Some n => set_port_name (Some n) p | None => p end in
      Ok (set_port_parent (Some self) p)
  | NameIsPort nm => Ok (set_port_parent (Some self) nm)
  | Fields nm center width =>
      match width with
      | None => Raise ValueError_needs_width
      | Some wd =>
          match center with
          | None => Raise ValueError_needs_center
          | Some ctr =>
              Ok (mkPort nm ctr wd (arg_orientation a) (Some self) (arg_layer a)
                    (arg_port_type a) (arg_cross_section a))
          end
      end
  end.

Definition add_port (self : cid) (a : add_port_args) : M Port :=
  match port_to_add self a with
  | Raise e => raise e
  | Ok p =>
      C ← get_comp self;
      if decide (port_name p ∈ dom (ports C))
      then raise (ValueError_port_exists (port_name p) (name C))
      else
        modify_comp self (λ C, set_ports (<[port_name p := p]> (ports C)) C);;
        mret p
  end.

(** [list.remove(x)]: drop the first element equal to [x], or fail. *)
Fixpoint list_remove `{EqDecision A} (x : A) (l : list A) : option (list A) :=
  match l with
  | [] => None
  | y :: l' => if decide (y = x) then Some l' else cons y <$> list_remove x l'
  end.

Definition remove_item (self : cid) (item : atom) : M unit :=
  C ← get_comp self;
  match item with
  | APort p =>
      put_comp self (set_ports (filter (λ kv, kv.2 ≠ p) (ports C)) C)
  | APolygonSet p =>
      match list_remove p (polygons C) with
      | Some ps => put_comp self (set_polygons ps C)
      | None => raise ValueError_not_in_list
      end
  | ACellReference r =>
      match list_remove r (references C) with
      | Some rs => put_comp self (set_references rs C);; set_reference_owner r None
      | None => raise ValueError_not_in_list
      end
  | ALabel l =>
      match list_remove l (labels C) with
      | Some ls => put_comp self (set_labels ls C)
      | None => raise ValueError_not_in_list
      end
  end.

Definition remove (self : cid) (items : element) : M unit :=
  let items := match items with One a => [a] | Many es => es end in
  for_each items (remove_item self);;
  modify_comp self (set_bb_valid false).

(** ** SHA-1 ([hashlib.sha1]), after FIPS 180-4 *)

Module Sha1.
Local Open Scope Z_scope.

Definition mask32 : Z := 0xFFFFFFFF.
Definition w32 (x : Z) : Z := Z.land x mask32.
Definition add32 (x y : Z) : Z := w32 (x + y).
Definition rotl (n x : Z) : Z :=
  w32 (Z.lor (Z.shiftl x n) (Z.shiftr x (32 - n))).
Definition not32 (x : Z) : Z := Z.lxor x mask32.

Definition byte_of_Z (x : Z) : byte :=
  default x00 (Byte.of_N (Z.to_N (x mod 256))).
Definition Z_of_byte (b : byte) : Z := Z.of_N (Byte.to_N b).

(** Big-endian bytes of the low [8 * n] bits of [x]. *)
Fixpoint be_bytes (n : nat) (x : Z) : list byte :=
  match n with
  | O => []
  | S n' => be_bytes n' (Z.shiftr x 8) ++ [byte_of_Z x]
  end.

Fixpoint be_word (bs : list byte) (acc : Z) : Z :=
  match bs with
  | [] => acc
  | b :: bs' => be_word bs' (Z.lor (Z.shiftl acc 8) (Z_of_byte b))
  end.

(** Append the bit 1, zeros up to 56 mod 64, and the bit length on 64 bits. *)
Definition pad (msg : list byte) : list byte :=
  let len := Z.of_nat (length msg) in
  let zeros := Z.to_nat ((55 - len) mod 64) in
  msg ++ [x80] ++ replicate zeros x00 ++ be_bytes 8 (8 * len).

Fixpoint chunks (fuel n : nat) (l : list byte) : list (list byte) :=
  match fuel with
  | O => []
  | S fuel' =>
      match l with
      | [] => []
      | _ => take n l :: chunks fuel' n (drop n l)
      end
  end.

Definition words_of_block (blk : list byte) : list Z :=
  (λ w, be_word w 0) <$> chunks 16 4 blk.

(** Message schedule: [window] holds the sixteen words before the next. *)
Fixpoint schedule (n : nat) (window : list Z) : list Z :=
  match n with
  | O => []
  | S n' =>
      let x := rotl 1 (Z.lxor (Z.lxor (window !!! 13%nat) (window !!! 8%nat))
                              (Z.lxor (window !!! 2%nat) (window !!! 0%nat))) in
      x :: schedule n' (drop 1 window ++ [x])
  end.

Definition state : Type := Z * Z * Z * Z * Z.

Definition round (t : nat) (s : state) (wt : Z) : state :=
  let '(a, b, c, d, e) := s in
  let '(f, k) :=
    if decide (t < 20)%nat then
      (Z.lor (Z.land b c) (Z.land (not32 b) d), 0x5A827999)
    else if decide (t < 40)%nat then
      (Z.lxor (Z.lxor b c) d, 0x6ED9EBA1)
    else if decide (t < 60)%nat then
      (Z.lor (Z.lor (Z.land b c) (Z.land b d)) (Z.land c d), 0x8F1BBCDC)
    else
      (Z.lxor (Z.lxor b c) d, 0xCA62C1D6) in
  let temp := w32 (rotl 5 a + f + e + k + wt) in
  (temp, a, rotl 30 b, c, d).

Fixpoint rounds (t : nat) (ws : list Z) (s : state) : state :=
  match ws with
  | [] => s
  | wt :: ws' => rounds (S t) ws' (round t s wt)
  end.

Definition compress (h : state) (blk : list byte) : state :=
  let w16 := words_of_block blk in
  let ws := w16 ++ schedule 64 w16 in
  let '(h0, h1, h2, h3, h4) := h in
  let '(a, b, c, d, e) := rounds 0 ws h in
  (add32 h0 a, add32 h1 b, add32 h2 c, add32 h3 d, add32 h4 e).

Definition init : state :=
  (0x67452301, 0xEFCDAB89, 0x98BADCFE, 0x10325476, 0xC3D2E1F0).

Definition digest_of_state (h : state) : list byte :=
  let '(h0, h1, h2, h3, h4) := h in
  be_bytes 4 h0 ++ be_bytes 4 h1 ++ be_bytes 4 h2 ++ be_bytes 4 h3 ++ be_bytes 4 h4.

(** [hashlib.sha1(msg).digest()] *)
Definition sha1 (msg : list byte) : list byte :=
  let p := pad msg in
  digest_of_state (foldl compress init (chunks (length p) 64 p)).

Definition hex_digit (n : Z) : ascii :=
  default "0"%char (String.get (Z.to_nat n) "0123456789abcdef").

(** [.hexdigest()] of a digest *)
Fixpoint hex (bs : list byte) : string :=
  match bs with
  | [] => ""
  | b :: bs' =>
      String (hex_digit (Z_of_byte b / 16))
        (String (hex_digit (Z_of_byte b mod 16)) (hex bs'))
  end.

Definition bytes_of_string (s : string) : list byte :=
  (λ a, byte_of_Z (Z.of_N (N_of_ascii a))) <$> list_ascii_of_string s.
End Sha1.

(** ** Sorting *)

(** A stable sort: [sorted], [np.lexsort] and [np.sort] all order their input
    by a key; equal keys keep their input order. *)
Fixpoint insert_sorted {A} (leb : A → A → bool) (x : A) (l : list A) : list A :=
  match l with
  | [] => [x]
  | y :: l' => if leb x y then x :: l else y :: insert_sorted leb x l'
  end.

Definition stable_sort {A} (leb : A → A → bool) (l : list A) : list A :=
  foldr (insert_sorted leb) [] l.

(** ** The geometry hasher *)

Global Instance result_ret : MRet result := λ A a, Ok a.
Global Instance result_bind : MBind result := λ A B f m,
  match m with
  | Ok a => f a
  | Raise e => Raise e
  end.

Fixpoint mapM_result {A B} (f : A → result B) (l : list A) : result (list B) :=
  match l with
  | [] => Ok []
  | x :: l' => y ← f x; ys ← mapM_result f l'; Ok (y :: ys)
  end.

(** [⌊log10 q⌋] for [q = a / b > 0], by counting powers of ten. *)
Fixpoint count_up (fuel : nat) (a b k : Z) : Z :=
  match fuel with
  | O => k
  | S fuel' => if (10 * b <=? a)%Z then count_up fuel' a (10 * b)%Z (k + 1)%Z else k
  end.

Fixpoint count_down (fuel : nat) (a b k : Z) : Z :=
  match fuel with
  | O => k
  | S fuel' => if (b <=? 10 * a)%Z then (k + 1)%Z
               else count_down fuel' (10 * a)%Z b (k + 1)%Z
  end.

Definition floor_log10 (q : Q) : Z :=
  let a := Qnum q in
  let b := Z.pos (Qden q) in
  if (b <=? a)%Z then count_up (Z.to_nat (Z.log2 a)) a b 0
  else (- count_down (Z.to_nat (Z.log2 b)) a b 0)%Z.

(** [round(-math.log10(precision))] for [precision > 0]: the integer [n]
    with [10^(-2n-1) < precision^2 < 10^(-2n+1)]. *)
Definition ndigits_of (precision : Q) : Z :=
  (- ((floor_log10 (precision * precision) + 1) / 2))%Z.

(** Round half to even, the rule of [numpy.rint]. *)
Definition rint (x : Q) : Z :=
  let f := Qfloor x in
  let r := (x - inject_Z f)%Q in
  match (r ?= 1 # 2)%Q with
  | Lt => f
  | Gt => (f + 1)%Z
  | Eq => if Z.even f then f else (f + 1)%Z
  end.

(** [arr.round(ndigits)] on one number: scale by [10^ndigits], round, scale
    back. *)
Definition np_round (x : Q) (ndigits : Z) : Q :=
  (inject_Z (rint (x * (10 # 1) ^ ndigits)) / (10 # 1) ^ ndigits)%Q.

(** The conversion of a float to [np.int64]: towards zero; outside the range
    of [int64] the x86-64 conversion yields the least [int64]. *)
Definition to_int64 (x : Q) : Z :=
  let t := if (Qle_bool 0 x) then Qfloor x else Qceiling x in
  if ((- 2 ^ 63 <=? t) && (t <? 2 ^ 63))%Z then t else (- 2 ^ 63)%Z.

(** [_rnd(arr, precision)] on an N x 2 array: the rounded coordinates on the
    integer grid, row after row. *)
Definition _rnd (arr : list Coordinate) (precision : Q) : result (list Z) :=
  if Qle_bool precision 0 then Raise ValueError_math_domain
  else
    let ndigits := ndigits_of precision in
    let cell x := to_int64 (np_round x ndigits / precision)%Q in
    Ok (concat ((λ xy : Coordinate, [cell xy.1; cell xy.2]) <$> arr)).

(** The buffer of an [int64] array: each entry on eight bytes, least
    significant first, in two's complement. *)
Fixpoint le_bytes (n : nat) (x : Z) : list byte :=
  match n with
  | O => []
  | S n' => Sha1.byte_of_Z x :: le_bytes n' (Z.shiftr x 8)
  end.

Definition int64_buffer (zs : list Z) : list byte :=
  concat (le_bytes 8 <$> zs).

(** [self.get_polygons(by_spec=True)] (gdspy, external): a dict from
    [(layer, datatype)] to the polygons on it, in its iteration order. *)
Definition PolygonsBySpec : Type := list (Layer * list (list Coordinate)).

Definition dict_get (d : PolygonsBySpec) (k : Layer) : list (list Coordinate) :=
  match list_find (λ e, e.1 = k) d with
  | Some (_, e) => e.2
  | None => []
  end.

(** The order of [np.lexsort((layers[:, 0], layers[:, 1]))]: the last key,
    column 1, is the primary one. *)
Definition lexsort_leb (x y : Layer) : bool :=
  ((x.2 <? y.2) || ((x.2 =? y.2) && (x.1 <=? y.1)))%Z.

Definition sorted_layers (d : PolygonsBySpec) : list Layer :=
  stable_sort lexsort_leb (fst <$> d).

(** An array of byte strings has a fixed-width dtype ([S20]); reading an
    entry back drops its trailing NUL bytes. *)
Fixpoint strip_nul (bs : list byte) : list byte :=
  match bs with
  | [] => []
  | b :: bs' =>
      match strip_nul bs' with
      | [] => if Byte.eqb b x00 then [] else [b]
      | r => b :: r
      end
  end.

Fixpoint bytes_leb (x y : list byte) : bool :=
  match x, y with
  | [], _ => true
  | _ :: _, [] => false
  | a :: x', b :: y' =>
      (Sha1.Z_of_byte a <? Sha1.Z_of_byte b)%Z
      || ((Sha1.Z_of_byte a =? Sha1.Z_of_byte b)%Z && bytes_leb x' y')
  end.

(** [np.sort] of a list of digests *)
Definition np_sort (l : list (list byte)) : list (list byte) :=
  stable_sort bytes_leb (strip_nul <$> l).

(** The bytes [hash_geometry] feeds to [final_hash] for one layer. *)
Definition layer_update (d : PolygonsBySpec) (precision : Q) (layer : Layer)
  : result (list byte) :=
  let layer_hash := Sha1.sha1 (int64_buffer [layer.1; layer.2]) in
  let polygons := dict_get d layer in
  polygons ← mapM_result (λ p, _rnd p precision) polygons;
  let polygon_hashes := np_sort ((λ p, Sha1.sha1 (int64_buffer p)) <$> polygons) in
  Ok (layer_hash ++ concat polygon_hashes).

(** Everything fed to [final_hash], in order. *)
Definition hash_input (d : PolygonsBySpec) (precision : Q) : result (list byte) :=
  match d with
  | [] => Raise IndexError_too_many_indices     (* [layers[:, 0]] on a 1-d array *)
  | _ => bss ← mapM_result (layer_update d precision) (sorted_layers d);
         Ok (concat bss)
  end.

Definition hash_geometry (d : PolygonsBySpec) (precision : Q) : result string :=
  bs ← hash_input d precision; Ok (Sha1.hex (Sha1.sha1 bs)).

Definition default_precision : Q := 1 # 10000.

(** The grid coordinates [_rnd] computes when the precision is positive. *)
Definition grid (precision : Q) (arr : list Coordinate) : list Z :=
  let cell x := to_int64 (np_round x (ndigits_of precision) / precision)%Q in
  concat ((λ xy : Coordinate, [cell xy.1; cell xy.2]) <$> arr).

(** The same geometry, listed in another order: the same layer keys, and
    under each key the same polygons. *)
Definition same_geometry (d d' : PolygonsBySpec) : Prop :=
  d.*1 ≡ₚ d'.*1 ∧ ∀ k, dict_get d k ≡ₚ dict_get d' k.

(** The geometry with vertex [j] of polygon [i] on layer [k] put at [v']. *)
Definition move_vertex (d : PolygonsBySpec) (k : Layer) (i j : nat) (v' : Coordinate)
  : PolygonsBySpec :=
  (λ e : Layer * list (list Coordinate),
     if decide (e.1 = k) then (e.1, alter (λ pts, <[j := v']> pts) i e.2) else e) <$> d.

Definition vertex (d : PolygonsBySpec) (k : Layer) (i j : nat) : option Coordinate :=
  dict_get d k !! i ≫= λ pts, pts !! j.

(** ** Export *)

(** Strings as Python and [os.path] handle them (ASCII). *)
Definition lower_ascii (c : ascii) : ascii :=
  let n := nat_of_ascii c in
  if decide (65 ≤ n ≤ 90) then ascii_of_nat (n + 32) else c.

Fixpoint lower (s : string) : string :=
  match s with
  | EmptyString => EmptyString
  | String c s' => String (lower_ascii c) (lower s')
  end.

Definition startswith (s pre : string) : bool := String.prefix pre s.

Definition endswith (s suf : string) : bool :=
  String.prefix (String.rev suf) (String.rev s).

(** [s.rfind(c)]: the last index of [c], or -1. *)
Fixpoint rfind_from (c : ascii) (s : string) (i : Z) (last : Z) : Z :=
  match s with
  | EmptyString => last
  | String c' s' => rfind_from c s' (i + 1)%Z (if Ascii.eqb c c' then i else last)
  end.
Definition rfind (c : ascii) (s : string) : Z := rfind_from c s 0%Z (-1)%Z.

Definition str_take (n : Z) (s : string) : string := String.substring 0 (Z.to_nat n) s.

(** Is some character of [s] at an index in [[from, to)] not a dot? *)
Definition has_non_dot (s : string) (from to : Z) : bool :=
  existsb (λ c, negb (Ascii.eqb c "."%char))
    (list_ascii_of_string
       (String.substring (Z.to_nat from) (Z.to_nat (to - from)) s)).

(** [os.path.splitext(p)[0]] *)
Definition splitext_root (p : string) : string :=
  let sepIndex := rfind "/"%char p in
  let dotIndex := rfind "."%char p in
  if ((sepIndex <? dotIndex)%Z && has_non_dot p (sepIndex + 1) dotIndex)
  then str_take dotIndex p else p.

(** [pathlib.Path(p).parent], as a string *)
Definition path_parent (p : string) : string :=
  let sepIndex := rfind "/"%char p in
  if (sepIndex <? 0)%Z then "." else if (sepIndex =? 0)%Z then "/" else str_take sepIndex p.

(** What the world outside answers: the name of a fresh temporary
    directory, whether the klayout package can be imported, and whether the
    external writers and readers succeed. *)
Record Env := mkEnv {
  tmpdir : string;
  klayout_available : bool;
  lib_write_gds_ok : bool;
  layout_read_ok : bool;
  topcell_write_ok : bool
}.

Definition mkdir (d : string) : M unit := λ w,
  (Ok tt, mkWorld (comps w) (refs w) (files w) ({[d]} ∪ dirs w) (warnings w) (log w)).

Definition warn (msg : string) : M unit := λ w,
  (Ok tt, mkWorld (comps w) (refs w) (files w) (dirs w) (warnings w ++ [msg]) (log w)).

Definition logger_info (msg : string) : M unit := λ w,
  (Ok tt, mkWorld (comps w) (refs w) (files w) (dirs w) (warnings w) (log w ++ [msg])).

Definition write_file (p : string) (f : file) : M unit := λ w,
  (Ok tt, mkWorld (comps w) (refs w) (<[p := f]> (files w)) (dirs w) (warnings w) (log w)).

(** [os.remove(p)] *)
Definition os_remove (p : string) : M unit := λ w,
  match files w !! p with
  | Some _ =>
      (Ok tt, mkWorld (comps w) (refs w) (delete p (files w)) (dirs w) (warnings w) (log w))
  | None => (Raise (FileNotFoundError p), w)
  end.

Fixpoint mapM {A B} (f : A → M B) (l : list A) : M (list B) :=
  match l with
  | [] => mret []
  | x :: l' => y ← f x; ys ← mapM f l'; mret (y :: ys)
  end.

Definition cell_name (c : cid) : M string := C ← get_comp c; mret (name C).

(** [cell_names.remove(x)]; the source only removes names that are in the
    list. *)
Definition remove_first (x : string) (l : list string) : list string :=
  default l (list_remove x l).

(** [{cell.name: cell for cell in cells}.values()]: one cell per name, the
    last one listed under it, the names in the order they first appear. *)
Fixpoint dict_by_name (named : list (string * cid)) (acc : list (string * cid))
  : list (string * cid) :=
  match named with
  | [] => acc
  | (n, c) :: named' =>
      dict_by_name named'
        (if decide (n ∈ acc.*1)
         then (λ e : string * cid, if decide (e.1 = n) then (n, c) else e) <$> acc
         else acc ++ [(n, c)])
  end.

(** [write_gds].  [cells] is [self.get_dependencies(recursive=True)] (gdspy,
    external): the distinct cells reached through placements, listed in the
    iteration order of that set. *)
Definition write_gds (env : Env) (self : cid) (cells : list cid)
    (gdspath gdsdir : option string) (unit precision : Q) (timestamp : option Z)
    (logging : bool) (on_duplicate_cell : option string) : M string :=
  C ← get_comp self;
  let gdsdir := default (tmpdir env +:+ "/gdsfactory") gdsdir in
  let gdspath := default (gdsdir +:+ "/" +:+ name C +:+ ".gds") gdspath in
  let gdsdir := path_parent gdspath in
  mkdir gdsdir;;
  cell_names ← mapM cell_name cells;
  let cell_names_unique := remove_dups cell_names in
  cells ←
    (if decide (length cell_names ≠ length cell_names_unique) then
       let duplicated := foldl (λ l n, remove_first n l) cell_names cell_names_unique in
       match on_duplicate_cell with
       | None => mret cells
       | Some policy =>
           if String.eqb policy "error" then
             raise (ValueError_duplicated_cells (name C) duplicated)
           else if String.eqb policy "warn" || String.eqb policy "overwrite" then
             (if String.eqb policy "warn"
              then warn ("Duplicated cell names in " +:+ name C)
              else mret tt);;
             mret ((dict_by_name (zip cell_names cells) []).*2)
           else raise (ValueError_on_duplicate_cell policy)
       end
     else mret cells);
  sorted_names ← mapM (λ c, n ← cell_name c; mret (n, c)) cells;
  let all_cells :=
    self :: (stable_sort (λ x y : string * cid, String.leb x.1 y.1) sorted_names).*2 in
  all_names ← mapM cell_name all_cells;
  let no_name_cells := filter (λ n, startswith n "Unnamed" = true) all_names in
  (match no_name_cells with
   | [] => mret tt
   | _ => warn ("Component " +:+ name C +:+ " contains Unnamed cells")
   end);;
  (if lib_write_gds_ok env
   then write_file gdspath (Gds (mkGdsFile all_cells unit precision timestamp))
   else raise (ExternalError "GdsLibrary.write_gds"));;
  modify_comp self (set_path (Some gdspath));;
  (if logging then logger_info ("Write GDS to " +:+ gdspath) else mret tt);;
  mret gdspath.

(** The keyword arguments [write_oas] passes on to [write_gds]. *)
Record write_kwargs := mkWriteKwargs {
  kw_gdsdir : option string;
  kw_unit : Q;
  kw_precision : Q;
  kw_timestamp : option Z;
  kw_logging : bool;
  kw_on_duplicate_cell : option string
}.

(** The defaults of [write_gds]; the timestamp is [_timestamp2019]. *)
Definition default_kwargs : write_kwargs :=
  mkWriteKwargs None (1 # 1000000) (1 # 1000000000) (Some 1572014192%Z) true (Some "warn").

(** The file name [write_oas] writes to, and the temporary one. *)
Definition oas_filename (filename : string) : string :=
  if endswith (lower filename) ".oas" then filename else filename +:+ ".oas".

Definition oas_tempfilename (filename : string) : string :=
  splitext_root (oas_filename filename) +:+ "-tmp.gds".

(** [layout.read(tempfilename)] (klayout, external) *)
Definition layout_read (env : Env) (p : string) : M unit := λ w,
  match files w !! p with
  | Some _ => if layout_read_ok env then (Ok tt, w)
              else (Raise (ExternalError "Layout.read"), w)
  | None => (Raise (FileNotFoundError p), w)
  end.

(** [topcell.write(filename)] (klayout, external) *)
Definition topcell_write (env : Env) (source p : string) : M unit :=
  if topcell_write_ok env then write_file p (Oasis source)
  else raise (ExternalError "Cell.write").

(** [write_oas]: [None] when the name ends in [.gds], else the path written. *)
Definition write_oas (env : Env) (self : cid) (cells : list cid) (filename : string)
    (kw : write_kwargs) : M (option string) :=
  let write_gds_to p :=
    write_gds env self cells (Some p) (kw_gdsdir kw) (kw_unit kw) (kw_precision kw)
      (kw_timestamp kw) (kw_logging kw) (kw_on_duplicate_cell kw) in
  if endswith (lower filename) ".gds" then
    write_gds_to filename;; mret None
  else
    if negb (klayout_available env) then raise ImportError_klayout
    else
      let filename := oas_filename filename in
      let fileroot := splitext_root filename in
      let tempfilename := fileroot +:+ "-tmp.gds" in
      write_gds_to tempfilename;;
      layout_read env tempfilename;;
      topcell_write env tempfilename filename;;
      os_remove tempfilename;;
      logger_info ("Write OASIS to " +:+ filename);;
      mret (Some filename).


(** ** More of [Component] *)

(** [named_references]: [{ref.name: ref for ref in self.references}].  A
    later placement takes the key of an earlier one with the same name;
    [None] is a key like any other. *)
Definition named_references (w : World) (self : cid) : gmap (option string) rid :=
  foldl (λ m r, <[alias_of_ref w r := r]> m) ∅ (placements w self).

(** [f"{x}"] for a name that may be [None] *)
Definition str_of_name (n : option string) : string := default "None" n.

(** The name [add_ports] asks for: [f"{prefix}{port.name}" if prefix else
    port.name]. *)
Definition prefixed_name (prefix : string) (port : Port) : option string :=
  if decide (prefix = "") then port_name port
  else Some (prefix +:+ str_of_name (port_name port)).

(** [add_ports].  [ports] is the list, or the values of the dict, in order.
    [add_port] is called with [name] and [port] only; [layer0] stands for the
    value of [get_layer(None)], which the copying branch never reads. *)
Definition add_ports (layer0 : Layer) (self : cid) (ports : list Port) (prefix : string)
  : M unit :=
  for_each ports (λ port,
    let name := prefixed_name prefix port in
    add_port self (mkAddPortArgs (PortGiven (Some port) name) None layer0 "optical" None);;
    mret tt).

(** The copy of [port] that [add_ports] stores in cell [self]. *)
Definition stored_port (self : cid) (prefix : string) (port : Port) : Port :=
  set_port_parent (Some self) (set_port_name (prefixed_name prefix port) port).

(** [__lshift__]: [c << component] is [c.add_ref(component)]. *)
Definition lshift (self : cid) (element : pyobj) : M rid := add_ref self element None.

(** The values a settings dict holds; a dict is given by its items. *)
Inductive value :=
  | VNone
  | VBool (b : bool)
  | VInt (z : Z)
  | VStr (s : string)
  | VDict (d : items)
with items :=
  | INil
  | ICons (key : string) (v : value) (rest : items).

(** Python truthiness *)
Definition truthy (v : value) : bool :=
  match v with
  | VNone => false
  | VBool b => b
  | VInt z => negb (z =? 0)%Z
  | VStr s => negb (String.eqb s "")
  | VDict d => match d with INil => false | _ => true end
  end.

(** [d.get(key)] *)
Fixpoint dict_lookup (key : string) (d : items) : option value :=
  match d with
  | INil => None
  | ICons k v rest => if String.eqb k key then Some v else dict_lookup key rest
  end.

(** The loop of [metadata_child] from the value [settings] holds: go down
    [settings.get("child")] while it is truthy.  [child_of settings d] looks
    for the key in the items [d] of [settings].  A truthy child that is not
    a dict has no [get]. *)
Fixpoint metadata_child_loop (settings : value) : result value :=
  match settings with
  | VDict d => child_of settings d
  | _ => Raise (ExternalError "AttributeError: get")
  end
with child_of (settings : value) (d : items) {struct d} : result value :=
  match d with
  | INil => Ok settings
  | ICons k child rest =>
      if String.eqb k "child" then
        if truthy child then metadata_child_loop child else Ok settings
      else child_of settings rest
  end.

(** [metadata_child] of a component whose [settings] has the items [d] *)
Definition metadata_child (d : items) : result value :=
  metadata_child_loop (VDict d).

(** [_filter_polys(polygons, layers_excl)] on the three lists of a
    [PolygonSet]; [zip] stops at the shortest. *)
Fixpoint _filter_polys {P} (polys : list P) (layers datatypes : list Z)
    (layers_excl : list Layer) : list P :=
  match polys, layers, datatypes with
  | p :: polys', l :: layers', d :: datatypes' =>
      if decide ((l, d) ∈ layers_excl)
      then _filter_polys polys' layers' datatypes' layers_excl
      else p :: _filter_polys polys' layers' datatypes' layers_excl
  | _, _, _ => []
  end.

(** [Component.validate] on a component: the name may have up to 100
    characters (the local [MAX_NAME_LENGTH], not the module's 32). *)
Definition MAX_NAME_LENGTH : nat := 32.

Definition validate (v : pyobj) : M cid :=
  let MAX_NAME_LENGTH := 100 in
  match v with
  | NotADevice => raise (ExternalError "AssertionError: TypeError")
  | AComponent c =>
      C ← get_comp c;
      if decide (String.length (name C) ≤ MAX_NAME_LENGTH) then mret c
      else raise (ExternalError "AssertionError: name")
  end.

(** ** Views of the store *)

(** A computation keeps a view [v] of the store when the view reads the same
    before and after it, whatever the outcome. *)
Definition keeps {A X} (v : World → X) (m : M A) : Prop :=
  ∀ w, v (m w).2 = v w.

(** The view of one field of every component. *)
Definition comp_view {X} (g : Component → X) (w : World) : gmap cid X :=
  g <$> comps w.

(** What [_register_reference] and the steps around it leave alone: which
    placements each cell lists, and the placement objects. *)
Definition shape (w : World) : gmap cid (list rid) * gmap rid Reference :=
  (comp_view references w, refs w).

(** ** Sequences of calls *)

(** A caller issues [add_ref] requests on one cell, one after the other, and
    goes on after a refused one. *)
Definition add_refs (self : cid) (requests : list (pyobj * option string)) (w : World)
  : World :=
  foldl (λ w rq, (add_ref self rq.1 rq.2 w).2) w requests.

(** The placements of [c] are objects of the store, each listed once, and no
    two of them carry the same alias. *)
Definition placements_wf (w : World) (c : cid) : Prop :=
  (∀ r, r ∈ placements w c → is_Some (refs w !! r))
  ∧ NoDup (placements w c)
  ∧ NoDup (aliases w c).

(** ** Example stores *)

Definition empty_world : World := mkWorld ∅ ∅ ∅ ∅ [] [].

(** A parent cell [0] and a child cell [1], both fresh and unlocked. *)
Definition two_cells : World :=
  mkWorld (<[0 := init_component "top"]> (<[1 := init_component "straight"]> ∅))
    ∅ ∅ ∅ [] [].

(** The parent holds one placement of the child and is then locked. *)
Definition locked_parent : World :=
  (lock 0 (add_ref 0 (AComponent 1) None two_cells).2).2.

Definition port_o1 : add_port_args :=
  mkAddPortArgs (Fields (Some "o1") (Some (0 # 1, 0 # 1)) (Some (1 # 2)))
    (Some (180 # 1)) (1, 0)%Z "optical" None.

Definition triangle : list Coordinate := [(0 # 1, 0 # 1); (1 # 1, 0 # 1); (1 # 1, 1 # 1)].

(** The parent with a port [o1], unlocked. *)
Definition parent_with_port : World := (add_port 0 port_o1 two_cells).2.

(** The world outside: everything works, or klayout fails to read. *)
Definition ok_env : Env := mkEnv "/tmp/tmpabc" true true true true.
Definition read_fails_env : Env := mkEnv "/tmp/tmpabc" true true false true.

(** A top cell [0] and two dependencies [1] and [2]; the three are distinct
    objects with the one name "A". *)
Definition same_name_world : World :=
  mkWorld (<[0 := init_component "A"]> (<[1 := init_component "A"]>
            (<[2 := init_component "A"]> ∅))) ∅ ∅ ∅ [] [].


(** Geometry for the hasher. *)
Definition jitter_cell : PolygonsBySpec :=
  [((1, 0)%Z, [[(4 # 100000, 0 # 1); (1 # 1, 0 # 1); (1 # 1, 1 # 1)]])].

Definition wide_cell : PolygonsBySpec :=
  [((1, 0)%Z, [[(-24 # 100000, 0 # 1); (1 # 1, 0 # 1); (1 # 1, 1 # 1)]])].

Definition two_layer_cell : PolygonsBySpec :=
  [((1, 1)%Z, [[(0 # 1, 0 # 1); (1 # 1, 0 # 1); (1 # 1, 1 # 1)]]);
   ((2, 0)%Z, [[(0 # 1, 0 # 1); (2 # 1, 0 # 1); (2 # 1, 2 # 1)]])].

Definition layered_cell : PolygonsBySpec :=
  [((1, 0)%Z, [[(0 # 1, 0 # 1); (1 # 1, 0 # 1); (1 # 1, 1 # 1)];
               [(0 # 1, 0 # 1); (3 # 1, 0 # 1); (3 # 1, 3 # 1)]]);
   ((2, 0)%Z, [[(0 # 1, 0 # 1); (2 # 1, 0 # 1); (2 # 1, 2 # 1)]])].

Definition layered_cell_permuted : PolygonsBySpec :=
  [((2, 0)%Z, [[(0 # 1, 0 # 1); (2 # 1, 0 # 1); (2 # 1, 2 # 1)]]);
   ((1, 0)%Z, [[(0 # 1, 0 # 1); (3 # 1, 0 # 1); (3 # 1, 3 # 1)];
               [(0 # 1, 0 # 1); (1 # 1, 0 # 1); (1 # 1, 1 # 1)]])].

(** Requests whose explicit alias is the candidate the resolver would try
    second, then automatic ones, a repeat of a taken alias, and a bad
    argument. *)
Definition seeded_requests : list (pyobj * option string) :=
  [(AComponent 1, Some "straight_2"); (AComponent 1, None); (AComponent 1, None);
   (AComponent 1, Some "straight_1"); (NotADevice, None); (AComponent 1, None)].

(** ** Definitions for the further properties *)

(** The port mapping after [add_ports] went through the list. *)
Definition ports_added (self : cid) (prefix : string) (qs : list Port)
    (m : gmap (option string) Port) : gmap (option string) Port :=
  foldl (λ m port, <[prefixed_name prefix port := stored_port self prefix port]> m)
    m qs.

Definition port_a : Port :=
  mkPort (Some "o1") (0 # 1, 0 # 1) (1 # 2) (Some (180 # 1)) None (1, 0)%Z "optical" None.
Definition port_b : Port :=
  mkPort (Some "o2") (10 # 1, 0 # 1) (1 # 2) (Some (0 # 1)) None (1, 0)%Z "optical" None.
Definition port_unnamed : Port :=
  mkPort None (5 # 1, 0 # 1) (1 # 2) None None (1, 0)%Z "optical" None.

(** The order of the layers: by datatype, then by layer number. *)
Definition datatype_then_layer (x y : Layer) : Prop :=
  (x.2 < y.2 ∨ (x.2 = y.2 ∧ x.1 ≤ y.1))%Z.

(** The name of cell [c] in the store. *)
Definition name_of (w : World) (c : cid) : string :=
  default "" (name <$> comps w !! c).

(** The path [write_gds] writes to. *)
Definition gds_target (env : Env) (nm : string) (gdspath gdsdir : option string) : string :=
  default (default (tmpdir env +:+ "/gdsfactory") gdsdir +:+ "/" +:+ nm +:+ ".gds") gdspath.

(** The warning about placeholder names, when one is due. *)
Definition unnamed_warning (nm : string) (names : list string) : list string :=
  match filter (λ n, startswith n "Unnamed" = true) names with
  | [] => []
  | _ => ["Component " +:+ nm +:+ " contains Unnamed cells"]
  end.

(** The last steps of [write_gds], from the cells it settled on. *)
Definition write_gds_finish (env : Env) (self : cid) (C : Component) (gdspath : string)
    (unit precision : Q) (timestamp : option Z) (logging : bool) (cells : list cid)
    : M string :=
  sorted_names ← mapM (λ c, n ← cell_name c; mret (n, c)) cells;
  let all_cells :=
    self :: (stable_sort (λ x y : string * cid, String.leb x.1 y.1) sorted_names).*2 in
  all_names ← mapM cell_name all_cells;
  let no_name_cells := filter (λ n, startswith n "Unnamed" = true) all_names in
  (match no_name_cells with
   | [] => mret tt
   | _ => warn ("Component " +:+ name C +:+ " contains Unnamed cells")
   end);;
  (if lib_write_gds_ok env
   then write_file gdspath (Gds (mkGdsFile all_cells unit precision timestamp))
   else raise (ExternalError "GdsLibrary.write_gds"));;
  modify_comp self (set_path (Some gdspath));;
  (if logging then logger_info ("Write GDS to " +:+ gdspath) else mret tt);;
  mret gdspath.

(** The dependencies in the order they are written. *)
Definition written_order (w : World) (cells : list cid) : list cid :=
  (stable_sort (λ x y : string * cid, String.leb x.1 y.1)
     ((λ c, (name_of w c, c)) <$> cells)).*2.

(** The dependencies [write_gds] settles on, given their names. *)
Definition resolve_duplicates (nm : string) (cells : list cid) (cell_names : list string)
    (on_duplicate_cell : option string) : M (list cid) :=
  let cell_names_unique := remove_dups cell_names in
  if decide (length cell_names ≠ length cell_names_unique) then
    let duplicated := foldl (λ l n, remove_first n l) cell_names cell_names_unique in
    match on_duplicate_cell with
    | None => mret cells
    | Some policy =>
        if String.eqb policy "error" then
          raise (ValueError_duplicated_cells nm duplicated)
        else if String.eqb policy "warn" || String.eqb policy "overwrite" then
          (if String.eqb policy "warn"
           then warn ("Duplicated cell names in " +:+ nm)
           else mret tt);;
          mret ((dict_by_name (zip cell_names cells) []).*2)
        else raise (ValueError_on_duplicate_cell policy)
    end
  else mret cells.

(** The settings at the bottom of a chain: a dict whose ["child"] is missing
    or falsy. *)
Definition bottom (s : value) : Prop :=
  ∃ d, s = VDict d
       ∧ match dict_lookup "child" d with
         | Some c => truthy c = false
         | None => True
         end.

Scheme value_mut := Induction for value Sort Prop
  with items_mut := Induction for items Sort Prop.

Definition settings_chain : items :=
  ICons "length" (VInt 10)
    (ICons "child"
       (VDict (ICons "name" (VStr "inner")
                 (ICons "child"
                    (VDict (ICons "name" (VStr "leaf") (ICons "child" (VDict INil) INil)))
                    INil)))
       INil).

(** Every truthy child down the chain is a dict. *)
Fixpoint dict_chain (v : value) : Prop :=
  match v with
  | VDict d => dict_chain_items d
  | _ => False
  end
with dict_chain_items (d : items) : Prop :=
  match d with
  | INil => True
  | ICons k c rest =>
      if String.eqb k "child" then (if truthy c then dict_chain c else True)
      else dict_chain_items rest
  end.

Definition no_klayout_env : Env := mkEnv "/tmp/tmpabc" false true true true.

(** A top cell [0] named "top" over two dependencies both named "A". *)
Definition twin_world : World :=
  mkWorld (<[0 := init_component "top"]> (<[1 := init_component "A"]>
            (<[2 := init_component "A"]> ∅))) ∅ ∅ ∅ [] [].

(** A cell whose used names hold the next two candidates. *)
Definition seeded_cell : World :=
  add_refs 0 [(AComponent 1, Some "straight_0"); (AComponent 1, Some "straight_1")]
    two_cells.

(** The placements of [c] are well formed and every alias among them is in
    the set of used names of [c]. *)
Definition names_wf (w : World) (c : cid) : Prop :=
  placements_wf w c
  ∧ ∀ C, comps w !! c = Some C →
         ∀ a, a ∈ aliases w c → a ∈ _reference_names_used C.

(** A parent cell [0], a child cell [1] and a second parent [2]. *)
Definition three_cells : World :=
  mkWorld (<[0 := init_component "top"]> (<[1 := init_component "straight"]>
            (<[2 := init_component "other"]> ∅))) ∅ ∅ ∅ [] [].

(** Cell [0] holds a placement named "x"; a second placement was made in
    cell [2] under the same name and taken out of it again. *)
Definition named_elsewhere : World :=
  (remove 2 (One (ACellReference 1))
     (add_ref 2 (AComponent 1) (Some "x")
        (add_ref 0 (AComponent 1) (Some "x") three_cells).2).2).2.

(** * install.py *)

(** ** The file system and the console *)

(** What a path names: a regular file with its text, a directory, or a
    symbolic link with the path it points to.  Link targets are taken as
    absolute paths, and the directory a path lies in is taken to exist. *)
Inductive node :=
  | File (text : string)
  | Dir
  | Symlink (target : string).

(** The [OSError]s the calls below raise, by errno. *)
Inductive oserror := EEXIST | ENOENT | EISDIR | ELOOP | EPERM.

Inductive error :=
  | OSError (e : oserror)
  | CalledProcessError
  | ConfigParserError.

Inductive outcome (A : Type) :=
  | Done (a : A)
  | Err (e : error).
Arguments Done {A} a.
Arguments Err {A} e.

(** A [RawConfigParser]: the default options and the sections in order,
    each with its options. *)
Record config := mkConfig {
  defaults : list (string * string);
  sections : list (string * list (string * string))
}.

(** What the machine answers: the platform, the home directory, whether
    [os.symlink] is permitted, whether [mklink /J] exits with 0, the text of
    an [OSError] of [os.symlink], and how [configparser] reads and writes a
    configuration. *)
Record Host := mkHost {
  win32 : bool;
  home : string;
  symlink_permitted : bool;
  mklink_ok : bool;
  strerror : oserror → string → string → string;
  config_parse : string → outcome config;
  config_render : config → string
}.

Record Sys := mkSys {
  fs : gmap string node;
  stdout : list string
}.

Definition IO (A : Type) : Type := Sys → outcome A * Sys.

Global Instance IO_ret : MRet IO := λ A a s, (Done a, s).
Global Instance IO_bind : MBind IO := λ A B f m s,
  match m s with
  | (Done a, s') => f a s'
  | (Err e, s') => (Err e, s')
  end.

Definition get_sys : IO Sys := λ s, (Done s, s).

Definition print (line : string) : IO unit := λ s,
  (Done tt, mkSys (fs s) (stdout s ++ [line])).

(** The path a chain of links ends at; the kernel gives up after
    [MAXSYMLINKS] links. *)
Fixpoint resolve (fuel : nat) (fs : gmap string node) (p : string) : option string :=
  match fs !! p with
  | Some (Symlink target) =>
      match fuel with
      | O => None
      | S fuel' => resolve fuel' fs target
      end
  | _ => Some p
  end.

Definition MAXSYMLINKS : nat := 40.

Definition realpath (fs : gmap string node) (p : string) : option string :=
  resolve MAXSYMLINKS fs p.

(** [Path.exists()]: follows links; a dangling link or a loop does not
    exist. *)
Definition path_exists (fs : gmap string node) (p : string) : bool :=
  match realpath fs p with
  | Some q => bool_decide (is_Some (fs !! q))
  | None => false
  end.

(** The text [open(p).read()] gives. *)
Definition file_text (fs : gmap string node) (p : string) : outcome string :=
  match realpath fs p with
  | Some q =>
      match fs !! q with
      | Some (File text) => Done text
      | Some Dir => Err (OSError EISDIR)
      | _ => Err (OSError ENOENT)
      end
  | None => Err (OSError ELOOP)
  end.

Definition read_text (p : string) : IO string := λ s,
  match file_text (fs s) p with
  | Done text => (Done text, s)
  | Err e => (Err e, s)
  end.

(** [open(p, "w+")] and [f.write(text)]: through links; creates the file. *)
Definition write_text (p text : string) : IO unit := λ s,
  match realpath (fs s) p with
  | Some q =>
      match fs s !! q with
      | Some Dir => (Err (OSError EISDIR), s)
      | _ => (Done tt, mkSys (<[q := File text]> (fs s)) (stdout s))
      end
  | None => (Err (OSError ELOOP), s)
  end.

(** [open(p, "a")] and [f.write(text)]. *)
Definition append_text (p text : string) : IO unit := λ s,
  match realpath (fs s) p with
  | Some q =>
      match fs s !! q with
      | Some Dir => (Err (OSError EISDIR), s)
      | Some (File old) => (Done tt, mkSys (<[q := File (old +:+ text)]> (fs s)) (stdout s))
      | _ => (Done tt, mkSys (<[q := File text]> (fs s)) (stdout s))
      end
  | None => (Err (OSError ELOOP), s)
  end.

(** [os.remove(p)]: removes a file or the link itself, not a directory. *)
Definition os_remove_path (p : string) : IO unit := λ s,
  match fs s !! p with
  | None => (Err (OSError ENOENT), s)
  | Some Dir => (Err (OSError EISDIR), s)
  | Some _ => (Done tt, mkSys (delete p (fs s)) (stdout s))
  end.

(** [os.symlink(src, dest)]. *)
Definition os_symlink (host : Host) (src dest : string) : IO unit := λ s,
  if negb (symlink_permitted host) then (Err (OSError EPERM), s)
  else match fs s !! dest with
       | Some _ => (Err (OSError EEXIST), s)
       | None => (Done tt, mkSys (<[dest := Symlink src]> (fs s)) (stdout s))
       end.

(** [subprocess.check_call("mklink /J dest src", shell=True)]: returns the
    exit status 0, or raises [CalledProcessError]. *)
Definition check_call_mklink (host : Host) (src dest : string) : IO Z := λ s,
  if mklink_ok host && bool_decide (fs s !! dest = None)
  then (Done 0%Z, mkSys (<[dest := Symlink src]> (fs s)) (stdout s))
  else (Err CalledProcessError, s).

(** [s1 in s2] on strings. *)
Fixpoint contains (needle hay : string) : bool :=
  String.prefix needle hay
  || match hay with
     | EmptyString => false
     | String _ hay' => contains needle hay'
     end.

Definition newline : string := String (ascii_of_nat 10) EmptyString.
Definition dquote : string := String (ascii_of_nat 34) EmptyString.

(** ** The functions *)

Definition make_link (host : Host) (src dest : string) : IO unit := λ s,
  match os_symlink host src dest s with
  | (Err (OSError err), s') =>
      (print "Could not create symlink!";;
       print ("     Error:  " +:+ strerror host err src dest);;
       if win32 host then
         print "Trying to create a junction instead of a symlink...";;
         proc ← check_call_mklink host src dest;
         if decide (proc ≠ 0%Z) then print "Could not create link!" else mret tt
       else mret tt) s'
  | r => r
  end.

(** [config.read(path)]: a file that cannot be opened is skipped. *)
Definition config_read (host : Host) (path : string) : IO config := λ s,
  match read_text path s with
  | (Done text, _) =>
      match config_parse host text with
      | Done c => (Done c, s)
      | Err e => (Err e, s)
      end
  | (Err _, _) => (Done (mkConfig [] []), s)
  end.

Definition add_section (c : config) (section : string) : config :=
  mkConfig (defaults c) (sections c ++ [(section, [])]).

Definition set_option (options : list (string * string)) (option value : string)
  : list (string * string) :=
  if decide (option ∈ options.*1)
  then (λ kv : string * string, if decide (kv.1 = option) then (option, value) else kv)
         <$> options
  else options ++ [(option, value)].

Definition config_set (c : config) (section option value : string) : config :=
  mkConfig (defaults c)
    ((λ sec : string * list (string * string),
        if decide (sec.1 = section) then (sec.1, set_option sec.2 option value) else sec)
       <$> sections c).

Definition gds_diff_section : string := "diff " +:+ dquote +:+ "gds_diff" +:+ dquote.

Definition write_git_config (host : Host) (git_config_path : string) : IO unit :=
  print "gdsdiff shows boolean differences in Klayout";;
  print "git diff FILE.GDS";;
  print "Appending the gdsdiff command to your ~/.gitconfig";;
  config ← config_read host git_config_path;
  let key := gds_diff_section in
  if decide (key ∉ (sections config).*1) then
    let config := add_section config key in
    let config := config_set config key "command" "python -m gdsfactory.gdsdiff.gds_diff_git" in
    let config := config_set config key "binary" "True" in
    write_text git_config_path (config_render host config)
  else mret tt.

Definition git_config_path (host : Host) : string := home host +:+ "/.gitconfig".
Definition git_attributes_path (host : Host) : string := home host +:+ "/.gitattributes".

Definition install_gdsdiff (host : Host) : IO unit :=
  s ← get_sys;
  git_config_str ←
    (if path_exists (fs s) (git_config_path host)
     then read_text (git_config_path host) else mret "empty");
  git_attributes_str ←
    (if path_exists (fs s) (git_attributes_path host)
     then read_text (git_attributes_path host) else mret "empty");
  (if negb (contains "gds_diff" git_config_str)
   then write_git_config host (git_config_path host) else mret tt);;
  (if negb (contains "gds_diff" git_attributes_str) then
     print "Appending the gdsdiff command to your ~/.gitattributes";;
     append_text (git_attributes_path host) ("*.gds diff=gds_diff" +:+ newline)
   else mret tt).

Definition make_symlink (host : Host) (src dest : string) : IO unit :=
  s ← get_sys;
  (if path_exists (fs s) dest then os_remove_path dest else mret tt);;
  make_link host src dest;;
  print "Symlink made:";;
  print ("From: " +:+ src);;
  print ("To:   " +:+ dest).

(** ** Notions for the properties *)

(** The text [install_gdsdiff] takes for a path. *)
Definition text_or_empty (fs : gmap string node) (p : string) : outcome string :=
  if path_exists fs p then file_text fs p else Done "empty".

(** A host whose [configparser] writes the name of every section. *)
Definition writes_section_names (host : Host) : Prop :=
  ∀ (c : config) (section : string),
    section ∈ (sections c).*1 → contains section (config_render host c) = true.

(** ** Example machines *)

(** A writer in the format of [configparser]: a header line for each
    section, a line for each option, an empty line. *)
Fixpoint render_options (options : list (string * string)) : string :=
  match options with
  | [] => ""
  | (option, value) :: rest => option +:+ " = " +:+ value +:+ newline +:+ render_options rest
  end.

Fixpoint render_sections (secs : list (string * list (string * string))) : string :=
  match secs with
  | [] => ""
  | (section, options) :: rest =>
      "[" +:+ section +:+ "]" +:+ newline +:+ render_options options +:+ newline
      +:+ render_sections rest
  end.

(** A reader that finds the section when its header is in the text. *)
Definition parse_gds_diff (text : string) : outcome config :=
  Done (mkConfig []
          (if contains ("[" +:+ gds_diff_section +:+ "]") text
           then [(gds_diff_section, [])] else [])).

Definition posix_host : Host :=
  mkHost false "/home/ana" true true
    (λ _ src dest, "[Errno 17] File exists: " +:+ src +:+ " -> " +:+ dest)
    parse_gds_diff (λ c, render_sections (sections c)).

Definition salt_link : string := "/home/ana/.klayout/salt/gdsfactory".

Definition empty_home : Sys := mkSys ∅ [].

(** The link of an earlier install whose target is gone. *)
Definition dangling_home : Sys :=
  mkSys (<[salt_link := Symlink "/opt/old/klayout"]> ∅) [].

Definition folder_home : Sys := mkSys (<[salt_link := Dir]> ∅) [].

(** An attributes file whose last line has no line break. *)
Definition attributes_home : Sys :=
  mkSys (<["/home/ana/.gitattributes" := File "*.png binary"]> ∅) [].

(** * Properties *)

(** ** Running computations *)

Lemma bind_run {A B} (m : M A) (k : A → M B) (w : World) :
  (m ≫= k) w =
  match m w with
  | (Ok a, w') => k a w'
  | (Raise e, w') => (Raise e, w')
  end.
Proof. reflexivity. Qed.

Lemma get_comp_run (c : cid) (C : Component) (w : World) :
  comps w !! c = Some C → get_comp c w = (Ok C, w).
Proof. intros H. unfold get_comp. by rewrite H. Qed.

Lemma get_ref_run (r : rid) (R : Reference) (w : World) :
  refs w !! r = Some R → get_ref r w = (Ok R, w).
Proof. intros H. unfold get_ref. by rewrite H. Qed.

Section keeps.
Context {X : Type} (v : World → X).

Lemma keeps_ret {A} (a : A) : keeps v (mret a).
Proof. by intros w. Qed.

Lemma keeps_raise {A} (e : exn) : keeps v (raise e : M A).
Proof. by intros w. Qed.

Lemma keeps_bind {A B} (m : M A) (k : A → M B) :
  keeps v m → (∀ a, keeps v (k a)) → keeps v (m ≫= k).
Proof.
  intros Hm Hk w. rewrite bind_run. specialize (Hm w).
  destruct (m w) as [[a|e] w']; simpl in *; [|done].
  by rewrite Hk.
Qed.

Lemma keeps_get_comp (c : cid) : keeps v (get_comp c).
Proof. intros w. unfold get_comp. by destruct (comps w !! c). Qed.

Lemma keeps_get_ref (r : rid) : keeps v (get_ref r).
Proof. intros w. unfold get_ref. by destruct (refs w !! r). Qed.

Lemma keeps_for_each {A} (xs : list A) (body : A → M unit) :
  (∀ x, keeps v (body x)) → keeps v (for_each xs body).
Proof.
  intros Hb. induction xs as [|x xs IH]; simpl.
  - apply keeps_ret.
  - apply keeps_bind; auto.
Qed.
End keeps.

Lemma keeps_modify_comp {X} (g : Component → X) (c : cid) (f : Component → Component) :
  (∀ C, g (f C) = g C) → keeps (comp_view g) (modify_comp c f).
Proof.
  intros Hf w. unfold modify_comp, comp_view. rewrite bind_run. unfold get_comp.
  destruct (comps w !! c) as [C|] eqn:HC; simpl; [|done].
  rewrite fmap_insert, Hf. apply insert_id. by rewrite lookup_fmap, HC.
Qed.

Lemma keeps_put_ref {X} (g : Component → X) (r : rid) (R : Reference) :
  keeps (comp_view g) (put_ref r R).
Proof. by intros w. Qed.

Lemma keeps_new_ref {X} (g : Component → X) (R : Reference) :
  keeps (comp_view g) (new_ref R).
Proof. by intros w. Qed.

Create HintDb keeps.
Lemma keeps_get_world {X} (v : World → X) : keeps v get_world.
Proof. by intros w. Qed.

#[export] Hint Resolve keeps_ret keeps_raise keeps_get_comp keeps_get_ref
  keeps_put_ref keeps_new_ref keeps_get_world : keeps.

(** Break a computation into its steps. *)
Ltac keeps_step :=
  repeat first
    [ apply keeps_modify_comp; intros ?; reflexivity
    | solve [eauto with keeps]
    | apply keeps_for_each; intros ?
    | match goal with
      | |- keeps _ (_ ≫= _) => apply keeps_bind; [|intros ?]
      end
    | match goal with
      | |- keeps _ (match ?x with _ => _ end) => destruct x
      | |- keeps _ (if ?b then _ else _) => destruct b
      end ].

(** ** The mutability guard *)

Section locked_flag.
Let v := comp_view _locked.

Lemma keeps_locked_while (fuel : nat) (self : cid) (prefix alias : string) :
  keeps v (while_alias_used fuel self prefix alias).
Proof.
  revert alias. induction fuel as [|fuel IH]; intros alias; simpl; subst v.
  - keeps_step.
  - apply keeps_bind; [eauto with keeps|intros C].
    destruct (decide _); [|eauto with keeps].
    apply keeps_bind; [keeps_step|intros _].
    apply keeps_bind; [eauto with keeps|intros C']. apply IH.
Qed.

Lemma keeps_locked_set_reference_name (r : rid) (alias : string) :
  keeps v (set_reference_name r alias).
Proof. unfold set_reference_name, v. keeps_step. Qed.

Lemma keeps_locked_register (self : cid) (r : rid) (alias : option string) :
  keeps v (_register_reference self r alias).
Proof.
  unfold _register_reference, set_reference_owner.
  apply keeps_bind; [subst v; eauto with keeps|intros R].
  apply keeps_bind; [subst v; keeps_step|intros _].
  apply keeps_bind; [|intros a; apply keeps_locked_set_reference_name].
  destruct alias; [subst v; eauto with keeps|].
  apply keeps_bind; [subst v; eauto with keeps|intros R'].
  destruct (ref_name R'); [subst v; eauto with keeps|].
  apply keeps_bind; [subst v; eauto with keeps|intros child].
  apply keeps_bind; [subst v; keeps_step|intros _].
  apply keeps_bind; [subst v; eauto with keeps|intros C].
  apply keeps_locked_while.
Qed.

Lemma keeps_locked_add (self : cid) (e : element) : keeps v (_add self e).
Proof. unfold _add, is_unlocked, Device_add, v. keeps_step. Qed.

Lemma keeps_locked_add_ref (self : cid) (component : pyobj) (alias : option string) :
  keeps v (add_ref self component alias).
Proof.
  unfold add_ref. destruct component; [|apply keeps_raise].
  apply keeps_bind; [unfold ComponentReference, v; eauto with keeps|intros r].
  apply keeps_bind; [apply keeps_locked_add|intros _].
  apply keeps_bind; [apply keeps_locked_register|intros _].
  apply keeps_ret.
Qed.
End locked_flag.



(** What the guard does where it is called: on a locked cell [_add], and
    with it [add], [add_polygon] and [add_ref], raise [MutabilityError] and
    leave every cell as it was. *)
Lemma locked_add_raises (self : cid) (e : element) (w : World) (C : Component) :
  comps w !! self = Some C → _locked C = true →
  _add self e w = (Raise (MutabilityError (name C)), w).
Proof.
  intros HC HL. unfold _add, is_unlocked. rewrite !bind_run.
  by rewrite (get_comp_run _ _ _ HC), HL.
Qed.

Lemma locked_add_polygon_raises (self : cid) (points : list Coordinate) (layer : Layer)
    (w : World) (C : Component) :
  comps w !! self = Some C → _locked C = true →
  add_polygon self points layer w = (Raise (MutabilityError (name C)), w).
Proof.
  intros HC HL. unfold add_polygon, add. rewrite !bind_run.
  by rewrite (locked_add_raises _ _ _ _ HC HL).
Qed.

Lemma locked_add_ref_raises (self c : cid) (alias : option string)
    (w : World) (C : Component) :
  comps w !! self = Some C → _locked C = true →
  ∃ w', add_ref self (AComponent c) alias w = (Raise (MutabilityError (name C)), w')
        ∧ comps w' = comps w.
Proof.
  intros HC HL. unfold add_ref, ComponentReference. rewrite bind_run.
  unfold new_ref at 1. rewrite bind_run.
  erewrite locked_add_raises; [|exact HC|exact HL]. eauto.
Qed.

(** C1 at the failing input: the parent is locked and [_add] refuses a
    polygon, yet [add_port] inserts a port and [remove] takes the placement
    away, both without an exception. *)
Theorem locked_cell_add_port_and_remove_go_through :
  _locked <$> comps locked_parent !! 0 = Some true
  ∧ references <$> comps locked_parent !! 0 = Some [0]
  ∧ _add 0 (One (APolygonSet (mkPolygon triangle (1, 0)%Z))) locked_parent
    = (Raise (MutabilityError "top"), locked_parent)
  ∧ (∃ p w', add_port 0 port_o1 locked_parent = (Ok p, w')
             ∧ dom <$> (ports <$> comps locked_parent !! 0) = Some ∅
             ∧ dom <$> (ports <$> comps w' !! 0) = Some {[Some "o1"]})
  ∧ (∃ w', remove 0 (One (ACellReference 0)) locked_parent = (Ok tt, w')
           ∧ references <$> comps w' !! 0 = Some []).
Proof.
  split; [by vm_compute|]. split; [by vm_compute|]. split; [by vm_compute|].
  split.
  - eexists _, _. split; [vm_compute; reflexivity|]. split; by vm_compute.
  - eexists _. split; [vm_compute; reflexivity|]. by vm_compute.
Qed.

(** ** The port registry *)

(** C4: when the port [add_port] is about to insert carries a name the cell
    already has, the call raises the name-exists [ValueError] and the store,
    hence the port mapping, is what it was. *)
Theorem add_port_existing_name (self : cid) (a : add_port_args) (w : World)
    (C : Component) (p : Port) :
  comps w !! self = Some C →
  port_to_add self a = Ok p →
  port_name p ∈ dom (ports C) →
  add_port self a w = (Raise (ValueError_port_exists (port_name p) (name C)), w).
Proof.
  intros HC Hp Hin. unfold add_port. rewrite Hp, bind_run.
  rewrite (get_comp_run _ _ _ HC). by rewrite decide_True.
Qed.

Lemma add_port_existing_name_witness :
  ∃ C p, comps parent_with_port !! 0 = Some C
         ∧ port_to_add 0 port_o1 = Ok p
         ∧ port_name p ∈ dom (ports C)
         ∧ add_port 0 port_o1 parent_with_port
           = (Raise (ValueError_port_exists (port_name p) (name C)), parent_with_port).
Proof.
  eexists _, _.
  assert (H1 : comps parent_with_port !! 0
               = Some (set_ports (<[Some "o1" :=
                   mkPort (Some "o1") (0 # 1, 0 # 1) (1 # 2) (Some (180 # 1)) (Some 0)
                     (1, 0)%Z "optical" None]> ∅) (init_component "top")))
    by (vm_compute; reflexivity).
  assert (H2 : port_to_add 0 port_o1
               = Ok (mkPort (Some "o1") (0 # 1, 0 # 1) (1 # 2) (Some (180 # 1)) (Some 0)
                       (1, 0)%Z "optical" None)) by reflexivity.
  assert (H3 : Some "o1" ∈ dom (ports (set_ports (<[Some "o1" :=
                   mkPort (Some "o1") (0 # 1, 0 # 1) (1 # 2) (Some (180 # 1)) (Some 0)
                     (1, 0)%Z "optical" None]> ∅) (init_component "top"))))
    by (simpl; set_solver).
  split; [exact H1|]. split; [exact H2|]. split; [exact H3|].
  exact (add_port_existing_name 0 port_o1 parent_with_port _ _ H1 H2 H3).
Defined.

(** ** The naming resolver *)

Lemma keeps_shape_modify_comp (c : cid) (f : Component → Component) :
  (∀ C, references (f C) = references C) → keeps shape (modify_comp c f).
Proof.
  intros Hf w. unfold shape. f_equal.
  - by apply keeps_modify_comp.
  - unfold modify_comp. rewrite bind_run. unfold get_comp.
    by destruct (comps w !! c).
Qed.

Lemma keeps_shape_while (fuel : nat) (self : cid) (prefix alias : string) :
  keeps shape (while_alias_used fuel self prefix alias).
Proof.
  revert alias. induction fuel as [|fuel IH]; intros alias; simpl.
  - keeps_step.
  - apply keeps_bind; [eauto with keeps|intros C].
    destruct (decide _); [|eauto with keeps].
    apply keeps_bind; [by apply keeps_shape_modify_comp|intros _].
    apply keeps_bind; [eauto with keeps|intros C']. apply IH.
Qed.

Lemma shape_placements (w w' : World) (c : cid) :
  shape w' = shape w → placements w' c = placements w c.
Proof.
  unfold shape, placements, comp_view. intros [= H _].
  by rewrite <- !lookup_fmap, H.
Qed.

Lemma shape_aliases (w w' : World) (c : cid) :
  shape w' = shape w → aliases w' c = aliases w c.
Proof.
  intros H. unfold aliases. rewrite (shape_placements _ _ _ H).
  injection H as _ H. unfold alias_of_ref. by rewrite H.
Qed.

Lemma shape_placements_wf (w w' : World) (c : cid) :
  shape w' = shape w → placements_wf w c → placements_wf w' c.
Proof.
  intros H (H1 & H2 & H3). unfold placements_wf.
  rewrite (shape_placements _ _ _ H), (shape_aliases _ _ _ H).
  injection H as _ H. by rewrite H.
Qed.

Lemma omap_ext_in {A B} (f g : A → option B) (l : list A) :
  (∀ x, x ∈ l → f x = g x) → omap f l = omap g l.
Proof.
  induction l as [|x l IH]; intros H; [done|].
  change (omap f (x :: l)) with (match f x with Some y => y :: omap f l | None => omap f l end).
  change (omap g (x :: l)) with (match g x with Some y => y :: omap g l | None => omap g l end).
  rewrite (H x) by apply list_elem_of_here.
  rewrite IH; [done|]. intros y Hy. apply H. by apply list_elem_of_further.
Qed.

(** What [set_reference_name] does to a placement that has an owner. *)
Lemma set_reference_name_post (r : rid) (a : string) (w : World) (R : Reference)
    (c : cid) (res : result unit) (w' : World) :
  refs w !! r = Some R → owner R = Some c →
  set_reference_name r a w = (res, w') →
  comp_view references w' = comp_view references w
  ∧ (refs w' = refs w
     ∨ ((a ∉ aliases_except w c r)
        ∧ refs w' = <[r := set_ref_name (Some a) R]> (refs w))).
Proof.
  intros HR Ho. unfold set_reference_name. rewrite bind_run, (get_ref_run _ _ _ HR), Ho.
  rewrite bind_run. unfold get_comp, aliases_except, placements.
  destruct (comps w !! c) as [C|] eqn:HC; simpl; [|intros [= _ <-]; by auto].
  rewrite bind_run. unfold get_world. unfold other_aliases.
  destruct (decide _) as [Hin|Hin]; simpl; [intros [= _ <-]; by auto|].
  rewrite bind_run. unfold put_ref at 1.
  match goal with |- context [modify_comp ?c ?f ?w] =>
    pose proof (keeps_modify_comp references c f (λ _, eq_refl) w) as Hk;
    assert (Hr : refs (modify_comp c f w).2 = refs w)
      by (unfold modify_comp; rewrite bind_run; unfold get_comp;
          by destruct (comps w !! c))
  end.
  intros Heq. rewrite Heq in Hk, Hr. simpl in *.
  split; [exact Hk|]. right. split; [exact Hin|exact Hr].
Qed.

(** What [_register_reference] does to a placement that has no alias yet. *)
Lemma register_reference_post (self : cid) (r : rid) (alias : option string)
    (w : World) (R : Reference) (res : result unit) (w' : World) :
  refs w !! r = Some R →
  _register_reference self r alias w = (res, w') →
  comp_view references w' = comp_view references w
  ∧ (∀ r', r' ≠ r → refs w' !! r' = refs w !! r')
  ∧ (ref_name <$> refs w' !! r = Some (ref_name R)
     ∨ ∃ a, ref_name <$> refs w' !! r = Some (Some a) ∧ (a ∉ aliases_except w self r)).
Proof.
  intros HR. unfold _register_reference.
  rewrite bind_run, (get_ref_run _ _ _ HR), bind_run.
  unfold set_reference_owner. rewrite bind_run, (get_ref_run _ _ _ HR).
  unfold put_ref at 1. rewrite bind_run.
  set (w3 := mkWorld _ _ _ _ _ _).
  assert (H3 : refs w3 !! r = Some (set_owner (Some self) R))
    by (subst w3; simpl; by rewrite lookup_insert_eq).
  lazymatch goal with
  | |- context [match ?m w3 with _ => _ end] =>
      assert (Hk : keeps shape m)
  end.
  { destruct alias; [eauto with keeps|].
    apply keeps_bind; [eauto with keeps|intros R'].
    destruct (ref_name R'); [eauto with keeps|].
    apply keeps_bind; [eauto with keeps|intros child].
    apply keeps_bind; [by apply keeps_shape_modify_comp|intros _].
    apply keeps_bind; [eauto with keeps|intros C]. apply keeps_shape_while. }
  lazymatch goal with
  | |- context [match ?m w3 with _ => _ end] =>
      specialize (Hk w3); destruct (m w3) as [[a|e] w5]
  end; simpl in Hk; injection Hk as Hc5 Hr5.
  - intros Heq.
    pose proof (set_reference_name_post r a w5 (set_owner (Some self) R) self res w') as Hp.
    rewrite Hr5 in Hp. specialize (Hp H3 eq_refl Heq).
    destruct Hp as (Hc6 & Hr6). split; [by rewrite Hc6, Hc5|].
    assert (Hae : aliases_except w5 self r = aliases_except w self r).
    { unfold aliases_except, placements. unfold comp_view in Hc5.
      rewrite <- !lookup_fmap, Hc5, !lookup_fmap.
      apply omap_ext_in. intros r' _.
      destruct (decide (r' = r)); [done|].
      unfold alias_of_ref. rewrite Hr5. subst w3. simpl. by rewrite lookup_insert_ne. }
    destruct Hr6 as [Hr6|[Hnin Hr6]]; rewrite Hr6, ?Hr5; subst w3; simpl.
    + split; [intros r' Hne; by rewrite lookup_insert_ne|].
      left. by rewrite lookup_insert_eq.
    + split; [intros r' Hne; by rewrite !lookup_insert_ne|].
      right. exists a. split; [by rewrite lookup_insert_eq|].
      by rewrite <- Hae.
  - intros [= _ <-]. split; [done|]. rewrite Hr5. subst w3; simpl.
    split; [intros r' Hne; by rewrite lookup_insert_ne|].
    left. by rewrite lookup_insert_eq.
Qed.

Lemma placements_unfold (w : World) (c : cid) (C : Component) :
  comps w !! c = Some C → placements w c = references C.
Proof. intros H. unfold placements. by rewrite H. Qed.

(** A new placement object does not disturb the cells. *)
Lemma new_ref_placements_wf (w : World) (c : cid) (R : Reference) :
  placements_wf w c → placements_wf (new_ref R w).2 c.
Proof.
  intros (H1 & H2 & H3). unfold new_ref. simpl.
  set (r := fresh (dom (refs w))).
  assert (Hr : refs w !! r = None) by (apply not_elem_of_dom, is_fresh).
  unfold placements_wf, aliases, placements in *. simpl.
  split; [|split; [done|]].
  - intros r' Hr'. rewrite lookup_insert_ne; [by apply H1|].
    intros <-. apply H1 in Hr'. rewrite Hr in Hr'. by destruct Hr'.
  - erewrite omap_ext_in; [exact H3|]. intros r' Hr'.
    unfold alias_of_ref. simpl. rewrite lookup_insert_ne; [done|].
    intros <-. apply H1 in Hr'. rewrite Hr in Hr'. by destruct Hr'.
Qed.

(** One [add_ref] keeps the placements of the cell well formed, whether it
    returns or raises. *)
Lemma add_ref_placements_wf (self : cid) (component : pyobj) (alias : option string)
    (w : World) :
  placements_wf w self → placements_wf (add_ref self component alias w).2 self.
Proof.
  intros Hwf. destruct component as [c|]; [|done].
  unfold add_ref, ComponentReference. rewrite bind_run.
  pose proof (new_ref_placements_wf w self (mkReference c None None) Hwf) as Hwf1.
  unfold new_ref in *. simpl in Hwf1.
  set (r := fresh (dom (refs w))) in *.
  assert (Hr : refs w !! r = None) by (apply not_elem_of_dom, is_fresh).
  set (w1 := mkWorld _ _ _ _ _ _) in *.
  rewrite bind_run. unfold _add, is_unlocked. rewrite !bind_run. unfold get_comp at 1.
  change (comps w1) with (comps w).
  destruct (comps w !! self) as [C|] eqn:HC; simpl; [|done].
  destruct (_locked C); simpl; [done|].
  unfold modify_comp. rewrite bind_run, (get_comp_run self C w1 HC). unfold put_comp.
  set (w2 := mkWorld _ _ _ _ _ _). rewrite bind_run.
  destruct (_register_reference self r alias w2) as [res w'] eqn:Heq.
  assert (HR2 : refs w2 !! r = Some (mkReference c None None))
    by (subst w2 w1; simpl; by rewrite lookup_insert_eq).
  destruct (register_reference_post _ _ _ _ _ _ _ HR2 Heq) as (Hc & Hne & Hname).
  assert (Hfin : placements_wf w' self); [|by destruct res].
  destruct Hwf as (H1 & H2 & H3).
  rewrite (placements_unfold _ _ _ HC) in H1, H2.
  unfold aliases in H3. rewrite (placements_unfold _ _ _ HC) in H3.
  assert (Hnotin : r ∉ references C).
  { intros Hin. apply H1 in Hin. rewrite Hr in Hin. by destruct Hin. }
  assert (Hpl2 : placements w2 self = references C ++ [r]).
  { unfold placements. subst w2. simpl. by rewrite lookup_insert_eq. }
  assert (Hpl : placements w' self = references C ++ [r]).
  { rewrite <- Hpl2. unfold placements. unfold comp_view in Hc.
    by rewrite <- !lookup_fmap, Hc. }
  assert (Hold : ∀ r', r' ∈ references C → refs w' !! r' = refs w !! r').
  { intros r' Hr'. assert (r' ≠ r) by (intros ->; done).
    rewrite Hne by done. subst w2 w1. simpl. by rewrite lookup_insert_ne. }
  assert (Hal : omap (alias_of_ref w') (references C) = omap (alias_of_ref w) (references C)).
  { apply omap_ext_in. intros r' Hr'. unfold alias_of_ref.
    by rewrite Hold. }
  unfold placements_wf, aliases. rewrite Hpl. split; [|split].
  - intros r' [Hr'| ->%list_elem_of_singleton]%elem_of_app.
    + rewrite Hold by done. by apply H1.
    + destruct Hname as [Hn|(a & Hn & _)];
        destruct (refs w' !! r); by eauto.
  - apply NoDup_app. split; [done|]. split; [|apply NoDup_singleton].
    intros x Hx ->%list_elem_of_singleton. done.
  - rewrite omap_app, Hal. simpl.
    destruct Hname as [Hn|(a & Hn & Hnin)].
    + unfold alias_of_ref at 2. destruct (refs w' !! r) as [R'|]; simpl in *;
        [injection Hn as ->|]; simpl; by rewrite app_nil_r.
    + unfold alias_of_ref at 2. destruct (refs w' !! r) as [R'|]; simpl in *; [|done].
      injection Hn as ->. simpl. apply NoDup_app. split; [done|].
      split; [|apply NoDup_singleton].
      intros x Hx ->%list_elem_of_singleton. apply Hnin.
      unfold aliases_except. rewrite Hpl2, omap_app. apply elem_of_app. left.
      erewrite omap_ext_in; [exact Hx|]. intros r' Hr'.
      rewrite decide_False by (intros ->; done).
      unfold alias_of_ref. subst w2 w1. simpl. rewrite lookup_insert_ne; [done|].
      intros ->; done.
Qed.

Lemma add_refs_placements_wf (self : cid) (requests : list (pyobj * option string))
    (w : World) :
  placements_wf w self → placements_wf (add_refs self requests w) self.
Proof.
  revert w. induction requests as [|[c a] rqs IH]; intros w Hwf; [done|].
  apply IH. by apply add_ref_placements_wf.
Qed.

Global Instance alias_of_inj (prefix : string) : Inj (=) (=) (alias_of prefix).
Proof.
  intros n m H. unfold alias_of in H.
  apply (inj (String.app prefix)), (inj (String.app "_")) in H.
  by apply (inj pretty) in H.
Qed.

(** The [while] loop always comes back with an alias that is not in the set
    of used names: the fuel it is given is never used up. *)
Lemma while_alias_used_returns (fuel : nat) (self : cid) (prefix : string) :
  ∀ (w : World) (C : Component) (seen : gset string),
    comps w !! self = Some C →
    seen ⊆ _reference_names_used C →
    (∀ k, counter_get (_reference_names_counter C) prefix ≤ k →
          alias_of prefix k ∈ _reference_names_used C → alias_of prefix k ∈ seen) →
    size seen ≤ fuel →
    ∃ a w', while_alias_used fuel self prefix
              (alias_of prefix (counter_get (_reference_names_counter C) prefix)) w
            = (Ok a, w')
            ∧ (a ∉ _reference_names_used C)
            ∧ shape w' = shape w.
Proof.
  induction fuel as [|fuel IH]; intros w C seen HC Hsub Hseen Hsize.
  - assert (seen = ∅) as -> by (apply leibniz_equiv, size_empty_iff; lia).
    simpl. rewrite bind_run, (get_comp_run _ _ _ HC).
    destruct (decide _) as [Hin|Hnin]; [|by eauto].
    apply Hseen in Hin; [|done]. set_solver.
  - simpl. rewrite bind_run, (get_comp_run _ _ _ HC).
    destruct (decide _) as [Hin|Hnin]; [|by eauto].
    rewrite bind_run. unfold modify_comp at 1. rewrite bind_run, (get_comp_run _ _ _ HC).
    unfold put_comp. set (C' := set_counter _ C). set (w1 := mkWorld _ _ _ _ _ _).
    assert (HC' : comps w1 !! self = Some C')
      by (subst w1; simpl; by rewrite lookup_insert_eq).
    rewrite bind_run, (get_comp_run _ _ _ HC').
    set (n := counter_get (_reference_names_counter C) prefix) in *.
    assert (Hn : counter_get (_reference_names_counter C') prefix = S n).
    { subst C'. simpl. unfold counter_update, counter_get at 1.
      by rewrite lookup_insert_eq. }
    destruct (IH w1 C' (seen ∖ {[alias_of prefix n]}) HC') as (a & w' & Hrun & Ha & Hsh).
    + subst C'. simpl. intros x [Hx _]%elem_of_difference. by apply Hsub.
    + intros k Hk Hkin. rewrite Hn in Hk. subst C'. simpl in Hkin.
      apply elem_of_difference. split; [apply Hseen; [lia|done]|].
      intros Heq%elem_of_singleton. apply (inj (alias_of prefix)) in Heq. lia.
    + assert (alias_of prefix n ∈ seen) by (apply Hseen; [lia|done]).
      rewrite size_difference by set_solver. rewrite size_singleton.
      assert (size seen ≠ 0); [|lia].
      intros Hz%size_empty_iff. set_solver.
    + exists a, w'. split; [exact Hrun|]. split; [exact Ha|].
      rewrite Hsh. unfold shape, comp_view. subst w1. simpl. f_equal.
      rewrite fmap_insert. apply insert_id. by rewrite lookup_fmap, HC.
Qed.

Example seeded_requests_aliases :
  aliases (add_refs 0 seeded_requests two_cells) 0
  = ["straight_2"; "straight_1"; "straight_3"; "straight_4"]
  ∧ placements (add_refs 0 seeded_requests two_cells) 0 = [0; 1; 2; 3; 4].
Proof. split; by vm_compute. Qed.

(** ** Sorting *)

Section stable_sort.
Context {A : Type} (leb : A → A → bool).
Hypothesis leb_total : ∀ x y, leb x y = true ∨ leb y x = true.
Hypothesis leb_trans : ∀ x y z, leb x y = true → leb y z = true → leb x z = true.
Hypothesis leb_antisym : ∀ x y, leb x y = true → leb y x = true → x = y.

Let R : relation A := λ x y, leb x y = true.

Lemma insert_sorted_perm (x : A) (l : list A) : insert_sorted leb x l ≡ₚ x :: l.
Proof.
  induction l as [|y l IH]; simpl; [done|].
  destruct (leb x y); [done|]. rewrite IH. apply Permutation_swap.
Qed.

Lemma stable_sort_perm (l : list A) : stable_sort leb l ≡ₚ l.
Proof.
  induction l as [|x l IH]; simpl; [done|].
  rewrite insert_sorted_perm. by f_equiv.
Qed.

Lemma insert_sorted_hd (x y : A) (l : list A) :
  R y x → HdRel R y l → HdRel R y (insert_sorted leb x l).
Proof.
  intros Hyx Hl. destruct l as [|z l]; simpl; [by constructor|].
  destruct (leb x z); constructor; [done|]. by inversion Hl.
Qed.

Lemma insert_sorted_sorted (x : A) (l : list A) :
  Sorted R l → Sorted R (insert_sorted leb x l).
Proof.
  induction 1 as [|y l Hl IH Hhd]; simpl; [by repeat constructor|].
  destruct (leb x y) eqn:Hxy.
  - constructor; [by constructor|]. by constructor.
  - constructor; [done|]. apply insert_sorted_hd; [|done].
    destruct (leb_total x y) as [H|H]; [congruence|done].
Qed.

Lemma stable_sort_sorted (l : list A) : Sorted R (stable_sort leb l).
Proof.
  induction l as [|x l IH]; simpl; [constructor|]. by apply insert_sorted_sorted.
Qed.

(** The sorted list depends on the elements only, not on their order. *)
Lemma stable_sort_unique (l l' : list A) :
  l ≡ₚ l' → stable_sort leb l = stable_sort leb l'.
Proof.
  intros Hp.
  assert (Transitive R) by (intros x y z; apply leb_trans).
  assert (AntiSymm (=) R) by (intros x y; apply leb_antisym).
  apply (Sorted_unique R); [apply stable_sort_sorted..|].
  by rewrite !stable_sort_perm.
Qed.
End stable_sort.

Lemma lexsort_leb_total (x y : Layer) : lexsort_leb x y = true ∨ lexsort_leb y x = true.
Proof. unfold lexsort_leb. destruct x, y; simpl. lia. Qed.

Lemma lexsort_leb_trans (x y z : Layer) :
  lexsort_leb x y = true → lexsort_leb y z = true → lexsort_leb x z = true.
Proof. unfold lexsort_leb. destruct x, y, z; simpl. lia. Qed.

Lemma lexsort_leb_antisym (x y : Layer) :
  lexsort_leb x y = true → lexsort_leb y x = true → x = y.
Proof.
  unfold lexsort_leb. destruct x as [a b], y as [c d]; simpl. intros H1 H2.
  f_equal; lia.
Qed.

Lemma Z_of_byte_inj (a b : byte) : Sha1.Z_of_byte a = Sha1.Z_of_byte b → a = b.
Proof.
  unfold Sha1.Z_of_byte. intros H%(inj Z.of_N).
  pose proof (Byte.of_to_N a) as Ha. rewrite H, Byte.of_to_N in Ha. congruence.
Qed.

Lemma bytes_leb_total (x y : list byte) : bytes_leb x y = true ∨ bytes_leb y x = true.
Proof.
  revert y. induction x as [|a x IH]; intros [|b y]; simpl; auto.
  destruct (IH y) as [H|H]; rewrite H; lia.
Qed.

Lemma bytes_leb_trans (x y z : list byte) :
  bytes_leb x y = true → bytes_leb y z = true → bytes_leb x z = true.
Proof.
  revert y z. induction x as [|a x IH]; intros [|b y] [|c z]; simpl; try done.
  intros H1 H2.
  destruct (bytes_leb x y) eqn:Hxy, (bytes_leb y z) eqn:Hyz; try lia.
  rewrite (IH y z Hxy Hyz). lia.
Qed.

Lemma bytes_leb_antisym (x y : list byte) :
  bytes_leb x y = true → bytes_leb y x = true → x = y.
Proof.
  revert y. induction x as [|a x IH]; intros [|b y]; simpl; try done.
  intros H1 H2.
  assert (Sha1.Z_of_byte a = Sha1.Z_of_byte b) as ->%Z_of_byte_inj by lia.
  f_equal. apply IH.
  - destruct (bytes_leb x y); [done|lia].
  - destruct (bytes_leb y x); [done|lia].
Qed.

Lemma np_sort_unique (l l' : list (list byte)) : l ≡ₚ l' → np_sort l = np_sort l'.
Proof.
  intros H. unfold np_sort.
  apply stable_sort_unique;
    [apply bytes_leb_total|apply bytes_leb_trans|apply bytes_leb_antisym|].
  by rewrite H.
Qed.

Lemma sorted_layers_unique (d d' : PolygonsBySpec) :
  d.*1 ≡ₚ d'.*1 → sorted_layers d = sorted_layers d'.
Proof.
  intros H. unfold sorted_layers.
  apply stable_sort_unique;
    [apply lexsort_leb_total|apply lexsort_leb_trans|apply lexsort_leb_antisym|done].
Qed.

(** ** The geometry hasher *)

Local Opaque Sha1.sha1 Sha1.hex int64_buffer to_int64 np_round ndigits_of.

Lemma _rnd_unfold (arr : list Coordinate) (precision : Q) :
  _rnd arr precision
  = if Qle_bool precision 0 then Raise ValueError_math_domain
    else Ok (grid precision arr).
Proof. reflexivity. Qed.

Lemma mapM_result_rnd (precision : Q) (l : list (list Coordinate)) :
  mapM_result (λ p, _rnd p precision) l
  = if Qle_bool precision 0
    then match l with [] => Ok [] | _ => Raise ValueError_math_domain end
    else Ok (grid precision <$> l).
Proof.
  induction l as [|p l IH]; simpl; [by destruct (Qle_bool _ _)|].
  rewrite IH, _rnd_unfold. destruct (Qle_bool precision 0); [done|]. reflexivity.
Qed.

Lemma mapM_result_ext {A B} (f g : A → result B) (l : list A) :
  (∀ x, f x = g x) → mapM_result f l = mapM_result g l.
Proof. intros H. induction l as [|x l IH]; simpl; [done|]. by rewrite H, IH. Qed.

(** The bytes fed for one layer do not depend on the order its polygons are
    listed in. *)
Lemma layer_update_perm (d d' : PolygonsBySpec) (precision : Q) (layer : Layer) :
  dict_get d layer ≡ₚ dict_get d' layer →
  layer_update d precision layer = layer_update d' precision layer.
Proof.
  intros H. unfold layer_update. rewrite !mapM_result_rnd.
  destruct (Qle_bool precision 0).
  - destruct (dict_get d layer) as [|p l], (dict_get d' layer) as [|p' l']; try done.
    + by apply Permutation_nil_cons in H.
    + symmetry in H. by apply Permutation_nil_cons in H.
  - simpl. f_equal. f_equal. f_equal. apply np_sort_unique. by rewrite H.
Qed.

(** C3: listing the layers in another order, and the polygons of a layer in
    another order, does not change the digest. *)
Theorem hash_geometry_permutation (d d' : PolygonsBySpec) (precision : Q) :
  same_geometry d d' → hash_geometry d precision = hash_geometry d' precision.
Proof.
  intros [Hk Hp]. unfold hash_geometry, hash_input.
  rewrite (sorted_layers_unique d d' Hk).
  rewrite (mapM_result_ext _ (layer_update d' precision))
    by (intros k; apply layer_update_perm, Hp).
  destruct d as [|e d], d' as [|e' d']; try done.
  - by apply Permutation_nil_cons in Hk.
  - symmetry in Hk. by apply Permutation_nil_cons in Hk.
Qed.

Lemma move_vertex_keys (d : PolygonsBySpec) (k : Layer) (i j : nat) (v' : Coordinate) :
  (move_vertex d k i j v').*1 = d.*1.
Proof.
  unfold move_vertex. rewrite <- list_fmap_compose. apply list_fmap_ext.
  intros n e _. simpl. by destruct (decide (e.1 = k)).
Qed.

Lemma dict_get_cons (e : Layer * list (list Coordinate)) (d : PolygonsBySpec) (k : Layer) :
  dict_get (e :: d) k = if decide (e.1 = k) then e.2 else dict_get d k.
Proof.
  unfold dict_get. simpl. destruct (decide (e.1 = k)); [done|].
  by destruct (list_find _ d) as [[? ?]|].
Qed.

Lemma dict_get_move_vertex (d : PolygonsBySpec) (k k' : Layer) (i j : nat)
    (v' : Coordinate) :
  dict_get (move_vertex d k i j v') k'
  = if decide (k' = k) then alter (λ pts, <[j := v']> pts) i (dict_get d k)
    else dict_get d k'.
Proof.
  induction d as [|e d IH].
  - destruct (decide (k' = k)); [|done]. unfold dict_get. simpl.
    by destruct i.
  - change (move_vertex (e :: d) k i j v')
      with ((if decide (e.1 = k) then (e.1, alter (λ pts, <[j := v']> pts) i e.2) else e)
            :: move_vertex d k i j v').
    rewrite !dict_get_cons, IH.
    destruct (decide (e.1 = k)) as [He|He]; simpl.
    + destruct (decide (k' = k)) as [->|Hk].
      * rewrite !decide_True by done. done.
      * rewrite !decide_False by congruence. done.
    + destruct (decide (k' = k)) as [->|Hk]; [|done].
      rewrite !decide_False by done. done.
Qed.

Lemma grid_insert (precision : Q) (pts : list Coordinate) (j : nat) (v v' : Coordinate) :
  pts !! j = Some v → grid precision [v'] = grid precision [v] →
  grid precision (<[j := v']> pts) = grid precision pts.
Proof.
  unfold grid. intros Hj Hg. f_equal. rewrite list_fmap_insert.
  apply list_insert_id. rewrite list_lookup_fmap, Hj. simpl in *.
  by rewrite Hg.
Qed.

Lemma layer_update_move_vertex (d : PolygonsBySpec) (precision : Q) (k k' : Layer)
    (i j : nat) (v v' : Coordinate) :
  vertex d k i j = Some v →
  _rnd [v'] precision = _rnd [v] precision →
  layer_update (move_vertex d k i j v') precision k' = layer_update d precision k'.
Proof.
  intros Hv Hr. unfold layer_update. rewrite dict_get_move_vertex.
  destruct (decide (k' = k)) as [->|]; [|done].
  unfold vertex in Hv. destruct (dict_get d k !! i) as [pts|] eqn:Hi; [|done].
  simpl in Hv. rewrite !mapM_result_rnd. rewrite !_rnd_unfold in Hr.
  destruct (Qle_bool precision 0).
  - destruct (dict_get d k); [done|]. by destruct i.
  - injection Hr as Hx Hy.
    assert (Hg : grid precision [v'] = grid precision [v])
      by (unfold grid; simpl; congruence).
    assert (grid precision <$> alter (λ pts, <[j := v']> pts) i (dict_get d k)
            = grid precision <$> dict_get d k) as ->; [|done].
    apply list_eq. intros n. rewrite !list_lookup_fmap.
    destruct (decide (i = n)) as [<-|Hn].
    + rewrite list_lookup_alter_eq, Hi. simpl. f_equal. by eapply grid_insert.
    + by rewrite list_lookup_alter_ne.
Qed.

(** C7, amended: the digest depends on a vertex only through the grid point
    [_rnd] sends it to; a vertex moved to a place with the same grid point
    leaves the digest unchanged, whatever the length of the move. *)
Theorem hash_geometry_same_grid (d : PolygonsBySpec) (precision : Q) (k : Layer)
    (i j : nat) (v v' : Coordinate) :
  vertex d k i j = Some v →
  _rnd [v'] precision = _rnd [v] precision →
  hash_geometry (move_vertex d k i j v') precision = hash_geometry d precision.
Proof.
  intros Hv Hr. unfold hash_geometry, hash_input, sorted_layers.
  rewrite move_vertex_keys.
  rewrite (mapM_result_ext _ (layer_update d precision))
    by (intros k'; by eapply layer_update_move_vertex).
  by destruct d.
Qed.

Lemma hash_geometry_permutation_witness :
  same_geometry layered_cell layered_cell_permuted
  ∧ hash_geometry layered_cell default_precision
    = hash_geometry layered_cell_permuted default_precision.
Proof.
  assert (H : same_geometry layered_cell layered_cell_permuted).
  { split; [apply Permutation_swap|].
    intros k. unfold layered_cell, layered_cell_permuted.
    rewrite !dict_get_cons. cbn [fst snd].
    repeat case_decide; simplify_eq; try done. apply Permutation_swap. }
  split; [exact H|]. exact (hash_geometry_permutation _ _ default_precision H).
Defined.

(** C7, as stated, fails on both sides.  With the default precision 1e-4 a
    vertex moved by 2e-5, from x = 4e-5 to x = 6e-5, crosses a rounding
    boundary and the digest changes; with precision 3e-4 a vertex moved by
    4.8e-4, from x = -2.4e-4 to x = 2.4e-4, lands on the same grid point and
    the digest stays. *)
Lemma hash_geometry_precision_counterexample :
  (vertex jitter_cell (1, 0)%Z 0 0 = Some (4 # 100000, 0 # 1)
   ∧ (Qabs ((6 # 100000) - (4 # 100000)) < default_precision)%Q
   ∧ hash_geometry (move_vertex jitter_cell (1, 0)%Z 0 0 (6 # 100000, 0 # 1))
       default_precision
     ≠ hash_geometry jitter_cell default_precision)
  ∧ (vertex wide_cell (1, 0)%Z 0 0 = Some (-24 # 100000, 0 # 1)
     ∧ (3 # 10000 < Qabs ((24 # 100000) - (-24 # 100000)))%Q
     ∧ hash_geometry (move_vertex wide_cell (1, 0)%Z 0 0 (24 # 100000, 0 # 1)) (3 # 10000)
       = hash_geometry wide_cell (3 # 10000)).
Proof.
  split; (split; [reflexivity|]; split; [reflexivity|]).
  - vm_compute. discriminate.
  - vm_compute. reflexivity.
Qed.

Lemma hash_geometry_same_grid_witness :
  vertex jitter_cell (1, 0)%Z 0 0 = Some (4 # 100000, 0 # 1)
  ∧ _rnd [(3 # 100000, 0 # 1)] default_precision
    = _rnd [(4 # 100000, 0 # 1)] default_precision
  ∧ hash_geometry (move_vertex jitter_cell (1, 0)%Z 0 0 (3 # 100000, 0 # 1))
      default_precision
    = hash_geometry jitter_cell default_precision.
Proof.
  assert (H1 : vertex jitter_cell (1, 0)%Z 0 0 = Some (4 # 100000, 0 # 1))
    by reflexivity.
  assert (H2 : _rnd [(3 # 100000, 0 # 1)] default_precision
               = _rnd [(4 # 100000, 0 # 1)] default_precision)
    by (vm_compute; reflexivity).
  split; [exact H1|]. split; [exact H2|].
  exact (hash_geometry_same_grid jitter_cell default_precision (1, 0)%Z 0 0 _ _ H1 H2).
Defined.

(** C8 at the failing input: with geometry on (1, 1) and (2, 0) the layer
    (2, 0) is folded in first, the datatype being the primary key; ascending
    (layer, datatype) order would put (1, 1) first and feeds other bytes. *)
Theorem hash_geometry_layer_order_two_layers :
  sorted_layers two_layer_cell = [(2, 0)%Z; (1, 1)%Z]
  ∧ ∃ u11 u20,
      layer_update two_layer_cell default_precision (1, 1)%Z = Ok u11
      ∧ layer_update two_layer_cell default_precision (2, 0)%Z = Ok u20
      ∧ hash_input two_layer_cell default_precision = Ok (u20 ++ u11)
      ∧ hash_input two_layer_cell default_precision ≠ Ok (u11 ++ u20).
Proof.
  split; [by vm_compute|]. eexists _, _.
  split; [vm_compute; reflexivity|]. split; [vm_compute; reflexivity|].
  split; [vm_compute; reflexivity|]. vm_compute. discriminate.
Qed.

(** C10: a cell without polygons has no layers, and [hash_geometry] raises
    the [IndexError] of [layers[:, 0]] instead of returning a digest. *)
Theorem hash_geometry_empty (precision : Q) :
  hash_geometry [] precision = Raise IndexError_too_many_indices.
Proof. reflexivity. Qed.

(** ** Export *)

(** C5 at the failing input: the top cell and both dependencies are called
    "A".  With "error" the export raises, naming "A", and writes no file.
    With "warn" it warns and returns, and the file holds two cells called
    "A": the top cell and the dependency that survived. *)
Theorem write_gds_duplicate_of_top_cell :
  write_gds ok_env 0 [1; 2] (Some "out/A.gds") None (1 # 1000000) (1 # 1000000000)
    None true (Some "error") same_name_world
  = (Raise (ValueError_duplicated_cells "A" ["A"]),
     (mkdir "out" same_name_world).2)
  ∧ ∃ w',
      write_gds ok_env 0 [1; 2] (Some "out/A.gds") None (1 # 1000000) (1 # 1000000000)
        None true (Some "warn") same_name_world = (Ok "out/A.gds", w')
      ∧ warnings w' = ["Duplicated cell names in A"]
      ∧ files w' !! "out/A.gds"
        = Some (Gds (mkGdsFile [0; 2] (1 # 1000000) (1 # 1000000000) None))
      ∧ name <$> comps w' !! 0 = Some "A"
      ∧ name <$> comps w' !! 2 = Some "A".
Proof.
  split; [by vm_compute|]. eexists. split; [vm_compute; reflexivity|].
  repeat split; by vm_compute.
Qed.

Lemma files_logger_info (msg : string) (w : World) : files (logger_info msg w).2 = files w.
Proof. reflexivity. Qed.




(** * More of the code *)


(** Unfold the monad and the store primitives, keep the maps folded. *)
Ltac unfold_M :=
  cbv [mbind M_bind mret M_ret raise get_world get_comp put_comp modify_comp
       get_ref put_ref new_ref new_comp for_each mkdir warn logger_info write_file];
  cbn [comps refs files dirs warnings log fst snd].

(** ** More on the mutability guard *)

(** X1: [add], the public entry, refuses every element on a locked cell and
    leaves the store as it was. *)
Theorem add_on_locked_cell (self : cid) (e : element) (w : World) (C : Component) :
  comps w !! self = Some C → _locked C = true →
  add self e w = (Raise (MutabilityError (name C)), w).
Proof.
  intros HC HL. unfold add. rewrite bind_run.
  by rewrite (locked_add_raises _ _ _ _ HC HL).
Qed.

Lemma add_on_locked_cell_witness :
  ∃ C, comps locked_parent !! 0 = Some C ∧ _locked C = true
       ∧ add 0 (Many [ALabel (mkLabel "a" (0 # 1, 0 # 1) (1, 0)%Z);
                      APolygonSet (mkPolygon triangle (1, 0)%Z)]) locked_parent
         = (Raise (MutabilityError (name C)), locked_parent).
Proof.
  assert (H : ∃ C, comps locked_parent !! 0 = Some C ∧ _locked C = true)
    by (eexists; split; [vm_compute; reflexivity|reflexivity]).
  destruct H as (C & HC & HL). exists C. split; [exact HC|]. split; [exact HL|].
  exact (add_on_locked_cell 0 _ locked_parent C HC HL).
Defined.

Lemma list_remove_app_new `{EqDecision A} (x : A) (l : list A) :
  x ∉ l → list_remove x (l ++ [x]) = Some l.
Proof.
  induction l as [|y l IH]; intros Hx; simpl.
  - by rewrite decide_True.
  - rewrite decide_False by (intros ->; apply Hx, list_elem_of_here).
    rewrite IH; [done|]. intros H. apply Hx. by apply list_elem_of_further.
Qed.

Lemma insert_insert_same `{Countable K} {V} (m : gmap K V) (k : K) (x y : V) :
  <[k := x]> (<[k := y]> m) = <[k := x]> m.
Proof. apply insert_insert_eq. Qed.

(** X2: a polygon added to an unlocked cell and removed again leaves the
    polygons, ports, references and labels of the cell as they were; only
    the bounding box stays invalidated. *)
Theorem add_polygon_then_remove (self : cid) (points : list Coordinate) (layer : Layer)
    (w : World) (C : Component) :
  comps w !! self = Some C → _locked C = false →
  mkPolygon points layer ∉ polygons C →
  ∃ w1 w2,
    add_polygon self points layer w = (Ok (mkPolygon points layer), w1)
    ∧ polygons <$> comps w1 !! self = Some (polygons C ++ [mkPolygon points layer])
    ∧ remove self (One (APolygonSet (mkPolygon points layer))) w1 = (Ok tt, w2)
    ∧ w2 = mkWorld (<[self := set_bb_valid false C]> (comps w)) (refs w) (files w)
             (dirs w) (warnings w) (log w).
Proof.
  intros HC HL Hnew. eexists _, _.
  split; [|split; [|split]].
  - unfold add_polygon, add, _add, is_unlocked, Device_add, register_if_reference.
    unfold_M. rewrite HC, HL. cbn [fst snd]. rewrite HC. reflexivity.
  - cbn [snd comps]. by rewrite lookup_insert_eq.
  - unfold remove, remove_item. unfold_M. rewrite lookup_insert_eq.
    cbn [polygons set_bb_valid set_polygons].
    rewrite (list_remove_app_new _ _ Hnew). cbn [fst snd comps].
    rewrite lookup_insert_eq. reflexivity.
  - cbn. f_equal. by rewrite !insert_insert_eq.
Qed.

Lemma add_polygon_then_remove_witness :
  ∃ C, comps two_cells !! 0 = Some C ∧ _locked C = false
       ∧ (mkPolygon triangle (1, 0)%Z ∉ polygons C)
       ∧ ∃ w1 w2,
           add_polygon 0 triangle (1, 0)%Z two_cells
           = (Ok (mkPolygon triangle (1, 0)%Z), w1)
           ∧ polygons <$> comps w1 !! 0
             = Some (polygons C ++ [mkPolygon triangle (1, 0)%Z])
           ∧ remove 0 (One (APolygonSet (mkPolygon triangle (1, 0)%Z))) w1 = (Ok tt, w2)
           ∧ w2 = mkWorld (<[0 := set_bb_valid false C]> (comps two_cells))
                    (refs two_cells) (files two_cells) (dirs two_cells)
                    (warnings two_cells) (log two_cells).
Proof.
  exists (init_component "top").
  assert (H1 : comps two_cells !! 0 = Some (init_component "top")) by reflexivity.
  assert (H3 : mkPolygon triangle (1, 0)%Z ∉ polygons (init_component "top"))
    by apply not_elem_of_nil.
  split; [exact H1|]. split; [reflexivity|]. split; [exact H3|].
  exact (add_polygon_then_remove 0 triangle (1, 0)%Z two_cells _ H1 eq_refl H3).
Defined.

(** ** More on ports *)

(** X3: whenever [add_port] raises, the store is what it was. *)
Theorem add_port_raises_unchanged (self : cid) (a : add_port_args) (w w' : World)
    (e : exn) :
  add_port self a w = (Raise e, w') → w' = w.
Proof.
  unfold add_port. destruct (port_to_add self a) as [p|e']; [|by intros [= _ <-]].
  unfold_M. destruct (comps w !! self) as [C|]; [|by intros [= _ <-]].
  destruct (decide _); [by intros [= _ <-]|].
  cbn [fst snd]. destruct (comps w !! self); by intros [=].
Qed.

Lemma add_port_raises_unchanged_witness :
  add_port 0 (mkAddPortArgs (Fields (Some "o2") None None) None (1, 0)%Z "optical" None)
    two_cells = (Raise ValueError_needs_width, two_cells)
  ∧ two_cells = two_cells.
Proof.
  assert (H : add_port 0
                (mkAddPortArgs (Fields (Some "o2") None None) None (1, 0)%Z "optical" None)
                two_cells = (Raise ValueError_needs_width, two_cells)) by reflexivity.
  split; [exact H|]. exact (add_port_raises_unchanged _ _ _ _ _ H).
Defined.

Lemma add_port_fresh_run (self : cid) (a : add_port_args) (w : World)
    (C : Component) (p : Port) :
  comps w !! self = Some C →
  port_to_add self a = Ok p →
  port_name p ∉ dom (ports C) →
  add_port self a w
  = (Ok p, mkWorld (<[self := set_ports (<[port_name p := p]> (ports C)) C]> (comps w))
             (refs w) (files w) (dirs w) (warnings w) (log w)).
Proof.
  intros HC Hp Hnew. unfold add_port. rewrite Hp. unfold_M. rewrite HC.
  rewrite decide_False by done. cbn [fst snd]. by rewrite HC.
Qed.

Lemma add_port_taken_run (self : cid) (a : add_port_args) (w : World)
    (C : Component) (p : Port) :
  comps w !! self = Some C →
  port_to_add self a = Ok p →
  port_name p ∈ dom (ports C) →
  add_port self a w = (Raise (ValueError_port_exists (port_name p) (name C)), w).
Proof.
  intros HC Hp Hin. unfold add_port. rewrite Hp, bind_run.
  rewrite (get_comp_run _ _ _ HC). by rewrite decide_True.
Qed.

(** X4: with arguments that yield a port [p] under a name the cell does not
    have, [add_port] returns [p], stores it under that name and changes
    nothing else; the lock is not consulted. *)
Theorem add_port_fresh_name (self : cid) (a : add_port_args) (w : World)
    (C : Component) (p : Port) :
  comps w !! self = Some C →
  port_to_add self a = Ok p →
  port_name p ∉ dom (ports C) →
  add_port self a w
  = (Ok p, mkWorld (<[self := set_ports (<[port_name p := p]> (ports C)) C]> (comps w))
             (refs w) (files w) (dirs w) (warnings w) (log w))
  ∧ port_parent p = Some self.
Proof.
  intros HC Hp Hnew. split.
  - by apply add_port_fresh_run.
  - unfold port_to_add in Hp.
    destruct (arg_call a) as [[port|] nm|nm|nm [ctr|] [wd|]]; simplify_eq; done.
Qed.

Lemma add_port_fresh_name_witness :
  ∃ C p, comps two_cells !! 0 = Some C
         ∧ port_to_add 0 port_o1 = Ok p
         ∧ (port_name p ∉ dom (ports C))
         ∧ add_port 0 port_o1 two_cells
           = (Ok p, mkWorld (<[0 := set_ports (<[port_name p := p]> (ports C)) C]>
                               (comps two_cells))
                      (refs two_cells) (files two_cells) (dirs two_cells)
                      (warnings two_cells) (log two_cells))
         ∧ port_parent p = Some 0.
Proof.
  eexists (init_component "top"), _.
  assert (H1 : comps two_cells !! 0 = Some (init_component "top")) by reflexivity.
  assert (H2 : port_to_add 0 port_o1
               = Ok (mkPort (Some "o1") (0 # 1, 0 # 1) (1 # 2) (Some (180 # 1)) (Some 0)
                       (1, 0)%Z "optical" None)) by reflexivity.
  assert (H3 : Some "o1" ∉ dom (ports (init_component "top")))
    by (cbn [ports init_component]; rewrite dom_empty_L; apply not_elem_of_empty).
  split; [exact H1|]. split; [exact H2|]. split; [exact H3|].
  exact (add_port_fresh_name 0 port_o1 two_cells _ _ H1 H2 H3).
Defined.

Lemma for_each_app {A} (l1 l2 : list A) (body : A → M unit) (w : World) :
  for_each (l1 ++ l2) body w
  = match for_each l1 body w with
    | (Ok _, w1) => for_each l2 body w1
    | (Raise e, w1) => (Raise e, w1)
    end.
Proof.
  revert w. induction l1 as [|x l1 IH]; intros w; [done|].
  cbn [app for_each]. rewrite !bind_run.
  destruct (body x w) as [[[]|e] w1]; [apply IH|done].
Qed.

Lemma set_port_name_same (port : Port) : set_port_name (port_name port) port = port.
Proof. by destruct port. Qed.

Lemma port_to_add_given (self : cid) (layer0 : Layer) (prefix : string) (port : Port) :
  port_to_add self
    (mkAddPortArgs (PortGiven (Some port) (prefixed_name prefix port)) None layer0
       "optical" None)
  = Ok (stored_port self prefix port).
Proof.
  unfold port_to_add, stored_port. cbn [arg_call].
  destruct (prefixed_name prefix port) as [n|] eqn:Hn; [done|].
  do 2 f_equal. unfold prefixed_name in Hn. destruct (decide _); [|done].
  by rewrite <- Hn, set_port_name_same.
Qed.

Lemma stored_port_name (self : cid) (prefix : string) (port : Port) :
  port_name (stored_port self prefix port) = prefixed_name prefix port.
Proof. reflexivity. Qed.

Lemma dom_ports_added (self : cid) (prefix : string) (qs : list Port)
    (m : gmap (option string) Port) :
  dom (ports_added self prefix qs m)
  = dom m ∪ list_to_set (prefixed_name prefix <$> qs).
Proof.
  revert m. induction qs as [|port qs IH]; intros m.
  - cbn [ports_added foldl fmap list_fmap list_to_set]. by rewrite union_empty_r_L.
  - cbn [ports_added foldl fmap list_fmap list_to_set]. unfold ports_added in IH.
    rewrite IH, dom_insert_L. by rewrite (comm_L _ {[_]}), (assoc_L _).
Qed.

Lemma add_ports_run (layer0 : Layer) (self : cid) (prefix : string) (qs : list Port) :
  ∀ (w : World) (C : Component),
    comps w !! self = Some C →
    NoDup (prefixed_name prefix <$> qs) →
    (∀ port, port ∈ qs → prefixed_name prefix port ∉ dom (ports C)) →
    ∃ w', add_ports layer0 self qs prefix w = (Ok tt, w')
          ∧ comps w' !! self
            = Some (set_ports (ports_added self prefix qs (ports C)) C)
          ∧ (∀ c, c ≠ self → comps w' !! c = comps w !! c)
          ∧ refs w' = refs w.
Proof.
  induction qs as [|port qs IH]; intros w C HC Hnd Hnew.
  - exists w. split; [done|]. split; [|done]. rewrite HC. by destruct C.
  - apply NoDup_cons in Hnd as [Hport Hnd]. cbn [fmap list_fmap] in Hport.
    unfold add_ports. cbn [for_each]. rewrite !bind_run.
    rewrite (add_port_fresh_run self _ w C _ HC
               (port_to_add_given self layer0 prefix port))
      by (rewrite stored_port_name; apply Hnew, list_elem_of_here).
    rewrite stored_port_name. cbn [mret M_ret].
    set (C1 := set_ports _ C). set (w1 := mkWorld _ _ _ _ _ _).
    destruct (IH w1 C1) as (w' & Hrun' & HC' & Hother & Hrefs).
    + subst w1. cbn [comps]. by rewrite lookup_insert_eq.
    + done.
    + intros q Hq. subst C1. cbn [ports set_ports].
      rewrite dom_insert_L. intros [Heq%elem_of_singleton|Hin]%elem_of_union.
      * apply Hport. rewrite <- Heq. apply list_elem_of_fmap. by exists q.
      * revert Hin. apply Hnew. by apply list_elem_of_further.
    + exists w'. split; [exact Hrun'|]. split; [|split].
      * rewrite HC'. subst C1. by destruct C.
      * intros c Hc. rewrite Hother by done. subst w1. cbn [comps].
        by rewrite lookup_insert_ne.
      * by rewrite Hrefs.
Qed.

(** X5: when the names [add_ports] asks for are pairwise distinct and none
    is taken, every port is stored under its name as a copy owned by the
    cell; the names of the cell are the old ones and the new ones. *)
Theorem add_ports_all_added (layer0 : Layer) (self : cid) (prefix : string)
    (qs : list Port) (w : World) (C : Component) :
  comps w !! self = Some C →
  NoDup (prefixed_name prefix <$> qs) →
  (∀ port, port ∈ qs → prefixed_name prefix port ∉ dom (ports C)) →
  ∃ w' C',
    add_ports layer0 self qs prefix w = (Ok tt, w')
    ∧ comps w' !! self = Some C'
    ∧ dom (ports C')
      = dom (ports C) ∪ list_to_set (prefixed_name prefix <$> qs)
    ∧ (∀ port, port ∈ qs →
         ports C' !! prefixed_name prefix port
         = Some (stored_port self prefix port)).
Proof.
  intros HC Hnd Hnew.
  destruct (add_ports_run layer0 self prefix qs w C HC Hnd Hnew)
    as (w' & Hrun & HC' & _ & _).
  eexists w', _. split; [exact Hrun|]. split; [exact HC'|].
  cbn [ports set_ports]. split; [apply dom_ports_added|].
  clear Hrun HC' Hnew HC. revert Hnd. generalize (ports C).
  induction qs as [|q qs IH]; intros m Hnd port Hport.
  - by apply elem_of_nil in Hport.
  - apply NoDup_cons in Hnd as [Hq Hnd]. cbn [ports_added foldl].
    apply elem_of_cons in Hport as [->|Hport]; [|by apply IH].
    clear IH. revert m. induction qs as [|q' qs IH]; intros m.
    + cbn. by rewrite lookup_insert_eq.
    + cbn [foldl]. apply NoDup_cons in Hnd as [_ Hnd].
      cbn [fmap list_fmap] in Hq. apply not_elem_of_cons in Hq as [Hne Hq].
      rewrite insert_insert_ne by done. by apply IH.
Qed.

Lemma add_ports_all_added_witness :
  ∃ C, comps two_cells !! 0 = Some C
       ∧ NoDup (prefixed_name "in_" <$> [port_a; port_b; port_unnamed])
       ∧ (∀ port, port ∈ [port_a; port_b; port_unnamed] →
            prefixed_name "in_" port ∉ dom (ports C))
       ∧ ∃ w' C',
           add_ports (0, 0)%Z 0 [port_a; port_b; port_unnamed] "in_" two_cells = (Ok tt, w')
           ∧ comps w' !! 0 = Some C'
           ∧ dom (ports C')
             = dom (ports C)
               ∪ list_to_set (prefixed_name "in_" <$> [port_a; port_b; port_unnamed])
           ∧ (∀ port, port ∈ [port_a; port_b; port_unnamed] →
                ports C' !! prefixed_name "in_" port
                = Some (stored_port 0 "in_" port)).
Proof.
  exists (init_component "top").
  assert (H1 : comps two_cells !! 0 = Some (init_component "top")) by reflexivity.
  assert (H2 : NoDup (prefixed_name "in_" <$> [port_a; port_b; port_unnamed])).
  { change (NoDup [Some "in_o1"; Some "in_o2"; Some "in_None"]).
    apply NoDup_ListNoDup. repeat constructor; cbn; intuition congruence. }
  assert (H3 : ∀ port, port ∈ [port_a; port_b; port_unnamed] →
                 prefixed_name "in_" port ∉ dom (ports (init_component "top"))).
  { intros port _. cbn [ports init_component]. rewrite dom_empty_L.
    apply not_elem_of_empty. }
  split; [exact H1|]. split; [exact H2|]. split; [exact H3|].
  exact (add_ports_all_added (0, 0)%Z 0 "in_" _ two_cells _ H1 H2 H3).
Defined.

(** X6: [add_ports] is not all-or-nothing.  When the ports before [q] go in
    and the name of [q] is taken, by the cell or by one of them, the call
    raises for [q] and the ports before it stay added. *)
Theorem add_ports_stops_at_clash (layer0 : Layer) (self : cid) (prefix : string)
    (before after : list Port) (q : Port) (w : World) (C : Component) :
  comps w !! self = Some C →
  NoDup (prefixed_name prefix <$> before) →
  (∀ port, port ∈ before → prefixed_name prefix port ∉ dom (ports C)) →
  prefixed_name prefix q
    ∈ dom (ports C) ∪ list_to_set (prefixed_name prefix <$> before) →
  ∃ w',
    add_ports layer0 self (before ++ q :: after) prefix w
    = (Raise (ValueError_port_exists (prefixed_name prefix q) (name C)), w')
    ∧ comps w' !! self
      = Some (set_ports (ports_added self prefix before (ports C)) C).
Proof.
  intros HC Hnd Hnew Hq.
  destruct (add_ports_run layer0 self prefix before w C HC Hnd Hnew)
    as (w1 & Hrun & HC1 & _ & _).
  exists w1. unfold add_ports in *. rewrite for_each_app, Hrun.
  cbn [for_each]. rewrite !bind_run.
  rewrite (add_port_taken_run self _ w1 _ _ HC1
             (port_to_add_given self layer0 prefix q)); [done|].
  rewrite stored_port_name. cbn [ports set_ports].
  by rewrite dom_ports_added.
Qed.

Lemma add_ports_stops_at_clash_witness :
  ∃ C, comps two_cells !! 0 = Some C
       ∧ NoDup (prefixed_name "" <$> [port_a])
       ∧ (∀ port, port ∈ [port_a] → prefixed_name "" port ∉ dom (ports C))
       ∧ (prefixed_name "" port_a
          ∈ dom (ports C) ∪ list_to_set (prefixed_name "" <$> [port_a]))
       ∧ ∃ w',
           add_ports (0, 0)%Z 0 ([port_a] ++ port_a :: [port_b]) "" two_cells
           = (Raise (ValueError_port_exists (prefixed_name "" port_a) (name C)), w')
           ∧ comps w' !! 0
             = Some (set_ports (ports_added 0 "" [port_a] (ports C)) C).
Proof.
  exists (init_component "top").
  assert (H1 : comps two_cells !! 0 = Some (init_component "top")) by reflexivity.
  assert (H2 : NoDup (prefixed_name "" <$> [port_a]))
    by (apply NoDup_singleton).
  assert (H3 : ∀ port, port ∈ [port_a] →
                 prefixed_name "" port ∉ dom (ports (init_component "top"))).
  { intros port _. cbn [ports init_component]. rewrite dom_empty_L.
    apply not_elem_of_empty. }
  assert (H4 : prefixed_name "" port_a
               ∈ dom (ports (init_component "top"))
                 ∪ list_to_set (prefixed_name "" <$> [port_a])).
  { apply elem_of_union_r. cbn. apply elem_of_union_l, elem_of_singleton. reflexivity. }
  split; [exact H1|]. split; [exact H2|]. split; [exact H3|]. split; [exact H4|].
  exact (add_ports_stops_at_clash (0, 0)%Z 0 "" [port_a] [port_b] port_a two_cells _
           H1 H2 H3 H4).
Defined.

(** X7: a port added under a free name and removed again leaves the port
    mapping as it was, provided the cell held no equal port before. *)
Theorem add_port_then_remove (self : cid) (a : add_port_args) (w : World)
    (C : Component) (p : Port) :
  comps w !! self = Some C →
  port_to_add self a = Ok p →
  port_name p ∉ dom (ports C) →
  (∀ k q, ports C !! k = Some q → q ≠ p) →
  ∃ w1 w2,
    add_port self a w = (Ok p, w1)
    ∧ remove self (One (APort p)) w1 = (Ok tt, w2)
    ∧ ports <$> comps w2 !! self = Some (ports C).
Proof.
  intros HC Hp Hnew Hother.
  pose proof (add_port_fresh_run self a w C p HC Hp Hnew) as Hrun.
  eexists _, _. split; [exact Hrun|]. split.
  - unfold remove, remove_item. unfold_M. rewrite lookup_insert_eq.
    cbn [fst snd comps]. rewrite lookup_insert_eq. reflexivity.
  - cbn [snd comps]. rewrite lookup_insert_eq. cbn. f_equal.
    rewrite map_filter_insert_False by (cbn; by intros []).
    rewrite delete_id by (by apply not_elem_of_dom).
    apply map_filter_id. intros k q Hq. cbn. by apply Hother in Hq.
Qed.

Lemma add_port_then_remove_witness :
  ∃ C p, comps two_cells !! 0 = Some C
         ∧ port_to_add 0 port_o1 = Ok p
         ∧ (port_name p ∉ dom (ports C))
         ∧ (∀ k q, ports C !! k = Some q → q ≠ p)
         ∧ ∃ w1 w2,
             add_port 0 port_o1 two_cells = (Ok p, w1)
             ∧ remove 0 (One (APort p)) w1 = (Ok tt, w2)
             ∧ ports <$> comps w2 !! 0 = Some (ports C).
Proof.
  eexists (init_component "top"), _.
  assert (H1 : comps two_cells !! 0 = Some (init_component "top")) by reflexivity.
  assert (H2 : port_to_add 0 port_o1
               = Ok (mkPort (Some "o1") (0 # 1, 0 # 1) (1 # 2) (Some (180 # 1)) (Some 0)
                       (1, 0)%Z "optical" None)) by reflexivity.
  assert (H3 : Some "o1" ∉ dom (ports (init_component "top")))
    by (cbn [ports init_component]; rewrite dom_empty_L; apply not_elem_of_empty).
  assert (H4 : ∀ k q, ports (init_component "top") !! k = Some q
                      → q ≠ mkPort (Some "o1") (0 # 1, 0 # 1) (1 # 2) (Some (180 # 1))
                              (Some 0) (1, 0)%Z "optical" None)
    by (intros k q Hq; cbn [ports init_component] in Hq; by rewrite lookup_empty in Hq).
  split; [exact H1|]. split; [exact H2|]. split; [exact H3|]. split; [exact H4|].
  exact (add_port_then_remove 0 port_o1 two_cells _ _ H1 H2 H3 H4).
Defined.

Lemma list_remove_None `{EqDecision A} (x : A) (l : list A) :
  x ∉ l → list_remove x l = None.
Proof.
  induction l as [|y l IH]; intros Hx; [done|]. cbn.
  rewrite decide_False by (intros ->; apply Hx, list_elem_of_here).
  rewrite IH; [done|]. intros H. apply Hx. by apply list_elem_of_further.
Qed.

(** X8: [remove] stops at a polygon the cell does not hold: it raises the
    [ValueError] of [list.remove], the items before it are gone already, the
    items after it are not looked at and the bounding box is not
    invalidated. *)
Theorem remove_stops_at_missing_polygon (self : cid) (before after : list atom)
    (p : Polygon) (w w1 : World) (C1 : Component) :
  for_each before (remove_item self) w = (Ok tt, w1) →
  comps w1 !! self = Some C1 →
  p ∉ polygons C1 →
  remove self (Many (before ++ APolygonSet p :: after)) w
  = (Raise ValueError_not_in_list, w1).
Proof.
  intros Hrun HC1 Hp. unfold remove. rewrite bind_run, for_each_app, Hrun.
  cbn [for_each]. rewrite bind_run. unfold remove_item at 1.
  rewrite bind_run, (get_comp_run _ _ _ HC1).
  by rewrite (list_remove_None _ _ Hp).
Qed.

Lemma remove_stops_at_missing_polygon_witness :
  ∃ w1 C1,
    for_each [ACellReference 0] (remove_item 0) locked_parent = (Ok tt, w1)
    ∧ comps w1 !! 0 = Some C1
    ∧ (mkPolygon triangle (1, 0)%Z ∉ polygons C1)
    ∧ remove 0 (Many ([ACellReference 0] ++ APolygonSet (mkPolygon triangle (1, 0)%Z)
                       :: [ACellReference 0])) locked_parent
      = (Raise ValueError_not_in_list, w1).
Proof.
  eexists _, _.
  assert (H1 : for_each [ACellReference 0] (remove_item 0) locked_parent
               = (Ok tt, (for_each [ACellReference 0] (remove_item 0) locked_parent).2))
    by (vm_compute; reflexivity).
  assert (H2 : comps (for_each [ACellReference 0] (remove_item 0) locked_parent).2 !! 0
               = Some (set_locked true (set_bb_valid false
                   (set_counter (<["straight" := 1]> ∅)
                     (set_used {["straight_1"]} (init_component "top"))))))
    by (vm_compute; reflexivity).
  assert (H3 : mkPolygon triangle (1, 0)%Z
               ∉ polygons (set_locked true (set_bb_valid false
                   (set_counter (<["straight" := 1]> ∅)
                     (set_used {["straight_1"]} (init_component "top"))))))
    by apply not_elem_of_nil.
  split; [exact H1|]. split; [exact H2|]. split; [exact H3|].
  exact (remove_stops_at_missing_polygon 0 _ _ _ locked_parent _ _ H1 H2 H3).
Defined.

(** ** More on names *)

Lemma foldl_insert_lookup {K V} `{Countable K} (key : V → K) (l : list V)
    (m : gmap K V) (k : K) :
  foldl (λ m r, <[key r := r]> m) m l !! k
  = match last (filter (λ r, key r = k) l) with
    | Some r => Some r
    | None => m !! k
    end.
Proof.
  revert m. induction l as [|r l IH]; intros m; [done|].
  cbn [foldl]. rewrite IH, filter_cons.
  destruct (decide (key r = k)) as [<-|Hne].
  - rewrite last_cons, lookup_insert_eq. by destruct (last _).
  - by rewrite lookup_insert_ne.
Qed.

(** X9: [named_references] maps a name to the last placement of the cell
    that carries it; placements that share a name, or have none, are hidden
    behind the last of them. *)
Theorem named_references_lookup (w : World) (self : cid) (k : option string) :
  named_references w self !! k
  = last (filter (λ r, alias_of_ref w r = k) (placements w self)).
Proof.
  unfold named_references. rewrite foldl_insert_lookup, lookup_empty.
  by destruct (last _).
Qed.

(** The loop, for any bound [fuel] on the used names not yet passed. *)
Lemma while_alias_used_first_free (fuel : nat) (self : cid) (prefix : string) :
  ∀ (w : World) (C : Component) (seen : gset string),
    comps w !! self = Some C →
    (∀ k, counter_get (_reference_names_counter C) prefix ≤ k →
          alias_of prefix k ∈ _reference_names_used C → alias_of prefix k ∈ seen) →
    size seen ≤ fuel →
    ∃ m cnt,
      while_alias_used fuel self prefix
        (alias_of prefix (counter_get (_reference_names_counter C) prefix)) w
      = (Ok (alias_of prefix m),
         if decide (m = counter_get (_reference_names_counter C) prefix) then w
         else mkWorld (<[self := set_counter cnt C]> (comps w)) (refs w) (files w)
                (dirs w) (warnings w) (log w))
      ∧ counter_get (_reference_names_counter C) prefix ≤ m
      ∧ (alias_of prefix m ∉ _reference_names_used C)
      ∧ (∀ k, counter_get (_reference_names_counter C) prefix ≤ k < m →
              alias_of prefix k ∈ _reference_names_used C)
      ∧ cnt = <[prefix := m]> (_reference_names_counter C).
Proof.
  induction fuel as [|fuel IH]; intros w C seen HC Hseen Hsize.
  - assert (seen = ∅) as -> by (apply leibniz_equiv, size_empty_iff; lia).
    cbn [while_alias_used]. rewrite bind_run, (get_comp_run _ _ _ HC).
    destruct (decide _) as [Hin|Hnin].
    { apply Hseen in Hin; [|done]. by apply not_elem_of_empty in Hin. }
    eexists _, _. rewrite decide_True by done.
    split; [reflexivity|]. split; [done|]. split; [done|]. split; [|done].
    intros k Hk. lia.
  - cbn [while_alias_used]. rewrite bind_run, (get_comp_run _ _ _ HC).
    set (n := counter_get (_reference_names_counter C) prefix) in *.
    destruct (decide _) as [Hin|Hnin].
    + rewrite bind_run. unfold modify_comp at 1.
      rewrite bind_run, (get_comp_run _ _ _ HC).
      unfold put_comp. set (C' := set_counter _ C). set (w1 := mkWorld _ _ _ _ _ _).
      assert (HC' : comps w1 !! self = Some C')
        by (subst w1; cbn [comps]; by rewrite lookup_insert_eq).
      rewrite bind_run, (get_comp_run _ _ _ HC').
      assert (Hn : counter_get (_reference_names_counter C') prefix = S n).
      { subst C'. cbn. unfold counter_update, counter_get at 1.
        by rewrite lookup_insert_eq. }
      destruct (IH w1 C' (seen ∖ {[alias_of prefix n]}) HC') as (m & cnt & Hrun & Hm & Hfree & Hbetween & Hcnt).
      * intros k Hk Hkin. rewrite Hn in Hk. subst C'. cbn in Hkin.
        apply elem_of_difference. split; [apply Hseen; [lia|done]|].
        intros Heq%elem_of_singleton. apply (inj (alias_of prefix)) in Heq. lia.
      * assert (alias_of prefix n ∈ seen) by (apply Hseen; [lia|done]).
        rewrite size_difference by (by apply singleton_subseteq_l).
        rewrite size_singleton.
        assert (size seen ≠ 0); [|lia].
        intros Hz%size_empty_iff. rewrite Hz in H. by apply not_elem_of_empty in H.
      * rewrite Hn in Hrun, Hm, Hbetween.
        exists m, (<[prefix := m]> (_reference_names_counter C)).
        rewrite decide_False by lia. split; [|split; [lia|split; [done|split; [|done]]]].
        -- rewrite Hn, Hrun. f_equal. destruct (decide (m = S n)) as [->|Hne].
           ++ subst w1 C'. unfold counter_update. fold n. done.
           ++ subst w1 C' cnt. cbn. f_equal. rewrite insert_insert_eq. f_equal.
              cbn. unfold set_counter. cbn. f_equal. unfold counter_update.
              by rewrite insert_insert_eq.
        -- intros k Hk. destruct (decide (k = n)) as [->|]; [done|].
           apply Hbetween. lia.
    + eexists n, _. rewrite decide_True by done.
      split; [reflexivity|]. split; [done|]. split; [done|]. split; [|done].
      intros k Hk. lia.
Qed.

(** X10: the [while] loop of [_register_reference], started as the source
    starts it, returns the first candidate [prefix_m], counting up from the
    counter, that is not a used name; only the counter of the prefix
    changes, and it ends at [m]. *)
Theorem auto_alias_first_free (self : cid) (prefix : string) (w : World) (C : Component) :
  comps w !! self = Some C →
  let n := counter_get (_reference_names_counter C) prefix in
  ∃ m,
    while_alias_used (size (_reference_names_used C)) self prefix (alias_of prefix n) w
    = (Ok (alias_of prefix m),
       if decide (m = n) then w
       else mkWorld
              (<[self := set_counter (<[prefix := m]> (_reference_names_counter C)) C]>
                 (comps w))
              (refs w) (files w) (dirs w) (warnings w) (log w))
    ∧ n ≤ m
    ∧ (alias_of prefix m ∉ _reference_names_used C)
    ∧ (∀ k, n ≤ k < m → alias_of prefix k ∈ _reference_names_used C).
Proof.
  intros HC n. subst n.
  destruct (while_alias_used_first_free (size (_reference_names_used C)) self prefix w C
              (_reference_names_used C) HC) as (m & cnt & Hrun & Hm & Hfree & Hb & ->);
    [done|done|].
  exists m. by rewrite Hrun.
Qed.

Lemma auto_alias_first_free_witness :
  ∃ C, comps seeded_cell !! 0 = Some C
       ∧ let n := counter_get (_reference_names_counter C) "straight" in
         ∃ m,
           while_alias_used (size (_reference_names_used C)) 0 "straight"
             (alias_of "straight" n) seeded_cell
           = (Ok (alias_of "straight" m),
              if decide (m = n) then seeded_cell
              else mkWorld
                     (<[0 := set_counter (<["straight" := m]> (_reference_names_counter C))
                               C]> (comps seeded_cell))
                     (refs seeded_cell) (files seeded_cell) (dirs seeded_cell)
                     (warnings seeded_cell) (log seeded_cell))
           ∧ n ≤ m
           ∧ (alias_of "straight" m ∉ _reference_names_used C)
           ∧ (∀ k, n ≤ k < m → alias_of "straight" k ∈ _reference_names_used C).
Proof.
  assert (H : ∃ C, comps seeded_cell !! 0 = Some C)
    by (eexists; vm_compute; reflexivity).
  destruct H as [C HC]. exists C. split; [exact HC|].
  exact (auto_alias_first_free 0 "straight" seeded_cell C HC).
Defined.

(** ** More on the hasher *)

Lemma Sorted_weaken {A} (R1 R2 : relation A) (l : list A) :
  (∀ x y, R1 x y → R2 x y) → Sorted R1 l → Sorted R2 l.
Proof.
  intros HR. induction 1 as [|x l Hl IH Hhd]; constructor; [done|].
  destruct Hhd; constructor; auto.
Qed.

(** X11: the layers are folded in ascending order of (datatype, layer), each
    key of the dict once. *)
Theorem sorted_layers_by_datatype (d : PolygonsBySpec) :
  Sorted datatype_then_layer (sorted_layers d) ∧ sorted_layers d ≡ₚ d.*1.
Proof.
  split; [|apply stable_sort_perm].
  eapply Sorted_weaken; [|apply stable_sort_sorted, lexsort_leb_total].
  intros [l1 d1] [l2 d2]. unfold lexsort_leb, datatype_then_layer. cbn. lia.
Qed.

Lemma dict_get_elem (d : PolygonsBySpec) (k : Layer) :
  k ∈ d.*1 → ∃ e, e ∈ d ∧ e.1 = k ∧ dict_get d k = e.2.
Proof.
  induction d as [|e d IH]; intros Hk; [by apply elem_of_nil in Hk|].
  rewrite dict_get_cons. destruct (decide (e.1 = k)) as [He|He].
  - exists e. split; [apply list_elem_of_here|done].
  - cbn in Hk. apply elem_of_cons in Hk as [Hk|Hk]; [congruence|].
    destruct (IH Hk) as (e' & He' & Hk' & Hget). exists e'.
    split; [by apply list_elem_of_further|done].
Qed.

(** X12: a precision that is zero or negative makes [hash_geometry] raise the
    [ValueError] of [math.log10], whatever the geometry, as soon as there is
    a polygon to round. *)
Theorem hash_geometry_bad_precision (d : PolygonsBySpec) (precision : Q) :
  d ≠ [] → Forall (λ e, e.2 ≠ []) d → (precision <= 0)%Q →
  hash_geometry d precision = Raise ValueError_math_domain.
Proof.
  intros Hd Hne Hp. unfold hash_geometry, hash_input.
  destruct (sorted_layers d) as [|k ks] eqn:Hs.
  { pose proof (stable_sort_perm lexsort_leb (d.*1)) as H.
    fold (sorted_layers d) in H. rewrite Hs in H.
    apply Permutation_nil_l in H. destruct d; [done|discriminate]. }
  assert (Hk : k ∈ d.*1).
  { rewrite <- (stable_sort_perm lexsort_leb (d.*1)). fold (sorted_layers d).
    rewrite Hs. apply list_elem_of_here. }
  destruct (dict_get_elem d k Hk) as (e & He & _ & Hget).
  assert (Hup : layer_update d precision k = Raise ValueError_math_domain).
  { unfold layer_update. rewrite mapM_result_rnd, Hget.
    apply Qle_bool_iff in Hp. rewrite Hp.
    rewrite Forall_forall in Hne. specialize (Hne e He). by destruct (e.2). }
  destruct d; [done|]. cbn [mapM_result]. by rewrite Hup.
Qed.

Lemma hash_geometry_bad_precision_witness :
  jitter_cell ≠ [] ∧ Forall (λ e, e.2 ≠ []) jitter_cell ∧ (0 <= 0)%Q
  ∧ hash_geometry jitter_cell 0 = Raise ValueError_math_domain.
Proof.
  assert (H1 : jitter_cell ≠ []) by discriminate.
  assert (H2 : Forall (λ e : Layer * list (list Coordinate), e.2 ≠ []) jitter_cell)
    by (repeat constructor; discriminate).
  assert (H3 : (0 <= 0)%Q) by apply Qle_refl.
  split; [exact H1|]. split; [exact H2|]. split; [exact H3|].
  exact (hash_geometry_bad_precision jitter_cell 0 H1 H2 H3).
Defined.

Local Transparent Sha1.sha1 Sha1.hex.

Lemma be_bytes_length (n : nat) (x : Z) : length (Sha1.be_bytes n x) = n.
Proof.
  revert x. induction n as [|n IH]; intros x; [done|].
  cbn [Sha1.be_bytes]. rewrite length_app, IH. cbn. lia.
Qed.

Lemma sha1_length (msg : list byte) : length (Sha1.sha1 msg) = 20.
Proof.
  unfold Sha1.sha1. cbv zeta.
  destruct (foldl Sha1.compress Sha1.init _) as [[[[h0 h1] h2] h3] h4].
  unfold Sha1.digest_of_state. by rewrite !length_app, !be_bytes_length.
Qed.

Lemma hex_length (bs : list byte) : String.length (Sha1.hex bs) = 2 * length bs.
Proof. induction bs as [|b bs IH]; [done|]. cbn [Sha1.hex String.length length]. lia. Qed.

Local Opaque Sha1.sha1 Sha1.hex.

Lemma mapM_result_all_ok {A B} (f : A → result B) (l : list A) :
  (∀ x, is_ok (f x) = true) → is_ok (mapM_result f l) = true.
Proof.
  intros Hf. induction l as [|x l IH]; [done|]. cbn [mapM_result].
  specialize (Hf x). destruct (f x); [|done]. cbn.
  by destruct (mapM_result f l).
Qed.

(** X13: on geometry with at least one layer and a positive precision
    [hash_geometry] returns, and what it returns has the 40 characters of a
    SHA-1 hex digest. *)
Theorem hash_geometry_returns_digest (d : PolygonsBySpec) (precision : Q) :
  d ≠ [] → (0 < precision)%Q →
  ∃ s, hash_geometry d precision = Ok s ∧ String.length s = 40.
Proof.
  intros Hd Hp. unfold hash_geometry, hash_input.
  assert (Hb : Qle_bool precision 0 = false).
  { destruct (Qle_bool precision 0) eqn:Hb; [|done].
    apply Qle_bool_iff in Hb. by apply Qle_not_lt in Hb. }
  pose proof (mapM_result_all_ok (layer_update d precision) (sorted_layers d)) as Hok.
  destruct (mapM_result _ _) as [bss|e].
  - destruct d; [done|]. eexists. split; [reflexivity|].
    by rewrite hex_length, sha1_length.
  - exfalso. enough (false = true) by done. apply Hok. intros k.
    unfold layer_update. by rewrite mapM_result_rnd, Hb.
Qed.

Lemma hash_geometry_returns_digest_witness :
  two_layer_cell ≠ [] ∧ (0 < default_precision)%Q
  ∧ ∃ s, hash_geometry two_layer_cell default_precision = Ok s ∧ String.length s = 40.
Proof.
  assert (H1 : two_layer_cell ≠ []) by discriminate.
  assert (H2 : (0 < default_precision)%Q) by reflexivity.
  split; [exact H1|]. split; [exact H2|].
  exact (hash_geometry_returns_digest two_layer_cell default_precision H1 H2).
Defined.

(** ** More on the export *)

Lemma mapM_keeps_comps {A} (f : cid → M A) (g : cid → A) (cells : list cid) (w : World) :
  (∀ c, c ∈ cells → f c w = (Ok (g c), w)) →
  mapM f cells w = (Ok (g <$> cells), w).
Proof.
  induction cells as [|c cells IH]; intros Hf; [done|].
  cbn [mapM]. rewrite bind_run, Hf by apply list_elem_of_here.
  rewrite bind_run, IH; [done|]. intros c' Hc'. apply Hf. by apply list_elem_of_further.
Qed.

Lemma cell_name_run (w : World) (c : cid) :
  is_Some (comps w !! c) → cell_name c w = (Ok (name_of w c), w).
Proof.
  intros [C HC]. unfold cell_name, name_of. rewrite bind_run, (get_comp_run _ _ _ HC).
  by rewrite HC.
Qed.

Lemma mapM_cell_name (cells : list cid) (w : World) :
  (∀ c, c ∈ cells → is_Some (comps w !! c)) →
  mapM cell_name cells w = (Ok (name_of w <$> cells), w).
Proof. intros H. apply mapM_keeps_comps. intros c Hc. by apply cell_name_run, H. Qed.

Lemma mapM_named (cells : list cid) (w : World) :
  (∀ c, c ∈ cells → is_Some (comps w !! c)) →
  mapM (λ c, n ← cell_name c; mret (n, c)) cells w
  = (Ok ((λ c, (name_of w c, c)) <$> cells), w).
Proof.
  intros H. apply mapM_keeps_comps. intros c Hc.
  by rewrite bind_run, cell_name_run by (by apply H).
Qed.

Lemma remove_dups_length_le `{EqDecision A} (l : list A) :
  length (remove_dups l) ≤ length l.
Proof.
  induction l as [|x l IH]; [done|]. cbn. destruct (decide_rel _ _ _); cbn; lia.
Qed.

Lemma remove_dups_length_NoDup `{EqDecision A} (l : list A) :
  length (remove_dups l) = length l ↔ NoDup l.
Proof.
  induction l as [|x l IH]; [split; [constructor|done]|].
  cbn. pose proof (remove_dups_length_le l). destruct (decide_rel _ _ _) as [Hin|Hin]; cbn.
  - split; [lia|]. intros [? _]%NoDup_cons. done.
  - rewrite NoDup_cons. split.
    + intros [= Hl]. split; [done|]. by apply IH.
    + intros [_ Hl]. f_equal. by apply IH.
Qed.

Lemma leb_name_total (w : World) (x y : string * cid) :
  String.leb x.1 y.1 = true ∨ String.leb y.1 x.1 = true.
Proof. apply String.leb_total. Qed.

Lemma write_gds_finish_run (env : Env) (self : cid) (C : Component) (gdspath : string)
    (unit precision : Q) (timestamp : option Z) (logging : bool) (cells : list cid)
    (w : World) :
  comps w !! self = Some C →
  (∀ c, c ∈ cells → is_Some (comps w !! c)) →
  lib_write_gds_ok env = true →
  write_gds_finish env self C gdspath unit precision timestamp logging cells w
  = (Ok gdspath,
     mkWorld (<[self := set_path (Some gdspath) C]> (comps w)) (refs w)
       (<[gdspath := Gds (mkGdsFile (self :: written_order w cells) unit precision
                            timestamp)]> (files w))
       (dirs w)
       (warnings w
        ++ unnamed_warning (name C) (name_of w <$> self :: written_order w cells))
       (if logging then log w ++ ["Write GDS to " +:+ gdspath] else log w)).
Proof.
  intros HC Hcells Hok. unfold write_gds_finish.
  rewrite bind_run, mapM_named by done. fold (written_order w cells).
  rewrite bind_run, mapM_cell_name.
  2:{ intros c [->|Hc]%elem_of_cons; [by eexists|].
      apply Hcells. unfold written_order in Hc.
      apply list_elem_of_fmap in Hc as ([n c'] & -> & Hc).
      rewrite stable_sort_perm in Hc.
      apply list_elem_of_fmap in Hc as (c'' & [= -> ->] & Hc). done. }
  rewrite Hok. unfold unnamed_warning.
  destruct (filter _ _) as [|n ns]; unfold_M; rewrite HC;
    destruct logging; cbn; rewrite ?app_nil_r; reflexivity.
Qed.

Lemma write_gds_unfold (env : Env) (self : cid) (cells : list cid)
    (gdspath gdsdir : option string) (unit precision : Q) (timestamp : option Z)
    (logging : bool) (on_duplicate_cell : option string) :
  write_gds env self cells gdspath gdsdir unit precision timestamp logging
    on_duplicate_cell
  = (C ← get_comp self;
     mkdir (path_parent (gds_target env (name C) gdspath gdsdir));;
     cell_names ← mapM cell_name cells;
     cells ← resolve_duplicates (name C) cells cell_names on_duplicate_cell;
     write_gds_finish env self C (gds_target env (name C) gdspath gdsdir) unit precision
       timestamp logging cells).
Proof. reflexivity. Qed.

Lemma Sorted_fmap_inv {A B} (R : relation B) (f : A → B) (l : list A) :
  Sorted R (f <$> l) → Sorted (λ a b, R (f a) (f b)) l.
Proof.
  induction l as [|a l IH]; [constructor|]. cbn. intros [Hs Hhd]%Sorted_inv.
  constructor; [by apply IH|]. destruct l; constructor. by inversion Hhd.
Qed.

Lemma written_order_perm (w : World) (cells : list cid) : written_order w cells ≡ₚ cells.
Proof.
  unfold written_order. rewrite stable_sort_perm, <- list_fmap_compose.
  induction cells as [|c cells IH]; [done|]. cbn. by f_equiv.
Qed.

Lemma written_order_sorted (w : World) (cells : list cid) :
  Sorted (λ a b, String.leb (name_of w a) (name_of w b) = true) (written_order w cells).
Proof.
  unfold written_order.
  set (g := λ c : cid, (name_of w c, c)).
  set (S := stable_sort _ _).
  assert (HS : Forall (λ p, p = g p.2) S).
  { subst S. rewrite stable_sort_perm. apply Forall_fmap, Forall_true. by intros c. }
  assert (Heq : S = g <$> S.*2).
  { clear -HS. induction HS as [|p l Hp _ IH]; [done|]. cbn. by rewrite <- Hp, <- IH. }
  apply (Sorted_fmap_inv (λ x y : string * cid, String.leb x.1 y.1 = true) g).
  rewrite <- Heq. subst S. apply stable_sort_sorted. intros x y. apply String.leb_total.
Qed.

Lemma name_of_mkdir (d : string) (w : World) (c : cid) :
  name_of (mkdir d w).2 c = name_of w c.
Proof. reflexivity. Qed.

(** X14: when no two dependencies share a name, [write_gds] writes the top
    cell followed by the dependencies in ascending order of their names,
    records the path on the top cell and makes the directory; the policy
    argument is not looked at, not even to check it is a known one. *)
Theorem write_gds_distinct_names (env : Env) (self : cid) (cells : list cid)
    (gdspath gdsdir : option string) (unit precision : Q) (timestamp : option Z)
    (logging : bool) (on_duplicate_cell : option string) (w : World) (C : Component) :
  comps w !! self = Some C →
  (∀ c, c ∈ cells → is_Some (comps w !! c)) →
  NoDup (name_of w <$> cells) →
  lib_write_gds_ok env = true →
  let target := gds_target env (name C) gdspath gdsdir in
  ∃ w',
    write_gds env self cells gdspath gdsdir unit precision timestamp logging
      on_duplicate_cell w = (Ok target, w')
    ∧ files w'
      = <[target := Gds (mkGdsFile (self :: written_order w cells) unit precision
                           timestamp)]> (files w)
    ∧ written_order w cells ≡ₚ cells
    ∧ Sorted (λ a b, String.leb (name_of w a) (name_of w b) = true)
        (written_order w cells)
    ∧ comps w' = <[self := set_path (Some target) C]> (comps w)
    ∧ dirs w' = {[path_parent target]} ∪ dirs w.
Proof.
  intros HC Hcells Hnd Hok target. rewrite write_gds_unfold.
  rewrite bind_run, (get_comp_run _ _ _ HC). fold target.
  rewrite bind_run. unfold mkdir at 1. set (w0 := mkWorld _ _ _ _ _ _).
  rewrite bind_run, (mapM_cell_name cells w0) by done.
  change (name_of w0) with (name_of w).
  rewrite bind_run. unfold resolve_duplicates.
  rewrite decide_False.
  2:{ intros Hne. apply Hne. symmetry. by apply remove_dups_length_NoDup. }
  cbn [mret M_ret].
  rewrite (write_gds_finish_run env self C target _ _ _ _ cells w0 HC Hcells Hok).
  eexists. split; [reflexivity|]. cbn [files comps dirs].
  change (written_order w0 cells) with (written_order w cells).
  split; [done|]. split; [|split; [|done]].
  - apply written_order_perm.
  - apply written_order_sorted.
Qed.

Lemma list_remove_perm `{EqDecision A} (x : A) (l : list A) :
  x ∈ l → ∃ l', list_remove x l = Some l' ∧ l ≡ₚ x :: l'.
Proof.
  induction l as [|y l IH]; intros Hx; [by apply elem_of_nil in Hx|].
  cbn. destruct (decide (y = x)) as [->|Hne]; [by eexists|].
  apply elem_of_cons in Hx as [?|Hx]; [congruence|].
  destruct (IH Hx) as (l' & -> & Hp). eexists. split; [done|].
  cbn. rewrite Hp. apply Permutation_swap.
Qed.

Lemma foldl_remove_first_perm (u l : list string) :
  NoDup u → (∀ x, x ∈ u → x ∈ l) →
  l ≡ₚ u ++ foldl (λ l n, remove_first n l) l u.
Proof.
  revert l. induction u as [|x u IH]; intros l Hnd Hsub; [done|].
  apply NoDup_cons in Hnd as [Hx Hnd]. cbn [foldl].
  destruct (list_remove_perm x l) as (l' & Hl' & Hp); [apply Hsub, list_elem_of_here|].
  unfold remove_first at 2. rewrite Hl'. cbn [default app].
  rewrite Hp at 1. f_equiv. apply IH; [done|].
  intros y Hy. assert (y ∈ l) as Hyl by (apply Hsub; by apply list_elem_of_further).
  rewrite Hp in Hyl. apply elem_of_cons in Hyl as [->|?]; [done|done].
Qed.

(** X15: when two dependencies share a name and the policy is "error",
    [write_gds] raises with the surplus names, one for each extra cell of a
    name, after it made the directory and before it writes a file, warns or
    touches a cell. *)
Theorem write_gds_error_policy (env : Env) (self : cid) (cells : list cid)
    (gdspath gdsdir : option string) (unit precision : Q) (timestamp : option Z)
    (logging : bool) (w : World) (C : Component) :
  comps w !! self = Some C →
  (∀ c, c ∈ cells → is_Some (comps w !! c)) →
  ¬ NoDup (name_of w <$> cells) →
  ∃ duplicated,
    write_gds env self cells gdspath gdsdir unit precision timestamp logging
      (Some "error") w
    = (Raise (ValueError_duplicated_cells (name C) duplicated),
       mkWorld (comps w) (refs w) (files w)
         ({[path_parent (gds_target env (name C) gdspath gdsdir)]} ∪ dirs w)
         (warnings w) (log w))
    ∧ name_of w <$> cells ≡ₚ remove_dups (name_of w <$> cells) ++ duplicated
    ∧ duplicated ≠ [].
Proof.
  intros HC Hcells Hdup. rewrite write_gds_unfold.
  rewrite bind_run, (get_comp_run _ _ _ HC).
  rewrite bind_run. unfold mkdir at 1. set (w0 := mkWorld _ _ _ _ _ _).
  rewrite bind_run, (mapM_cell_name cells w0) by done.
  change (name_of w0) with (name_of w). set (names := name_of w <$> cells) in *.
  rewrite bind_run. unfold resolve_duplicates.
  rewrite decide_True.
  2:{ intros Heq. apply Hdup. by apply remove_dups_length_NoDup. }
  cbn. eexists. split; [reflexivity|].
  assert (Hp : names ≡ₚ remove_dups names
                        ++ foldl (λ l n, remove_first n l) names (remove_dups names)).
  { apply foldl_remove_first_perm; [apply NoDup_remove_dups|].
    intros x. by rewrite elem_of_remove_dups. }
  split; [exact Hp|]. intros Hnil. rewrite Hnil, app_nil_r in Hp.
  apply Hdup. rewrite Hp. apply NoDup_remove_dups.
Qed.

Lemma zip_fmap_self {A B} (f : A → B) (l : list A) :
  zip (f <$> l) l = (λ x, (f x, x)) <$> l.
Proof. induction l as [|x l IH]; [done|]. cbn. by rewrite IH. Qed.

Lemma dict_by_name_spec (named acc : list (string * cid)) :
  NoDup acc.*1 →
  NoDup (dict_by_name named acc).*1
  ∧ (∀ n, n ∈ (dict_by_name named acc).*1 ↔ n ∈ acc.*1 ∨ n ∈ named.*1)
  ∧ (∀ e, e ∈ dict_by_name named acc → e ∈ acc ∨ e ∈ named).
Proof.
  revert acc. induction named as [|[n c] named IH]; intros acc Hacc.
  - cbn. split; [done|]. split; [|by left]. intros n. split; [by left|].
    intros [?|H]; [done|]. by apply elem_of_nil in H.
  - cbn [dict_by_name]. destruct (decide (n ∈ acc.*1)) as [Hin|Hin].
    + set (acc' := (λ e : string * cid, if decide (e.1 = n) then (n, c) else e) <$> acc).
      assert (Hk : acc'.*1 = acc.*1).
      { subst acc'. rewrite <- list_fmap_compose. apply list_fmap_ext.
        intros i e _. cbn. by destruct (decide (e.1 = n)). }
      destruct (IH acc') as (H1 & H2 & H3); [by rewrite Hk|].
      split; [done|]. split.
      * intros m. rewrite H2, Hk. cbn. rewrite elem_of_cons.
        split; [tauto|]. intros [?|[->|?]]; auto.
      * intros e He. apply H3 in He as [He|He]; [|right; by apply list_elem_of_further].
        subst acc'. apply list_elem_of_fmap in He as (e' & -> & He').
        destruct (decide (e'.1 = n)); [right; apply list_elem_of_here|by left].
    + destruct (IH (acc ++ [(n, c)])) as (H1 & H2 & H3).
      { rewrite fmap_app. apply NoDup_app. split; [done|].
        split; [|apply NoDup_singleton].
        intros x Hx Hx'%list_elem_of_singleton. cbn in Hx'. by subst. }
      split; [done|]. split.
      * intros m. rewrite H2, fmap_app, elem_of_app. cbn.
        rewrite list_elem_of_singleton, elem_of_cons. tauto.
      * intros e He. apply H3 in He as [He|He]; [|right; by apply list_elem_of_further].
        apply elem_of_app in He as [He|He%list_elem_of_singleton]; [by left|].
        subst. right. apply list_elem_of_here.
Qed.

(** X16: when dependencies share names and the policy is "warn" or
    "overwrite", [write_gds] goes on with one dependency for each name: the
    dependencies it writes are among the given ones, carry pairwise distinct
    names, and every name of a dependency is the name of a written one.
    Only "warn" adds the warning about duplicates. *)
Theorem write_gds_resolves_duplicates (env : Env) (self : cid) (cells : list cid)
    (gdspath gdsdir : option string) (unit precision : Q) (timestamp : option Z)
    (logging : bool) (policy : string) (w : World) (C : Component) :
  comps w !! self = Some C →
  (∀ c, c ∈ cells → is_Some (comps w !! c)) →
  ¬ NoDup (name_of w <$> cells) →
  policy = "warn" ∨ policy = "overwrite" →
  lib_write_gds_ok env = true →
  let target := gds_target env (name C) gdspath gdsdir in
  ∃ written w',
    write_gds env self cells gdspath gdsdir unit precision timestamp logging
      (Some policy) w = (Ok target, w')
    ∧ files w' = <[target := Gds (mkGdsFile (self :: written) unit precision timestamp)]>
                   (files w)
    ∧ NoDup (name_of w <$> written)
    ∧ (∀ c, c ∈ written → c ∈ cells)
    ∧ (∀ c, c ∈ cells → name_of w c ∈ name_of w <$> written)
    ∧ warnings w'
      = warnings w
        ++ (if String.eqb policy "warn" then ["Duplicated cell names in " +:+ name C]
            else [])
        ++ unnamed_warning (name C) (name_of w <$> self :: written).
Proof.
  intros HC Hcells Hdup Hpolicy Hok target. rewrite write_gds_unfold.
  rewrite bind_run, (get_comp_run _ _ _ HC). fold target.
  rewrite bind_run. unfold mkdir at 1. set (w0 := mkWorld _ _ _ _ _ _).
  rewrite bind_run, (mapM_cell_name cells w0) by done.
  change (name_of w0) with (name_of w). set (names := name_of w <$> cells) in *.
  rewrite bind_run. unfold resolve_duplicates.
  rewrite decide_True.
  2:{ intros Heq. apply Hdup. by apply remove_dups_length_NoDup. }
  cbv zeta. set (ds := (dict_by_name (zip names cells) []).*2).
  destruct (dict_by_name_spec (zip names cells) []) as (Hnd & Hkeys & Helem);
    [apply NoDup_nil_2|].
  subst names. rewrite zip_fmap_self in Hkeys, Helem.
  assert (Hds : ∀ c, c ∈ ds → c ∈ cells).
  { intros c Hc. subst ds. apply list_elem_of_fmap in Hc as (e & -> & He).
    rewrite zip_fmap_self in He.
    apply Helem in He as [He|He]; [by apply elem_of_nil in He|].
    by apply list_elem_of_fmap in He as (c' & -> & Hc'). }
  assert (Hnames : name_of w <$> ds = (dict_by_name (zip (name_of w <$> cells) cells) []).*1).
  { subst ds. rewrite <- list_fmap_compose. apply list_fmap_ext.
    intros i e He%list_elem_of_lookup_2. rewrite zip_fmap_self in He.
    apply Helem in He as [He|He]; [by apply elem_of_nil in He|].
    by apply list_elem_of_fmap in He as (c' & -> & Hc'). }
  assert (Hcover : ∀ c, c ∈ cells → name_of w c ∈ name_of w <$> ds).
  { intros c Hc. rewrite Hnames, zip_fmap_self. apply Hkeys. right.
    rewrite <- list_fmap_compose. apply list_elem_of_fmap. by exists c. }
  assert (Hnd' : NoDup (name_of w <$> ds)) by (by rewrite Hnames).
  assert (Hperm : written_order w ds ≡ₚ ds) by apply written_order_perm.
  exists (written_order w ds).
  assert (Hfin : ∀ w1, comps w1 = comps w →
            write_gds_finish env self C target unit precision timestamp logging ds w1
            = (Ok target,
               mkWorld (<[self := set_path (Some target) C]> (comps w1)) (refs w1)
                 (<[target := Gds (mkGdsFile (self :: written_order w ds) unit precision
                                      timestamp)]> (files w1))
                 (dirs w1)
                 (warnings w1
                  ++ unnamed_warning (name C) (name_of w <$> self :: written_order w ds))
                 (if logging then log w1 ++ ["Write GDS to " +:+ target] else log w1))).
  { intros w1 Hw1.
    assert (Hn : name_of w1 = name_of w) by (unfold name_of; by rewrite Hw1).
    rewrite (write_gds_finish_run env self C target _ _ _ _ ds w1);
      [|by rewrite Hw1|intros c Hc; rewrite Hw1; by apply Hcells, Hds|done].
    unfold written_order. by rewrite Hn. }
  destruct Hpolicy as [-> | ->]; cbn [String.eqb Ascii.eqb Bool.eqb orb].
  - rewrite bind_run. unfold warn at 1. cbn [mret M_ret].
    rewrite Hfin by done. eexists. split; [reflexivity|]. cbn [files warnings].
    split; [done|]. split; [by rewrite Hperm|]. split; [intros c; rewrite Hperm; apply Hds|].
    split; [intros c Hc; rewrite Hperm; by apply Hcover|]. by rewrite <- app_assoc.
  - rewrite bind_run. cbn [mret M_ret].
    rewrite Hfin by done. eexists. split; [reflexivity|]. cbn [files warnings].
    split; [done|]. split; [by rewrite Hperm|]. split; [intros c; rewrite Hperm; apply Hds|].
    split; [intros c Hc; rewrite Hperm; by apply Hcover|]. done.
Qed.

(** X17: a policy other than the four known ones is refused, but only when
    some dependencies do share a name. *)
Theorem write_gds_unknown_policy (env : Env) (self : cid) (cells : list cid)
    (gdspath gdsdir : option string) (unit precision : Q) (timestamp : option Z)
    (logging : bool) (policy : string) (w : World) (C : Component) :
  comps w !! self = Some C →
  (∀ c, c ∈ cells → is_Some (comps w !! c)) →
  ¬ NoDup (name_of w <$> cells) →
  policy ≠ "error" → policy ≠ "warn" → policy ≠ "overwrite" →
  write_gds env self cells gdspath gdsdir unit precision timestamp logging
    (Some policy) w
  = (Raise (ValueError_on_duplicate_cell policy),
     mkWorld (comps w) (refs w) (files w)
       ({[path_parent (gds_target env (name C) gdspath gdsdir)]} ∪ dirs w)
       (warnings w) (log w)).
Proof.
  intros HC Hcells Hdup H1 H2 H3. rewrite write_gds_unfold.
  rewrite bind_run, (get_comp_run _ _ _ HC).
  rewrite bind_run. unfold mkdir at 1. set (w0 := mkWorld _ _ _ _ _ _).
  rewrite bind_run, (mapM_cell_name cells w0) by done.
  change (name_of w0) with (name_of w).
  rewrite bind_run. unfold resolve_duplicates.
  rewrite decide_True.
  2:{ intros Heq. apply Hdup. by apply remove_dups_length_NoDup. }
  cbv zeta. apply String.eqb_neq in H1, H2, H3. rewrite H1, H2, H3. reflexivity.
Qed.

Lemma write_gds_distinct_names_witness :
  comps two_cells !! 0 = Some (init_component "top")
  ∧ (∀ c, c ∈ [1] → is_Some (comps two_cells !! c))
  ∧ NoDup (name_of two_cells <$> [1])
  ∧ lib_write_gds_ok ok_env = true
  ∧ let target := gds_target ok_env (name (init_component "top")) None (Some "build") in
    ∃ w',
      write_gds ok_env 0 [1] None (Some "build") (1 # 1000000) (1 # 1000000000) None true
        (Some "no such policy") two_cells = (Ok target, w')
      ∧ files w'
        = <[target := Gds (mkGdsFile (0 :: written_order two_cells [1]) (1 # 1000000)
                             (1 # 1000000000) None)]> (files two_cells)
      ∧ written_order two_cells [1] ≡ₚ [1]
      ∧ Sorted (λ a b, String.leb (name_of two_cells a) (name_of two_cells b) = true)
          (written_order two_cells [1])
      ∧ comps w' = <[0 := set_path (Some target) (init_component "top")]> (comps two_cells)
      ∧ dirs w' = {[path_parent target]} ∪ dirs two_cells.
Proof.
  assert (H1 : comps two_cells !! 0 = Some (init_component "top")) by reflexivity.
  assert (H2 : ∀ c, c ∈ [1] → is_Some (comps two_cells !! c)).
  { intros c Hc. apply list_elem_of_singleton in Hc as ->. by eexists. }
  assert (H3 : NoDup (name_of two_cells <$> [1])) by apply NoDup_singleton.
  split; [exact H1|]. split; [exact H2|]. split; [exact H3|].
  split; [reflexivity|].
  exact (write_gds_distinct_names ok_env 0 [1] None (Some "build") _ _ None true
           (Some "no such policy") two_cells _ H1 H2 H3 eq_refl).
Defined.

Lemma write_gds_error_policy_witness :
  comps same_name_world !! 0 = Some (init_component "A")
  ∧ (∀ c, c ∈ [1; 2] → is_Some (comps same_name_world !! c))
  ∧ ¬ NoDup (name_of same_name_world <$> [1; 2])
  ∧ ∃ duplicated,
      write_gds ok_env 0 [1; 2] (Some "out/A.gds") None (1 # 1000000) (1 # 1000000000)
        None true (Some "error") same_name_world
      = (Raise (ValueError_duplicated_cells (name (init_component "A")) duplicated),
         mkWorld (comps same_name_world) (refs same_name_world) (files same_name_world)
           ({[path_parent (gds_target ok_env (name (init_component "A"))
                             (Some "out/A.gds") None)]} ∪ dirs same_name_world)
           (warnings same_name_world) (log same_name_world))
      ∧ name_of same_name_world <$> [1; 2]
        ≡ₚ remove_dups (name_of same_name_world <$> [1; 2]) ++ duplicated
      ∧ duplicated ≠ [].
Proof.
  assert (H1 : comps same_name_world !! 0 = Some (init_component "A")) by reflexivity.
  assert (H2 : ∀ c, c ∈ [1; 2] → is_Some (comps same_name_world !! c)).
  { intros c Hc. apply elem_of_cons in Hc as [->|Hc]; [by eexists|].
    apply list_elem_of_singleton in Hc as ->. by eexists. }
  assert (H3 : ¬ NoDup (name_of same_name_world <$> [1; 2])).
  { change (¬ NoDup ["A"; "A"]). intros [H _]%NoDup_cons. apply H, list_elem_of_here. }
  split; [exact H1|]. split; [exact H2|]. split; [exact H3|].
  exact (write_gds_error_policy ok_env 0 [1; 2] (Some "out/A.gds") None _ _ None true
           same_name_world _ H1 H2 H3).
Defined.

Lemma write_gds_resolves_duplicates_witness :
  comps twin_world !! 0 = Some (init_component "top")
  ∧ (∀ c, c ∈ [1; 2] → is_Some (comps twin_world !! c))
  ∧ ¬ NoDup (name_of twin_world <$> [1; 2])
  ∧ ("overwrite" = "warn" ∨ "overwrite" = "overwrite")
  ∧ lib_write_gds_ok ok_env = true
  ∧ let target := gds_target ok_env (name (init_component "top")) (Some "out/top.gds")
                    None in
    ∃ written w',
      write_gds ok_env 0 [1; 2] (Some "out/top.gds") None (1 # 1000000)
        (1 # 1000000000) None true (Some "overwrite") twin_world = (Ok target, w')
      ∧ files w'
        = <[target := Gds (mkGdsFile (0 :: written) (1 # 1000000) (1 # 1000000000) None)]>
            (files twin_world)
      ∧ NoDup (name_of twin_world <$> written)
      ∧ (∀ c, c ∈ written → c ∈ [1; 2])
      ∧ (∀ c, c ∈ [1; 2] → name_of twin_world c ∈ name_of twin_world <$> written)
      ∧ warnings w'
        = warnings twin_world
          ++ (if String.eqb "overwrite" "warn"
              then ["Duplicated cell names in " +:+ name (init_component "top")]
              else [])
          ++ unnamed_warning (name (init_component "top"))
               (name_of twin_world <$> 0 :: written).
Proof.
  assert (H1 : comps twin_world !! 0 = Some (init_component "top")) by reflexivity.
  assert (H2 : ∀ c, c ∈ [1; 2] → is_Some (comps twin_world !! c)).
  { intros c Hc. apply elem_of_cons in Hc as [->|Hc]; [by eexists|].
    apply list_elem_of_singleton in Hc as ->. by eexists. }
  assert (H3 : ¬ NoDup (name_of twin_world <$> [1; 2])).
  { change (¬ NoDup ["A"; "A"]). intros [H _]%NoDup_cons. apply H, list_elem_of_here. }
  assert (H4 : "overwrite" = "warn" ∨ "overwrite" = "overwrite") by (by right).
  split; [exact H1|]. split; [exact H2|]. split; [exact H3|].
  split; [exact H4|]. split; [reflexivity|].
  exact (write_gds_resolves_duplicates ok_env 0 [1; 2] (Some "out/top.gds") None _ _ None
           true "overwrite" twin_world _ H1 H2 H3 H4 eq_refl).
Defined.

Lemma write_gds_unknown_policy_witness :
  comps twin_world !! 0 = Some (init_component "top")
  ∧ (∀ c, c ∈ [1; 2] → is_Some (comps twin_world !! c))
  ∧ ¬ NoDup (name_of twin_world <$> [1; 2])
  ∧ "skip" ≠ "error" ∧ "skip" ≠ "warn" ∧ "skip" ≠ "overwrite"
  ∧ write_gds ok_env 0 [1; 2] (Some "out/top.gds") None (1 # 1000000) (1 # 1000000000)
      None true (Some "skip") twin_world
    = (Raise (ValueError_on_duplicate_cell "skip"),
       mkWorld (comps twin_world) (refs twin_world) (files twin_world)
         ({[path_parent (gds_target ok_env (name (init_component "top"))
                           (Some "out/top.gds") None)]} ∪ dirs twin_world)
         (warnings twin_world) (log twin_world)).
Proof.
  assert (H1 : comps twin_world !! 0 = Some (init_component "top")) by reflexivity.
  assert (H2 : ∀ c, c ∈ [1; 2] → is_Some (comps twin_world !! c)).
  { intros c Hc. apply elem_of_cons in Hc as [->|Hc]; [by eexists|].
    apply list_elem_of_singleton in Hc as ->. by eexists. }
  assert (H3 : ¬ NoDup (name_of twin_world <$> [1; 2])).
  { change (¬ NoDup ["A"; "A"]). intros [H _]%NoDup_cons. apply H, list_elem_of_here. }
  assert (H4 : "skip" ≠ "error") by discriminate.
  assert (H5 : "skip" ≠ "warn") by discriminate.
  assert (H6 : "skip" ≠ "overwrite") by discriminate.
  split; [exact H1|]. split; [exact H2|]. split; [exact H3|].
  split; [exact H4|]. split; [exact H5|]. split; [exact H6|].
  exact (write_gds_unknown_policy ok_env 0 [1; 2] (Some "out/top.gds") None _ _ None true
           "skip" twin_world _ H1 H2 H3 H4 H5 H6).
Defined.

(** ** File names *)

Lemma str_append_cons (a : ascii) (s t : string) :
  String a s +:+ t = String a (s +:+ t).
Proof. reflexivity. Qed.

Lemma str_append_assoc (s t u : string) : (s +:+ t) +:+ u = s +:+ t +:+ u.
Proof. induction s as [|a s IH]; [done|]. by rewrite !str_append_cons, IH. Qed.

Lemma str_append_empty_r (s : string) : s +:+ "" = s.
Proof. induction s as [|a s IH]; [done|]. by rewrite str_append_cons, IH. Qed.

Lemma rev_app_app (s acc : string) : String.rev_app s acc = String.rev s +:+ acc.
Proof.
  unfold String.rev. revert acc. induction s as [|a s IH]; intros acc; [done|].
  cbn [String.rev_app]. rewrite IH, (IH (String a "")).
  by rewrite str_append_assoc.
Qed.

Lemma rev_append (s t : string) : String.rev (s +:+ t) = String.rev t +:+ String.rev s.
Proof.
  induction s as [|a s IH].
  - change ("" +:+ t) with t. change (String.rev "") with "". by rewrite str_append_empty_r.
  - rewrite str_append_cons. unfold String.rev at 1 3. cbn [String.rev_app].
    rewrite !rev_app_app, IH. by rewrite str_append_assoc.
Qed.

Lemma prefix_append (p s : string) : String.prefix p (p +:+ s) = true.
Proof.
  induction p as [|a p IH]; [by destruct s|].
  rewrite str_append_cons. cbn [String.prefix]. by destruct (ascii_dec a a).
Qed.

Lemma endswith_append (s suf : string) : endswith (s +:+ suf) suf = true.
Proof. unfold endswith. rewrite rev_append. apply prefix_append. Qed.

Lemma lower_append (s t : string) : lower (s +:+ t) = lower s +:+ lower t.
Proof.
  induction s as [|a s IH]; [done|]. rewrite str_append_cons. cbn [lower].
  by rewrite IH.
Qed.

Lemma oas_filename_endswith (filename : string) :
  endswith (lower (oas_filename filename)) ".oas" = true.
Proof.
  unfold oas_filename. destruct (endswith (lower filename) ".oas") eqn:H; [done|].
  rewrite lower_append. apply endswith_append.
Qed.

Lemma oas_tempfilename_ne (filename : string) :
  oas_tempfilename filename ≠ oas_filename filename.
Proof.
  intros Heq. pose proof (oas_filename_endswith filename) as H.
  rewrite <- Heq in H. unfold oas_tempfilename, endswith in H.
  rewrite lower_append, rev_append in H. cbn in H.
  destruct (String.rev _); cbn in H; discriminate.
Qed.

(** X18: the name [write_oas] writes to ends in ".oas", in whatever case the
    caller wrote the extension; the temporary file ends in "-tmp.gds" and
    is never the file written to. *)
Theorem oas_names (filename : string) :
  endswith (lower (oas_filename filename)) ".oas" = true
  ∧ endswith (oas_tempfilename filename) "-tmp.gds" = true
  ∧ oas_tempfilename filename ≠ oas_filename filename.
Proof.
  split; [apply oas_filename_endswith|]. split; [|apply oas_tempfilename_ne].
  unfold oas_tempfilename. apply endswith_append.
Qed.

(** X19: when [write_oas] returns on a name that does not end in ".gds", the
    OASIS file is there, under the name with the extension, and records the
    temporary file it was converted from. *)
Theorem write_oas_writes_output (env : Env) (self : cid) (cells : list cid)
    (filename : string) (kw : write_kwargs) (w w' : World) (r : option string) :
  endswith (lower filename) ".gds" = false →
  write_oas env self cells filename kw w = (Ok r, w') →
  files w' !! oas_filename filename = Some (Oasis (oas_tempfilename filename)).
Proof.
  intros Hgds. unfold write_oas. rewrite Hgds.
  destruct (klayout_available env); cbn [negb]; [|done].
  fold (oas_tempfilename filename).
  rewrite bind_run.
  destruct (write_gds _ _ _ _ _ _ _ _ _ _ w) as [[p|e] w1]; [|done].
  rewrite bind_run. unfold layout_read.
  destruct (files w1 !! _); [|done].
  destruct (layout_read_ok env); [|done].
  rewrite bind_run. unfold topcell_write.
  destruct (topcell_write_ok env); [|done].
  unfold write_file. rewrite bind_run. unfold os_remove. cbn [files].
  destruct (_ !! _); [|done]. rewrite bind_run. cbn.
  intros [= <- <-]. cbn [files].
  rewrite lookup_delete_ne by apply oas_tempfilename_ne.
  apply lookup_insert_eq.
Qed.

(** X20: without the klayout package [write_oas] raises the [ImportError]
    before it writes or creates anything, for every name that does not end
    in ".gds". *)
Theorem write_oas_without_klayout (env : Env) (self : cid) (cells : list cid)
    (filename : string) (kw : write_kwargs) (w : World) :
  endswith (lower filename) ".gds" = false →
  klayout_available env = false →
  write_oas env self cells filename kw w = (Raise ImportError_klayout, w).
Proof. intros Hgds Hk. unfold write_oas. by rewrite Hgds, Hk. Qed.

(** X21: a name that ends in ".gds", in any case, makes [write_oas] a plain
    [write_gds] to that name: klayout is not needed, no temporary file is
    used, and the result is [None]. *)
Theorem write_oas_gds_name (env : Env) (self : cid) (cells : list cid)
    (filename : string) (kw : write_kwargs) (w : World) :
  endswith (lower filename) ".gds" = true →
  write_oas env self cells filename kw w
  = match write_gds env self cells (Some filename) (kw_gdsdir kw) (kw_unit kw)
            (kw_precision kw) (kw_timestamp kw) (kw_logging kw)
            (kw_on_duplicate_cell kw) w with
    | (Ok _, w') => (Ok None, w')
    | (Raise e, w') => (Raise e, w')
    end.
Proof.
  intros Hgds. unfold write_oas. rewrite Hgds, bind_run.
  by destruct (write_gds _ _ _ _ _ _ _ _ _ _ w) as [[]].
Qed.

Lemma write_oas_writes_output_witness :
  endswith (lower "chip") ".gds" = false
  ∧ write_oas ok_env 0 [1] "chip" default_kwargs two_cells
    = (Ok (Some "chip.oas"),
       (write_oas ok_env 0 [1] "chip" default_kwargs two_cells).2)
  ∧ files (write_oas ok_env 0 [1] "chip" default_kwargs two_cells).2
      !! oas_filename "chip" = Some (Oasis (oas_tempfilename "chip")).
Proof.
  assert (H : write_oas ok_env 0 [1] "chip" default_kwargs two_cells
              = (Ok (Some "chip.oas"),
                 (write_oas ok_env 0 [1] "chip" default_kwargs two_cells).2))
    by (vm_compute; reflexivity).
  split; [reflexivity|]. split; [exact H|].
  exact (write_oas_writes_output ok_env 0 [1] "chip" default_kwargs two_cells _ _
           eq_refl H).
Defined.

Lemma write_oas_without_klayout_witness :
  endswith (lower "chip.oas") ".gds" = false
  ∧ klayout_available no_klayout_env = false
  ∧ write_oas no_klayout_env 0 [1] "chip.oas" default_kwargs two_cells
    = (Raise ImportError_klayout, two_cells).
Proof.
  split; [reflexivity|]. split; [reflexivity|].
  exact (write_oas_without_klayout no_klayout_env 0 [1] "chip.oas" default_kwargs
           two_cells eq_refl eq_refl).
Defined.

Lemma write_oas_gds_name_witness :
  endswith (lower "Chip.GDS") ".gds" = true
  ∧ write_oas no_klayout_env 0 [1] "Chip.GDS" default_kwargs two_cells
    = match write_gds no_klayout_env 0 [1] (Some "Chip.GDS") (kw_gdsdir default_kwargs)
              (kw_unit default_kwargs) (kw_precision default_kwargs)
              (kw_timestamp default_kwargs) (kw_logging default_kwargs)
              (kw_on_duplicate_cell default_kwargs) two_cells with
      | (Ok _, w') => (Ok None, w')
      | (Raise e, w') => (Raise e, w')
      end.
Proof.
  split; [reflexivity|].
  exact (write_oas_gds_name no_klayout_env 0 [1] "Chip.GDS" default_kwargs two_cells
           eq_refl).
Defined.

(** ** Pure helpers *)

(** X22: [_filter_polys] keeps, in their order, exactly the polygons whose
    (layer, datatype) at the same index is not excluded; a polygon beyond
    the end of the shorter of the three lists is dropped. *)
Theorem _filter_polys_spec {P} (polys : list P) (layers datatypes : list Z)
    (layers_excl : list Layer) :
  _filter_polys polys layers datatypes layers_excl `sublist_of` polys
  ∧ ∀ p, p ∈ _filter_polys polys layers datatypes layers_excl
         ↔ ∃ i l d, polys !! i = Some p ∧ layers !! i = Some l
                    ∧ datatypes !! i = Some d ∧ (l, d) ∉ layers_excl.
Proof.
  revert layers datatypes. induction polys as [|q polys IH]; intros layers datatypes.
  - split; [done|]. intros p. split; [by intros ?%elem_of_nil|].
    by intros (i & l & d & Hi & _).
  - destruct layers as [|l layers], datatypes as [|d datatypes];
      try (split; [apply sublist_nil_l|];
           intros p; split; [by intros ?%elem_of_nil|];
           by intros (i & l' & d' & _ & ? & ? & _)).
    destruct (IH layers datatypes) as [Hsub Hiff]. cbn [_filter_polys].
    destruct (decide ((l, d) ∈ layers_excl)) as [Hex|Hex].
    + split; [by apply sublist_cons|]. intros p. rewrite Hiff. split.
      * intros (i & l' & d' & ?). by exists (S i), l', d'.
      * intros ([|i] & l' & d' & Hp & Hl & Hd & Hn); [|by exists i, l', d'].
        cbn in *. by simplify_eq.
    + split; [by apply sublist_skip|]. intros p. rewrite elem_of_cons, Hiff. split.
      * intros [->|(i & l' & d' & ?)]; [by exists 0, l, d|by exists (S i), l', d'].
      * intros ([|i] & l' & d' & Hp & Hl & Hd & Hn).
        -- left. cbn in Hp. by simplify_eq.
        -- right. by exists i, l', d'.
Qed.

Lemma child_of_lookup (settings : value) (d : items) :
  child_of settings d
  = match dict_lookup "child" d with
    | Some c => if truthy c then metadata_child_loop c else Ok settings
    | None => Ok settings
    end.
Proof.
  induction d as [|k v rest IH]; [done|].
  cbn [child_of dict_lookup]. by destruct (String.eqb k "child").
Qed.

Lemma metadata_child_loop_bottom (v : value) (s : value) :
  metadata_child_loop v = Ok s → bottom s.
Proof.
  revert s. induction v using value_mut
    with (P0 := λ d, ∀ settings s,
            child_of settings d = Ok s →
            (s = settings ∧ match dict_lookup "child" d with
                            | Some c => truthy c = false
                            | None => True
                            end)
            ∨ bottom s); try done.
  - intros s Hs. cbn [metadata_child_loop] in Hs.
    apply IHv in Hs as [[-> H]|H]; [by exists d|done].
  - intros settings s [= <-]. by left.
  - intros settings s. cbn [child_of dict_lookup].
    destruct (String.eqb key "child").
    + destruct (truthy v) eqn:Hv; [|intros [= <-]; by left].
      intros Hs. right. by apply IHv.
    + apply IHv0.
Qed.



(** X24: [metadata_child] returns whenever every truthy child down the chain
    is a dict, and raises the [AttributeError] of [.get] otherwise. *)
Theorem metadata_child_returns (d : items) :
  (dict_chain (VDict d) → is_ok (metadata_child d) = true)
  ∧ (¬ dict_chain (VDict d)
     → metadata_child d = Raise (ExternalError "AttributeError: get")).
Proof.
  unfold metadata_child.
  enough (H : ∀ v, (dict_chain v → is_ok (metadata_child_loop v) = true)
                   ∧ (¬ dict_chain v
                      → metadata_child_loop v = Raise (ExternalError "AttributeError: get")))
    by apply H.
  intros v. induction v using value_mut
    with (P0 := λ d, ∀ settings,
            (dict_chain_items d → is_ok (child_of settings d) = true)
            ∧ (¬ dict_chain_items d
               → child_of settings d = Raise (ExternalError "AttributeError: get")));
    try (split; [by intros []|done]).
  - cbn [metadata_child_loop dict_chain]. apply IHv.
  - intros settings. cbn [child_of dict_chain_items].
    destruct (String.eqb key "child"); [|apply IHv0].
    destruct (truthy v); [apply IHv|]. cbn. split; [done|]. intros H. by destruct H.
Qed.

Lemma metadata_child_returns_witness :
  dict_chain (VDict settings_chain)
  ∧ is_ok (metadata_child settings_chain) = true
  ∧ ¬ dict_chain (VDict (ICons "child" (VStr "leaf") INil))
  ∧ metadata_child (ICons "child" (VStr "leaf") INil)
    = Raise (ExternalError "AttributeError: get").
Proof.
  assert (H1 : dict_chain (VDict settings_chain)) by exact I.
  assert (H2 : ¬ dict_chain (VDict (ICons "child" (VStr "leaf") INil)))
    by (intros H; exact H).
  split; [exact H1|].
  split; [exact (proj1 (metadata_child_returns settings_chain) H1)|].
  split; [exact H2|].
  exact (proj2 (metadata_child_returns (ICons "child" (VStr "leaf") INil)) H2).
Defined.

(** * The installer *)

Lemma io_bind_run {A B} (m : IO A) (k : A → IO B) (s : Sys) :
  (m ≫= k) s =
  match m s with
  | (Done a, s') => k a s'
  | (Err e, s') => (Err e, s')
  end.
Proof. reflexivity. Qed.

Ltac unfold_IO :=
  cbv [mbind IO_bind mret IO_ret print get_sys];
  cbn [fs stdout fst snd].

(** ** Links *)

Lemma resolve_not_link (fuel : nat) (fs : gmap string node) (p q : string) :
  resolve fuel fs p = Some q → ∀ t, fs !! q ≠ Some (Symlink t).
Proof.
  revert p. induction fuel as [|fuel IH]; intros p; cbn [resolve].
  - destruct (fs !! p) as [[]|] eqn:Hp; intros [= <-] t'; congruence.
  - destruct (fs !! p) as [[]|] eqn:Hp; try (intros [= <-] t'; congruence).
    apply IH.
Qed.

Lemma resolve_insert_file (fuel : nat) (fs : gmap string node) (q text p : string) :
  (∀ t, fs !! q ≠ Some (Symlink t)) →
  resolve fuel (<[q := File text]> fs) p = resolve fuel fs p.
Proof.
  intros Hq. revert p. induction fuel as [|fuel IH]; intros p; cbn [resolve].
  - destruct (decide (p = q)) as [->|Hne].
    + rewrite lookup_insert_eq. destruct (fs !! q) as [[]|] eqn:H; try done.
      exfalso. eapply Hq. reflexivity.
    + by rewrite lookup_insert_ne.
  - destruct (decide (p = q)) as [->|Hne].
    + rewrite lookup_insert_eq. destruct (fs !! q) as [[]|] eqn:H; try done.
      exfalso. eapply Hq. reflexivity.
    + rewrite lookup_insert_ne by done. destruct (fs !! p) as [[]|]; auto.
Qed.

(** X25: off Windows [make_link] never raises.  When [os.symlink] goes
    through (links are permitted and [dest] is free) the link is made and
    nothing is printed; when it fails, [make_link] prints the two lines
    about the error, returns, and the file system is what it was. *)
Theorem make_link_posix_returns (host : Host) (src dest : string) (s : Sys) :
  win32 host = false →
  make_link host src dest s
  = if symlink_permitted host && bool_decide (fs s !! dest = None)
    then (Done tt, mkSys (<[dest := Symlink src]> (fs s)) (stdout s))
    else (Done tt,
          mkSys (fs s)
            (stdout s
             ++ ["Could not create symlink!";
                 "     Error:  "
                   +:+ strerror host (if symlink_permitted host then EEXIST else EPERM)
                         src dest])).
Proof.
  intros Hw. unfold make_link, os_symlink.
  destruct (symlink_permitted host); cbn [negb andb].
  - destruct (fs s !! dest) eqn:Hd.
    + rewrite bool_decide_eq_false_2 by done. unfold_IO. rewrite Hw.
      cbn [fs stdout]. by rewrite <- app_assoc.
    + by rewrite bool_decide_eq_true_2.
  - unfold_IO. rewrite Hw. cbn [fs stdout]. by rewrite <- app_assoc.
Qed.

Lemma make_link_posix_returns_witness :
  win32 posix_host = false
  ∧ make_link posix_host "/opt/gf/klayout" salt_link dangling_home
    = if symlink_permitted posix_host
         && bool_decide (fs dangling_home !! salt_link = None)
      then (Done tt, mkSys (<[salt_link := Symlink "/opt/gf/klayout"]> (fs dangling_home))
                       (stdout dangling_home))
      else (Done tt,
            mkSys (fs dangling_home)
              (stdout dangling_home
               ++ ["Could not create symlink!";
                   "     Error:  "
                     +:+ strerror posix_host
                           (if symlink_permitted posix_host then EEXIST else EPERM)
                           "/opt/gf/klayout" salt_link])).
Proof.
  split; [reflexivity|].
  exact (make_link_posix_returns posix_host "/opt/gf/klayout" salt_link dangling_home
           eq_refl).
Defined.

(** At the dangling link the call returns and [dest] is not touched. *)
Example make_link_dangling_home :
  make_link posix_host "/opt/gf/klayout" salt_link dangling_home
  = (Done tt,
     mkSys (fs dangling_home)
       ["Could not create symlink!";
        "     Error:  [Errno 17] File exists: /opt/gf/klayout -> "
          +:+ salt_link]).
Proof. by vm_compute. Qed.

(** X26: when [dest] is free, or names a file or a link to something that
    exists, and links are permitted, [make_symlink] leaves a link to [src]
    at [dest], changes no other path and prints its three lines. *)
Theorem make_symlink_replaces (host : Host) (src dest : string) (s : Sys) :
  symlink_permitted host = true →
  fs s !! dest ≠ Some Dir →
  path_exists (fs s) dest = true ∨ fs s !! dest = None →
  make_symlink host src dest s
  = (Done tt, mkSys (<[dest := Symlink src]> (fs s))
                (stdout s ++ ["Symlink made:"; "From: " +:+ src; "To:   " +:+ dest])).
Proof.
  intros Hperm Hdir Hex. unfold make_symlink. rewrite io_bind_run. cbn [get_sys].
  destruct (path_exists (fs s) dest) eqn:He.
  - assert (Hsome : is_Some (fs s !! dest)).
    { unfold path_exists, realpath in He.
      destruct (fs s !! dest) as [n|] eqn:Hd; [by eexists|].
      exfalso. destruct MAXSYMLINKS; cbn [resolve] in He; rewrite Hd in He;
        rewrite bool_decide_eq_true, Hd in He; by destruct He. }
    destruct Hsome as [n Hn]. rewrite io_bind_run. unfold os_remove_path at 1.
    rewrite Hn. destruct n; [|done|].
    + rewrite io_bind_run. unfold make_link, os_symlink. rewrite Hperm. cbn [negb fs].
      rewrite lookup_delete_eq. unfold_IO. by rewrite insert_delete_eq, <- !app_assoc.
    + rewrite io_bind_run. unfold make_link, os_symlink. rewrite Hperm. cbn [negb fs].
      rewrite lookup_delete_eq. unfold_IO. by rewrite insert_delete_eq, <- !app_assoc.
  - destruct Hex as [|Hnone]; [done|]. rewrite io_bind_run. cbn [mret IO_ret].
    rewrite io_bind_run. unfold make_link, os_symlink. rewrite Hperm, Hnone. cbn [negb]. unfold_IO.
    by rewrite <- !app_assoc.
Qed.

Lemma make_symlink_replaces_witness :
  symlink_permitted posix_host = true
  ∧ fs empty_home !! salt_link ≠ Some Dir
  ∧ (path_exists (fs empty_home) salt_link = true ∨ fs empty_home !! salt_link = None)
  ∧ make_symlink posix_host "/opt/gf/klayout" salt_link empty_home
    = (Done tt, mkSys (<[salt_link := Symlink "/opt/gf/klayout"]> (fs empty_home))
                  (stdout empty_home
                   ++ ["Symlink made:"; "From: " +:+ "/opt/gf/klayout";
                       "To:   " +:+ salt_link])).
Proof.
  assert (H2 : fs empty_home !! salt_link ≠ Some Dir) by discriminate.
  assert (H3 : path_exists (fs empty_home) salt_link = true
               ∨ fs empty_home !! salt_link = None) by (right; reflexivity).
  split; [reflexivity|]. split; [exact H2|]. split; [exact H3|].
  exact (make_symlink_replaces posix_host "/opt/gf/klayout" salt_link empty_home
           eq_refl H2 H3).
Defined.

(** X27: a dangling link at [dest] is not seen by [dest.exists()] and not
    removed; off Windows [os.symlink] then fails, [make_link] swallows the
    error, and [make_symlink] still reports the link as made while [dest]
    points where it pointed. *)
Theorem make_symlink_dangling (host : Host) (src dest target : string) (s : Sys) :
  win32 host = false →
  fs s !! dest = Some (Symlink target) →
  path_exists (fs s) dest = false →
  make_symlink host src dest s
  = (Done tt,
     mkSys (fs s)
       (stdout s
        ++ ["Could not create symlink!";
            "     Error:  "
              +:+ strerror host (if symlink_permitted host then EEXIST else EPERM) src dest;
            "Symlink made:"; "From: " +:+ src; "To:   " +:+ dest])).
Proof.
  intros Hw Hd He. unfold make_symlink. rewrite io_bind_run. cbn [get_sys].
  rewrite He, io_bind_run. cbn [mret IO_ret]. rewrite io_bind_run.
  unfold make_link, os_symlink. rewrite Hd.
  destruct (symlink_permitted host); cbn [negb]; unfold_IO; rewrite Hw;
    cbn [fs stdout]; by rewrite <- !app_assoc.
Qed.

Lemma make_symlink_dangling_witness :
  win32 posix_host = false
  ∧ fs dangling_home !! salt_link = Some (Symlink "/opt/old/klayout")
  ∧ path_exists (fs dangling_home) salt_link = false
  ∧ make_symlink posix_host "/opt/gf/klayout" salt_link dangling_home
    = (Done tt,
       mkSys (fs dangling_home)
         (stdout dangling_home
          ++ ["Could not create symlink!";
              "     Error:  "
                +:+ strerror posix_host
                      (if symlink_permitted posix_host then EEXIST else EPERM)
                      "/opt/gf/klayout" salt_link;
              "Symlink made:"; "From: " +:+ "/opt/gf/klayout"; "To:   " +:+ salt_link])).
Proof.
  assert (H2 : fs dangling_home !! salt_link = Some (Symlink "/opt/old/klayout"))
    by reflexivity.
  assert (H3 : path_exists (fs dangling_home) salt_link = false) by (by vm_compute).
  split; [reflexivity|]. split; [exact H2|]. split; [exact H3|].
  exact (make_symlink_dangling posix_host "/opt/gf/klayout" salt_link "/opt/old/klayout"
           dangling_home eq_refl H2 H3).
Defined.

(** X28: a directory at [dest] makes [make_symlink] raise from [os.remove]
    before it links or prints anything. *)
Theorem make_symlink_directory (host : Host) (src dest : string) (s : Sys) :
  fs s !! dest = Some Dir →
  make_symlink host src dest s = (Err (OSError EISDIR), s).
Proof.
  intros Hd. unfold make_symlink. rewrite io_bind_run. cbn [get_sys].
  assert (He : path_exists (fs s) dest = true).
  { unfold path_exists, realpath. destruct MAXSYMLINKS; cbn [resolve]; rewrite Hd;
      rewrite bool_decide_eq_true, Hd; by eexists. }
  rewrite He, io_bind_run. unfold os_remove_path. by rewrite Hd.
Qed.

Lemma make_symlink_directory_witness :
  fs folder_home !! salt_link = Some Dir
  ∧ make_symlink posix_host "/opt/gf/klayout" salt_link folder_home
    = (Err (OSError EISDIR), folder_home).
Proof.
  assert (H1 : fs folder_home !! salt_link = Some Dir) by reflexivity.
  split; [exact H1|].
  exact (make_symlink_directory posix_host "/opt/gf/klayout" salt_link folder_home H1).
Defined.

(** ** Substrings *)

Lemma prefix_spec (a b : string) : String.prefix a b = true ↔ ∃ q, b = a +:+ q.
Proof.
  revert b. induction a as [|c a IH]; intros b.
  - split; [by exists b|by destruct b].
  - destruct b as [|c' b]; [split; [done|by intros [q Hq]]|].
    cbn [String.prefix]. destruct (ascii_dec c c') as [->|Hne].
    + rewrite IH. split; intros [q Hq]; exists q.
      * by rewrite str_append_cons, Hq.
      * rewrite str_append_cons in Hq. by injection Hq.
    + split; [done|]. intros [q Hq]. rewrite str_append_cons in Hq. congruence.
Qed.

Lemma contains_spec (a b : string) : contains a b = true ↔ ∃ p q, b = p +:+ a +:+ q.
Proof.
  induction b as [|c b IH]; cbn [contains].
  - rewrite orb_false_r, prefix_spec. split.
    + intros [q Hq]. by exists "", q.
    + intros (p & q & Hq). destruct p; [by exists q|done].
  - rewrite orb_true_iff, prefix_spec, IH. split.
    + intros [[q Hq]|(p & q & Hq)]; [by exists "", q|].
      exists (String c p), q. by rewrite str_append_cons, Hq.
    + intros ([|c' p] & q & Hq); [left; by exists q|].
      right. exists p, q. rewrite str_append_cons in Hq. by injection Hq.
Qed.

Lemma contains_app_r (a b c : string) :
  contains a c = true → contains a (b +:+ c) = true.
Proof.
  rewrite !contains_spec. intros (p & q & ->). exists (b +:+ p), q.
  by rewrite str_append_assoc.
Qed.

Lemma contains_trans (a b c : string) :
  contains a b = true → contains b c = true → contains a c = true.
Proof.
  rewrite !contains_spec. intros (p & q & ->) (p' & q' & ->).
  exists (p' +:+ p), (q +:+ q'). by rewrite !str_append_assoc.
Qed.

(** ** Files *)

Lemma realpath_not_link (f : gmap string node) (p q : string) :
  realpath f p = Some q → ∀ t, f !! q ≠ Some (Symlink t).
Proof. apply resolve_not_link. Qed.

Lemma realpath_insert (f : gmap string node) (q text p : string) :
  (∀ t, f !! q ≠ Some (Symlink t)) →
  realpath (<[q := File text]> f) p = realpath f p.
Proof. apply resolve_insert_file. Qed.

Lemma file_text_insert (f : gmap string node) (q text p : string) :
  (∀ t, f !! q ≠ Some (Symlink t)) →
  file_text (<[q := File text]> f) p
  = if decide (realpath f p = Some q) then Done text else file_text f p.
Proof.
  intros Hq. unfold file_text. rewrite realpath_insert by done.
  destruct (realpath f p) as [r|]; [|by rewrite decide_False].
  destruct (decide (Some r = Some q)) as [[= ->]|Hne].
  - by rewrite lookup_insert_eq.
  - rewrite lookup_insert_ne by congruence. done.
Qed.

Lemma path_exists_insert (f : gmap string node) (q text p : string) :
  (∀ t, f !! q ≠ Some (Symlink t)) →
  path_exists (<[q := File text]> f) p
  = if decide (realpath f p = Some q) then true else path_exists f p.
Proof.
  intros Hq. unfold path_exists. rewrite realpath_insert by done.
  destruct (realpath f p) as [r|]; [|by rewrite decide_False].
  destruct (decide (Some r = Some q)) as [[= ->]|Hne].
  - rewrite lookup_insert_eq. by apply bool_decide_eq_true.
  - rewrite lookup_insert_ne by congruence. done.
Qed.

Lemma text_or_empty_insert (f : gmap string node) (q text p : string) :
  (∀ t, f !! q ≠ Some (Symlink t)) →
  text_or_empty (<[q := File text]> f) p
  = if decide (realpath f p = Some q) then Done text else text_or_empty f p.
Proof.
  intros Hq. unfold text_or_empty.
  rewrite path_exists_insert, file_text_insert by done.
  by destruct (decide _).
Qed.

Lemma write_text_inv (p text : string) (s s' : Sys) :
  write_text p text s = (Done tt, s') →
  ∃ q, realpath (fs s) p = Some q
       ∧ (∀ t, fs s !! q ≠ Some (Symlink t))
       ∧ s' = mkSys (<[q := File text]> (fs s)) (stdout s).
Proof.
  unfold write_text. destruct (realpath (fs s) p) as [q|] eqn:Hq; [|done].
  pose proof (realpath_not_link _ _ _ Hq) as Hn.
  destruct (fs s !! q) as [[]|] eqn:Hf; intros [= <-]; exists q; by rewrite ?Hf.
Qed.

Lemma append_text_inv (p text : string) (s s' : Sys) :
  append_text p text s = (Done tt, s') →
  ∃ q, realpath (fs s) p = Some q
       ∧ (∀ t, fs s !! q ≠ Some (Symlink t))
       ∧ s' = mkSys (<[q := File (match fs s !! q with
                                  | Some (File old) => old
                                  | _ => ""
                                  end +:+ text)]> (fs s)) (stdout s).
Proof.
  unfold append_text. destruct (realpath (fs s) p) as [q|] eqn:Hq; [|done].
  pose proof (realpath_not_link _ _ _ Hq) as Hn.
  destruct (fs s !! q) as [[]|] eqn:Hf; intros [= <-]; exists q; by rewrite ?Hf.
Qed.

(** ** The git configuration *)

Lemma sections_config_set (c : config) (section option value : string) :
  (sections (config_set c section option value)).*1 = (sections c).*1.
Proof.
  unfold config_set. cbn [sections]. rewrite <- list_fmap_compose.
  apply list_fmap_ext. intros i sec _. cbn. by destruct (decide _).
Qed.

Lemma io_run_print (line : string) (s : Sys) :
  print line s = (Done tt, mkSys (fs s) (stdout s ++ [line])).
Proof. reflexivity. Qed.

Lemma config_read_run (host : Host) (path : string) (s : Sys) :
  config_read host path s
  = (match file_text (fs s) path with
     | Done text => config_parse host text
     | Err _ => Done (mkConfig [] [])
     end, s).
Proof.
  unfold config_read, read_text. destruct (file_text (fs s) path); [|done].
  by destruct (config_parse host a).
Qed.

(** [write_git_config], when it returns, either found the section and
    wrote nothing, or wrote the text of a configuration with the section. *)
Lemma write_git_config_inv (host : Host) (path : string) (s s' : Sys) :
  write_git_config host path s = (Done tt, s') →
  (fs s' = fs s
   ∧ ∃ c, match file_text (fs s) path with
          | Done text => config_parse host text
          | Err _ => Done (mkConfig [] [])
          end = Done c
          ∧ gds_diff_section ∈ (sections c).*1)
  ∨ (∃ q c, realpath (fs s) path = Some q
            ∧ (∀ t, fs s !! q ≠ Some (Symlink t))
            ∧ fs s' = <[q := File (config_render host c)]> (fs s)
            ∧ gds_diff_section ∈ (sections c).*1).
Proof.
  unfold write_git_config.
  rewrite !io_bind_run, !io_run_print. cbn [fs stdout].
  rewrite !io_bind_run, !io_run_print. cbn [fs stdout].
  rewrite !io_bind_run, !io_run_print. cbn [fs stdout].
  rewrite io_bind_run, config_read_run. cbn [fs].
  destruct (match file_text (fs s) path with Done _ => _ | Err _ => _ end) as [c|e] eqn:Hc;
    [|done].
  destruct (decide _) as [Hnew|Hold].
  - intros (q & Hq & Hn & ->)%write_text_inv. right. cbn [fs] in *.
    eexists q, _. split; [done|]. split; [done|]. split; [done|].
    rewrite !sections_config_set. cbn [add_section sections].
    rewrite fmap_app. apply elem_of_app. right. apply list_elem_of_here.
  - intros [= <-]. left. split; [done|]. exists c. split; [done|].
    by apply dec_stable.
Qed.

Lemma mentions_gds_diff (host : Host) (c : config) :
  writes_section_names host →
  gds_diff_section ∈ (sections c).*1 →
  contains "gds_diff" (config_render host c) = true.
Proof.
  intros Hhost Hin. eapply (contains_trans _ gds_diff_section); [by vm_compute|].
  by apply Hhost.
Qed.

Lemma write_git_config_skip (host : Host) (path : string) (s : Sys) (c : config) :
  match file_text (fs s) path with
  | Done text => config_parse host text
  | Err _ => Done (mkConfig [] [])
  end = Done c →
  gds_diff_section ∈ (sections c).*1 →
  ∃ s', write_git_config host path s = (Done tt, s') ∧ fs s' = fs s.
Proof.
  intros Hc Hin. unfold write_git_config.
  rewrite !io_bind_run, !io_run_print. cbn [fs stdout].
  rewrite !io_bind_run, !io_run_print. cbn [fs stdout].
  rewrite !io_bind_run, !io_run_print. cbn [fs stdout].
  rewrite io_bind_run, config_read_run. cbn [fs]. rewrite Hc.
  rewrite decide_False by (intros H; by apply H). by eexists.
Qed.

(** ** [install_gdsdiff] *)

Lemma install_gdsdiff_unfold (host : Host) (s : Sys) :
  install_gdsdiff host s
  = match text_or_empty (fs s) (git_config_path host) with
    | Err e => (Err e, s)
    | Done git_config_str =>
        match text_or_empty (fs s) (git_attributes_path host) with
        | Err e => (Err e, s)
        | Done git_attributes_str =>
            ((if negb (contains "gds_diff" git_config_str)
              then write_git_config host (git_config_path host) else mret tt);;
             (if negb (contains "gds_diff" git_attributes_str) then
                print "Appending the gdsdiff command to your ~/.gitattributes";;
                append_text (git_attributes_path host) ("*.gds diff=gds_diff" +:+ newline)
              else mret tt)) s
        end
    end.
Proof.
  unfold install_gdsdiff, text_or_empty. rewrite io_bind_run. cbn [get_sys].
  rewrite io_bind_run.
  destruct (path_exists (fs s) (git_config_path host)).
  - unfold read_text at 1. destruct (file_text (fs s) (git_config_path host)); [|done].
    rewrite io_bind_run. destruct (path_exists (fs s) (git_attributes_path host)).
    + unfold read_text at 1. by destruct (file_text (fs s) (git_attributes_path host)).
    + done.
  - cbn [mret IO_ret]. rewrite io_bind_run.
    destruct (path_exists (fs s) (git_attributes_path host)).
    + unfold read_text at 1. by destruct (file_text (fs s) (git_attributes_path host)).
    + done.
Qed.

Lemma text_or_empty_at (f : gmap string node) (p q text : string) :
  realpath f p = Some q →
  text_or_empty f p = Done text →
  (f !! q = Some (File text)) ∨ (f !! q = None ∧ text = "empty").
Proof.
  intros Hq. pose proof (realpath_not_link _ _ _ Hq) as Hn.
  unfold text_or_empty, path_exists, file_text. rewrite Hq.
  destruct (f !! q) as [[]|] eqn:Hf.
  - rewrite bool_decide_eq_true_2 by (by eexists). intros [= ->]. by left.
  - by rewrite bool_decide_eq_true_2 by (by eexists).
  - by destruct (Hn target).
  - rewrite bool_decide_eq_false_2 by (by intros []). intros [= <-]. by right.
Qed.

(** X29: when [install_gdsdiff] returns, the attributes file holds its old
    text if that mentioned gds_diff, and otherwise the old text with the
    line appended right behind it, without a line break in between; the
    attributes file must not be the configuration file under another
    name. *)
Theorem install_gdsdiff_attributes (host : Host) (s s1 : Sys) (qa : string) :
  install_gdsdiff host s = (Done tt, s1) →
  realpath (fs s) (git_attributes_path host) = Some qa →
  realpath (fs s) (git_config_path host) ≠ Some qa →
  let old := match fs s !! qa with Some (File text) => text | _ => "" end in
  fs s1 !! qa
  = Some (File (if contains "gds_diff" old then old
                else old +:+ "*.gds diff=gds_diff" +:+ newline)).
Proof.
  intros Hrun Hqa Hne old. rewrite install_gdsdiff_unfold in Hrun.
  destruct (text_or_empty (fs s) (git_config_path host)) as [cs|]; [|done].
  destruct (text_or_empty (fs s) (git_attributes_path host)) as [ats|] eqn:Hats; [|done].
  rewrite io_bind_run in Hrun.
  assert (Hmid : ∃ sm,
    (if negb (contains "gds_diff" cs)
     then write_git_config host (git_config_path host) else mret tt) s = (Done tt, sm)
    ∧ fs sm !! qa = fs s !! qa
    ∧ realpath (fs sm) (git_attributes_path host) = Some qa).
  { destruct (negb (contains "gds_diff" cs)); [|by exists s].
    destruct (write_git_config host (git_config_path host) s) as [[[]|e] sm] eqn:Hw;
      [|done].
    exists sm. split; [done|].
    apply write_git_config_inv in Hw as [[-> _]|(q & c & Hq & Hn & -> & _)]; [done|].
    rewrite lookup_insert_ne by congruence. by rewrite realpath_insert. }
  destruct Hmid as (sm & Hsm & Hlook & Hreal). rewrite Hsm in Hrun.
  apply (text_or_empty_at _ _ _ _ Hqa) in Hats as [Hf|[Hf ->]].
  - subst old. rewrite Hf. destruct (contains "gds_diff" ats); cbn [negb] in Hrun.
    + injection Hrun as <-. by rewrite Hlook.
    + rewrite io_bind_run, io_run_print in Hrun.
      apply append_text_inv in Hrun as (q & Hq & _ & ->). cbn [fs] in *.
      rewrite Hreal in Hq. injection Hq as <-. by rewrite lookup_insert_eq, Hlook, Hf.
  - subst old. rewrite Hf.
    change (contains "gds_diff" "empty") with false in Hrun.
    change (contains "gds_diff" "") with false. cbn [negb] in Hrun.
    rewrite io_bind_run, io_run_print in Hrun.
    apply append_text_inv in Hrun as (q & Hq & _ & ->). cbn [fs] in *.
    rewrite Hreal in Hq. injection Hq as <-. by rewrite lookup_insert_eq, Hlook, Hf.
Qed.

Lemma install_gdsdiff_attributes_witness :
  install_gdsdiff posix_host attributes_home
  = (Done tt, (install_gdsdiff posix_host attributes_home).2)
  ∧ realpath (fs attributes_home) (git_attributes_path posix_host)
    = Some "/home/ana/.gitattributes"
  ∧ realpath (fs attributes_home) (git_config_path posix_host)
    ≠ Some "/home/ana/.gitattributes"
  ∧ let old := match fs attributes_home !! "/home/ana/.gitattributes" with
               | Some (File text) => text
               | _ => ""
               end in
    fs (install_gdsdiff posix_host attributes_home).2 !! "/home/ana/.gitattributes"
    = Some (File (if contains "gds_diff" old then old
                  else old +:+ "*.gds diff=gds_diff" +:+ newline)).
Proof.
  assert (H1 : install_gdsdiff posix_host attributes_home
               = (Done tt, (install_gdsdiff posix_host attributes_home).2))
    by (vm_compute; reflexivity).
  assert (H2 : realpath (fs attributes_home) (git_attributes_path posix_host)
               = Some "/home/ana/.gitattributes") by (vm_compute; reflexivity).
  assert (H3 : realpath (fs attributes_home) (git_config_path posix_host)
               ≠ Some "/home/ana/.gitattributes") by (vm_compute; discriminate).
  split; [exact H1|]. split; [exact H2|]. split; [exact H3|].
  exact (install_gdsdiff_attributes posix_host attributes_home _ _ H1 H2 H3).
Defined.

Example attributes_home_glued :
  fs (install_gdsdiff posix_host attributes_home).2 !! "/home/ana/.gitattributes"
  = Some (File ("*.png binary*.gds diff=gds_diff" +:+ newline)).
Proof. by vm_compute. Qed.

(** A store where both texts are settled: nothing is left to write. *)
Lemma install_gdsdiff_settled (host : Host) (s : Sys) (cs ats : string) :
  text_or_empty (fs s) (git_config_path host) = Done cs →
  text_or_empty (fs s) (git_attributes_path host) = Done ats →
  contains "gds_diff" ats = true →
  contains "gds_diff" cs = true
  ∨ (∃ c, match file_text (fs s) (git_config_path host) with
          | Done text => config_parse host text
          | Err _ => Done (mkConfig [] [])
          end = Done c
          ∧ gds_diff_section ∈ (sections c).*1) →
  ∃ s2, install_gdsdiff host s = (Done tt, s2) ∧ fs s2 = fs s.
Proof.
  intros Hcs Hats Ha Hc. rewrite install_gdsdiff_unfold, Hcs, Hats, Ha. cbn [negb].
  rewrite io_bind_run.
  destruct (contains "gds_diff" cs) eqn:Hcc; cbn [negb]; [by eexists|].
  destruct Hc as [|(c & Hc & Hin)]; [done|].
  destruct (write_git_config_skip host _ s c Hc Hin) as (s' & -> & Hfs).
  by exists s'.
Qed.

(** X30: [install_gdsdiff] is idempotent on the files: after a run that
    returned, a second run returns and writes nothing. *)
Theorem install_gdsdiff_idempotent (host : Host) (s s1 : Sys) :
  writes_section_names host →
  install_gdsdiff host s = (Done tt, s1) →
  ∃ s2, install_gdsdiff host s1 = (Done tt, s2) ∧ fs s2 = fs s1.
Proof.
  intros Hhost Hrun. rewrite install_gdsdiff_unfold in Hrun.
  destruct (text_or_empty (fs s) (git_config_path host)) as [cs|] eqn:Hcs; [|done].
  destruct (text_or_empty (fs s) (git_attributes_path host)) as [ats|] eqn:Hats; [|done].
  rewrite io_bind_run in Hrun.
  (* the configuration step *)
  assert (Hmid : ∃ sm cs' ats',
    (if negb (contains "gds_diff" cs)
     then write_git_config host (git_config_path host) else mret tt) s = (Done tt, sm)
    ∧ text_or_empty (fs sm) (git_config_path host) = Done cs'
    ∧ (contains "gds_diff" cs' = true
       ∨ (∃ c, match file_text (fs sm) (git_config_path host) with
               | Done text => config_parse host text
               | Err _ => Done (mkConfig [] [])
               end = Done c
               ∧ gds_diff_section ∈ (sections c).*1))
    ∧ text_or_empty (fs sm) (git_attributes_path host) = Done ats'
    ∧ (contains "gds_diff" ats = true → contains "gds_diff" ats' = true)).
  { destruct (contains "gds_diff" cs) eqn:Hcc; cbn [negb] in *.
    { exists s, cs, ats. split; [done|]. split; [done|]. split; [by left|]. done. }
    destruct (write_git_config host (git_config_path host) s) as [[[]|e] sm] eqn:Hw;
      [|exfalso; cbv beta iota in Hrun; discriminate].
    apply write_git_config_inv in Hw as [[Hfs (c & Hc & Hin)]|(q & c & Hq & Hn & Hfs & Hin)].
    - exists sm, cs, ats. rewrite Hfs. split; [done|]. split; [done|].
      split; [right; by exists c|]. done.
    - pose proof (mentions_gds_diff host c Hhost Hin) as Hm.
      exists sm, (config_render host c). rewrite Hfs.
      rewrite !text_or_empty_insert by done. rewrite decide_True by done.
      destruct (decide (realpath (fs s) (git_attributes_path host) = Some q)).
      + exists (config_render host c). split; [done|]. split; [done|]. split; [by left|].
        split; [done|]. by intros _.
      + exists ats. split; [done|]. split; [done|]. split; [by left|]. done. }
  destruct Hmid as (sm & cs' & ats' & Hsm & Hcs' & Hc & Hats' & Ha). rewrite Hsm in Hrun.
  destruct (contains "gds_diff" ats) eqn:Hac; cbn [negb] in Hrun.
  - injection Hrun as <-. by eapply install_gdsdiff_settled; eauto.
  - rewrite io_bind_run, io_run_print in Hrun.
    apply append_text_inv in Hrun as (q & Hq & Hn & Hs1). cbn [fs stdout] in Hq, Hn, Hs1.
    set (new := _ +:+ "*.gds diff=gds_diff" +:+ newline) in Hs1.
    assert (Hfs1 : fs s1 = <[q := File new]> (fs sm)) by (by rewrite Hs1).
    assert (Hnew : contains "gds_diff" new = true)
      by (subst new; apply contains_app_r; by vm_compute).
    destruct (decide (realpath (fs sm) (git_config_path host) = Some q)) as [Hcq|Hcq].
    + apply (install_gdsdiff_settled host s1 new new); rewrite ?Hfs1;
        rewrite ?text_or_empty_insert by done; rewrite ?decide_True by done;
        try done. by left.
    + apply (install_gdsdiff_settled host s1 cs' new); rewrite ?Hfs1;
        rewrite ?text_or_empty_insert by done;
        rewrite ?(decide_True _ _ Hq), ?(decide_False _ _ Hcq); try done.
      destruct Hc as [Hc|(c & Hc & Hin)]; [by left|]. right. exists c.
      rewrite file_text_insert by done. by rewrite decide_False by done.
Qed.

Lemma render_sections_names (secs : list (string * list (string * string)))
    (section : string) :
  section ∈ secs.*1 → contains section (render_sections secs) = true.
Proof.
  induction secs as [|[name options] secs IH]; intros Hin.
  - by apply elem_of_nil in Hin.
  - cbn [fmap list_fmap fst] in Hin. cbn [render_sections].
    apply elem_of_cons in Hin as [->|Hin].
    + apply contains_spec. by exists "[", ("]" +:+ newline +:+ render_options options
                                             +:+ newline +:+ render_sections secs).
    + rewrite <- !str_append_assoc. apply contains_app_r. by apply IH.
Qed.

Lemma posix_host_writes_section_names : writes_section_names posix_host.
Proof. intros c section. apply render_sections_names. Qed.

Lemma install_gdsdiff_idempotent_witness :
  writes_section_names posix_host
  ∧ install_gdsdiff posix_host empty_home
    = (Done tt, (install_gdsdiff posix_host empty_home).2)
  ∧ ∃ s2, install_gdsdiff posix_host (install_gdsdiff posix_host empty_home).2
          = (Done tt, s2)
          ∧ fs s2 = fs (install_gdsdiff posix_host empty_home).2.
Proof.
  assert (H2 : install_gdsdiff posix_host empty_home
               = (Done tt, (install_gdsdiff posix_host empty_home).2))
    by (vm_compute; reflexivity).
  split; [exact posix_host_writes_section_names|]. split; [exact H2|].
  exact (install_gdsdiff_idempotent posix_host empty_home _
           posix_host_writes_section_names H2).
Defined.

(** ** The naming resolver: automatic names *)

(** The setter on a placement that has an owner. *)
Lemma set_reference_name_run (r : rid) (a : string) (w : World) (R : Reference)
    (c : cid) (C : Component) :
  refs w !! r = Some R → owner R = Some c → comps w !! c = Some C →
  set_reference_name r a w
  = if decide (a ∈ other_aliases w C r) then (Raise (ValueError_alias_in_use a), w)
    else (Ok tt,
          mkWorld (<[c := set_used ({[a]} ∪ _reference_names_used C) C]> (comps w))
            (<[r := set_ref_name (Some a) R]> (refs w))
            (files w) (dirs w) (warnings w) (log w)).
Proof.
  intros HR Ho HC. unfold set_reference_name.
  rewrite bind_run, (get_ref_run _ _ _ HR), Ho, bind_run, (get_comp_run _ _ _ HC).
  rewrite bind_run. cbn [get_world]. destruct (decide _); [done|].
  unfold_M. by rewrite HC.
Qed.

Lemma keeps_used_while (fuel : nat) (self : cid) (prefix alias : string) :
  keeps (comp_view _reference_names_used) (while_alias_used fuel self prefix alias).
Proof.
  revert alias. induction fuel as [|fuel IH]; intros alias; simpl.
  - keeps_step.
  - apply keeps_bind; [eauto with keeps|intros C].
    destruct (decide _); [|eauto with keeps].
    apply keeps_bind; [keeps_step|intros _].
    apply keeps_bind; [eauto with keeps|intros C']. apply IH.
Qed.

Lemma comp_view_lookup {X} (g : Component → X) (w w' : World) (c : cid) (C : Component) :
  comp_view g w' = comp_view g w → comps w !! c = Some C →
  ∃ C', comps w' !! c = Some C' ∧ g C' = g C.
Proof.
  intros Hv HC. unfold comp_view in Hv.
  assert (H : (g <$> comps w') !! c = Some (g C)) by (by rewrite Hv, lookup_fmap, HC).
  rewrite lookup_fmap in H. destruct (comps w' !! c) as [C'|]; [|done].
  exists C'. split; [done|]. by injection H.
Qed.

(** The loop leaves the store as it was but for the counter of the cell. *)
Lemma while_alias_used_first_free_store (self : cid) (prefix : string) (w : World)
    (C : Component) :
  comps w !! self = Some C →
  ∃ m w' C',
    while_alias_used (size (_reference_names_used C)) self prefix
      (alias_of prefix (counter_get (_reference_names_counter C) prefix)) w
    = (Ok (alias_of prefix m), w')
    ∧ counter_get (_reference_names_counter C) prefix ≤ m
    ∧ (alias_of prefix m ∉ _reference_names_used C)
    ∧ (∀ k, counter_get (_reference_names_counter C) prefix ≤ k < m →
            alias_of prefix k ∈ _reference_names_used C)
    ∧ refs w' = refs w
    ∧ comps w' = <[self := C']> (comps w)
    ∧ references C' = references C
    ∧ _reference_names_used C' = _reference_names_used C.
Proof.
  intros HC.
  destruct (while_alias_used_first_free (size (_reference_names_used C)) self prefix w C
              (_reference_names_used C) HC) as (m & cnt & Hrun & Hm & Hfree & Hb & Hcnt);
    [done|done|].
  exists m. rewrite Hrun. destruct (decide _).
  - exists w, C. do 5 (split; [done|]). split; [|done]. by rewrite insert_id.
  - eexists _, (set_counter cnt C). do 5 (split; [done|]). done.
Qed.

(** [_register_reference] with no alias, on a placement that has none, in a
    cell whose other aliases are all used names: it returns, and the alias
    is the first candidate after the counter that is not a used name. *)
Lemma register_reference_auto_run (self : cid) (r : rid) (w : World) (R : Reference)
    (C child : Component) :
  refs w !! r = Some R → ref_name R = None →
  comps w !! self = Some C → comps w !! parent R = Some child →
  (∀ a, a ∈ other_aliases w C r → a ∈ _reference_names_used C) →
  ∃ m w' C',
    _register_reference self r None w = (Ok tt, w')
    ∧ S (counter_get (_reference_names_counter C)
           (default (name child) (function_name child))) ≤ m
    ∧ (alias_of (default (name child) (function_name child)) m ∉ _reference_names_used C)
    ∧ (∀ k, S (counter_get (_reference_names_counter C)
                 (default (name child) (function_name child))) ≤ k < m →
            alias_of (default (name child) (function_name child)) k
            ∈ _reference_names_used C)
    ∧ refs w'
      = <[r := set_ref_name (Some (alias_of (default (name child) (function_name child)) m))
                 (set_owner (Some self) R)]> (refs w)
    ∧ comps w' = <[self := C']> (comps w)
    ∧ references C' = references C
    ∧ _reference_names_used C'
      = {[alias_of (default (name child) (function_name child)) m]}
        ∪ _reference_names_used C.
Proof.
  intros HR Hname HC Hchild Hcons. set (prefix := default (name child) (function_name child)).
  unfold _register_reference.
  rewrite bind_run, (get_ref_run _ _ _ HR), bind_run.
  unfold set_reference_owner. rewrite bind_run, (get_ref_run _ _ _ HR).
  unfold put_ref at 1. set (w3 := mkWorld _ _ _ _ _ _).
  assert (HR3 : refs w3 !! r = Some (set_owner (Some self) R))
    by (subst w3; cbn [refs]; by rewrite lookup_insert_eq).
  rewrite bind_run, bind_run, (get_ref_run _ _ _ HR3).
  assert (Hn3 : ref_name (set_owner (Some self) R) = None) by (by destruct R).
  rewrite Hn3.
  assert (Hchild3 : comps w3 !! parent R = Some child) by done.
  rewrite bind_run, (get_comp_run _ _ _ Hchild3). fold prefix.
  assert (HC3 : comps w3 !! self = Some C) by done.
  rewrite bind_run. unfold modify_comp at 1. rewrite bind_run, (get_comp_run _ _ _ HC3).
  unfold put_comp at 1.
  set (C4 := set_counter (counter_update (_reference_names_counter C) prefix) C).
  set (w4 := mkWorld _ _ _ _ _ _).
  assert (HC4 : comps w4 !! self = Some C4)
    by (subst w4; cbn [comps]; by rewrite lookup_insert_eq).
  rewrite bind_run, (get_comp_run _ _ _ HC4).
  assert (Hn4 : counter_get (_reference_names_counter C4) prefix
                = S (counter_get (_reference_names_counter C) prefix)).
  { subst C4. cbn. unfold counter_update, counter_get at 1. by rewrite lookup_insert_eq. }
  destruct (while_alias_used_first_free_store self prefix w4 C4 HC4)
    as (m & w5 & C5 & Hrun & Hm & Hfree & Hb & Hr5 & Hc5 & Href5 & Hu5).
  rewrite Hrun. rewrite Hn4 in Hm, Hb. change (_reference_names_used C4)
    with (_reference_names_used C) in Hfree, Hb, Hu5.
  change (references C4) with (references C) in Href5.
  assert (HR5 : refs w5 !! r = Some (set_owner (Some self) R)) by (by rewrite Hr5).
  assert (HC5 : comps w5 !! self = Some C5) by (by rewrite Hc5, lookup_insert_eq).
  rewrite (set_reference_name_run r _ w5 _ self C5 HR5 eq_refl HC5).
  rewrite decide_False.
  2:{ intros Hin. apply Hfree, Hcons. unfold other_aliases in *. rewrite Href5 in Hin.
      erewrite omap_ext_in; [exact Hin|]. intros r' _. cbn beta.
      destruct (decide (r' = r)); [done|]. unfold alias_of_ref. rewrite Hr5.
      subst w4 w3. cbn [refs]. by rewrite lookup_insert_ne. }
  exists m. eexists _, _. split; [reflexivity|]. split; [done|]. split; [done|].
  split; [done|]. cbn [refs comps]. rewrite Hr5, Hc5. subst w4 w3. cbn [refs comps].
  rewrite insert_insert_eq. split; [done|]. rewrite !insert_insert_eq.
  split; [reflexivity|]. cbn. by rewrite Href5, Hu5.
Qed.

(** Whatever [_register_reference] does, the used names of the cell only
    grow, and an alias it gives the placement is among them. *)
Lemma register_reference_used (self : cid) (r : rid) (alias : option string)
    (w : World) (R : Reference) (C : Component) (res : result unit) (w' : World) :
  refs w !! r = Some R → comps w !! self = Some C →
  _register_reference self r alias w = (res, w') →
  ∃ C', comps w' !! self = Some C'
        ∧ _reference_names_used C ⊆ _reference_names_used C'
        ∧ (∀ a, ref_name <$> refs w' !! r = Some (Some a) →
                ref_name R = Some a ∨ a ∈ _reference_names_used C').
Proof.
  intros HR HC. unfold _register_reference.
  rewrite bind_run, (get_ref_run _ _ _ HR), bind_run.
  unfold set_reference_owner. rewrite bind_run, (get_ref_run _ _ _ HR).
  unfold put_ref at 1. rewrite bind_run.
  set (w3 := mkWorld _ _ _ _ _ _).
  assert (HR3 : refs w3 !! r = Some (set_owner (Some self) R))
    by (subst w3; cbn [refs]; by rewrite lookup_insert_eq).
  assert (HC3 : comps w3 !! self = Some C) by done.
  lazymatch goal with
  | |- context [match ?m w3 with _ => _ end] =>
      assert (Hk : keeps shape m); [|assert (Hu : keeps (comp_view _reference_names_used) m)]
  end.
  { destruct alias; [eauto with keeps|].
    apply keeps_bind; [eauto with keeps|intros R'].
    destruct (ref_name R'); [eauto with keeps|].
    apply keeps_bind; [eauto with keeps|intros child].
    apply keeps_bind; [by apply keeps_shape_modify_comp|intros _].
    apply keeps_bind; [eauto with keeps|intros C0]. apply keeps_shape_while. }
  { destruct alias; [eauto with keeps|].
    apply keeps_bind; [eauto with keeps|intros R'].
    destruct (ref_name R'); [eauto with keeps|].
    apply keeps_bind; [eauto with keeps|intros child].
    apply keeps_bind; [keeps_step|intros _].
    apply keeps_bind; [eauto with keeps|intros C0]. apply keeps_used_while. }
  lazymatch goal with
  | |- context [match ?m w3 with _ => _ end] =>
      specialize (Hk w3); specialize (Hu w3); destruct (m w3) as [[a|e] w5]
  end; cbn [snd] in Hk, Hu; injection Hk as _ Hr5;
    destruct (comp_view_lookup _ _ _ _ _ Hu HC3) as (C5 & HC5 & Hu5).
  - assert (HR5 : refs w5 !! r = Some (set_owner (Some self) R)) by (by rewrite Hr5).
    rewrite (set_reference_name_run r a w5 _ self C5 HR5 eq_refl HC5).
    destruct (decide _).
    + intros [= _ <-]. exists C5. split; [done|]. split; [by rewrite Hu5|].
      intros a'. rewrite HR5. cbn. intros [= Ha]. left. by destruct R.
    + intros [= _ <-]. cbn [comps refs]. eexists. rewrite lookup_insert_eq.
      split; [done|]. cbn [_reference_names_used set_used]. rewrite Hu5.
      split; [apply union_subseteq_r|]. intros a'. rewrite lookup_insert_eq. cbn.
      intros [= <-]. right. apply elem_of_union_l, elem_of_singleton. done.
  - assert (HR5 : refs w5 !! r = Some (set_owner (Some self) R)) by (by rewrite Hr5).
    intros [= _ <-]. exists C5. split; [done|]. split; [by rewrite Hu5|].
    intros a'. rewrite HR5. cbn. intros [= Ha]. left. by destruct R.
Qed.

Lemma aliases_app_new (w : World) (rs : list rid) (r : rid) :
  omap (alias_of_ref w) (rs ++ [r])
  = omap (alias_of_ref w) rs ++ match alias_of_ref w r with Some a => [a] | None => [] end.
Proof. rewrite omap_app. by f_equal. Qed.

(** One [add_ref] keeps the names of the cell well formed, whether it
    returns or raises. *)
Lemma add_ref_names_wf (self : cid) (component : pyobj) (alias : option string)
    (w : World) :
  names_wf w self → names_wf (add_ref self component alias w).2 self.
Proof.
  intros [Hwf Hcons]. split; [by apply add_ref_placements_wf|].
  destruct (add_ref self component alias w) as [res0 w0] eqn:Hrun. cbn [snd].
  revert Hrun. destruct component as [c|]; [|by intros [= _ <-]].
  unfold add_ref, ComponentReference. rewrite bind_run.
  unfold new_ref. set (r := fresh (dom (refs w))).
  assert (Hr : refs w !! r = None) by (apply not_elem_of_dom, is_fresh).
  set (w1 := mkWorld _ _ _ _ _ _).
  assert (Hal1 : ∀ r', r' ∈ placements w self → alias_of_ref w1 r' = alias_of_ref w r').
  { intros r' Hr'. unfold alias_of_ref. subst w1. cbn [refs].
    rewrite lookup_insert_ne; [done|]. intros <-.
    destruct Hwf as (H1 & _). apply H1 in Hr'. rewrite Hr in Hr'. by destruct Hr'. }
  assert (Hnotin : r ∉ placements w self).
  { intros Hin. destruct Hwf as (H1 & _). apply H1 in Hin. rewrite Hr in Hin.
    by destruct Hin. }
  assert (Hcons1 : ∀ C, comps w1 !! self = Some C →
                        ∀ a, a ∈ aliases w1 self → a ∈ _reference_names_used C).
  { intros C HC a Ha. apply (Hcons C HC). unfold aliases in *.
    change (placements w1 self) with (placements w self) in Ha.
    erewrite omap_ext_in; [exact Ha|]. intros r' Hr'. symmetry. by apply Hal1. }
  rewrite bind_run. unfold _add, is_unlocked. rewrite !bind_run. unfold get_comp at 1.
  destruct (comps w1 !! self) as [C|] eqn:HC;
    [|cbn; intros [= _ <-] C0 HC0; congruence].
  pose proof (Hcons1 C eq_refl) as HconsC.
  cbn beta iota. destruct (_locked C);
    [cbn; intros [= _ <-] C0 HC0; rewrite HC in HC0; by injection HC0 as <-|].
  cbn [mret M_ret]. cbn beta iota.
  unfold Device_add, modify_comp. rewrite bind_run, (get_comp_run self C w1 HC).
  unfold put_comp. set (C2 := set_bb_valid false _). set (w2 := mkWorld _ _ _ _ _ _).
  rewrite bind_run.
  assert (HR2 : refs w2 !! r = Some (mkReference c None None))
    by (subst w2 w1; cbn [refs]; by rewrite lookup_insert_eq).
  assert (HC2 : comps w2 !! self = Some C2)
    by (subst w2; cbn [comps]; by rewrite lookup_insert_eq).
  destruct (_register_reference self r alias w2) as [res w'] eqn:Heq.
  destruct (register_reference_post _ _ _ _ _ _ _ HR2 Heq) as (Hc & Hne & _).
  destruct (register_reference_used _ _ _ _ _ _ _ _ HR2 HC2 Heq) as (C' & HC' & Hsub & Hnew).
  assert (Hfin : ∀ C0, comps w' !! self = Some C0 →
                       ∀ a, a ∈ aliases w' self → a ∈ _reference_names_used C0);
    [|destruct res; by intros [= _ <-]].
  intros C0 HC0 a Ha. rewrite HC' in HC0. injection HC0 as <-.
  assert (Hpl : placements w' self = placements w self ++ [r]).
  { change (comps w1) with (comps w) in HC.
    rewrite (placements_unfold w self C HC).
    transitivity (placements w2 self).
    - unfold placements. unfold comp_view in Hc. by rewrite <- !lookup_fmap, Hc.
    - by rewrite (placements_unfold w2 self C2 HC2). }
  unfold aliases in Ha. rewrite Hpl, aliases_app_new in Ha.
  apply elem_of_app in Ha as [Ha|Ha].
  - apply Hsub. apply HconsC. unfold aliases.
    change (placements w1 self) with (placements w self).
    erewrite omap_ext_in; [exact Ha|]. intros r' Hr'. unfold alias_of_ref.
    rewrite Hne by (intros ->; done). subst w2. done.
  - unfold alias_of_ref in Ha.
    destruct (refs w' !! r) as [R'|] eqn:HR'; [|by apply elem_of_nil in Ha].
    cbn in Ha. destruct (ref_name R') as [a'|] eqn:Hn'; [|by apply elem_of_nil in Ha].
    apply list_elem_of_singleton in Ha as ->.
    destruct (Hnew a') as [?|?]; [cbn; by rewrite ?Hn'|done|done].
Qed.

Lemma add_refs_names_wf (self : cid) (requests : list (pyobj * option string))
    (w : World) :
  names_wf w self → names_wf (add_refs self requests w) self.
Proof.
  revert w. induction requests as [|[c a] rqs IH]; intros w Hwf; [done|].
  apply IH. by apply add_ref_names_wf.
Qed.

(** [add_ref] with no alias on an unlocked cell with well-formed names. *)
Lemma add_ref_auto_run (self c : cid) (w : World) (C child : Component) :
  names_wf w self →
  comps w !! self = Some C → _locked C = false → comps w !! c = Some child →
  ∃ m w',
    add_ref self (AComponent c) None w = (Ok (fresh (dom (refs w))), w')
    ∧ counter_get (_reference_names_counter C)
        (default (name child) (function_name child)) < m
    ∧ (alias_of (default (name child) (function_name child)) m ∉ _reference_names_used C)
    ∧ (∀ k, counter_get (_reference_names_counter C)
              (default (name child) (function_name child)) < k < m →
            alias_of (default (name child) (function_name child)) k
            ∈ _reference_names_used C)
    ∧ alias_of_ref w' (fresh (dom (refs w)))
      = Some (alias_of (default (name child) (function_name child)) m)
    ∧ aliases w' self
      = aliases w self ++ [alias_of (default (name child) (function_name child)) m].
Proof.
  intros [Hwf Hcons] HC HL Hchild.
  set (prefix := default (name child) (function_name child)).
  unfold add_ref, ComponentReference. rewrite bind_run.
  unfold new_ref. set (r := fresh (dom (refs w))).
  assert (Hr : refs w !! r = None) by (apply not_elem_of_dom, is_fresh).
  set (w1 := mkWorld _ _ _ _ _ _).
  assert (Hnotin : r ∉ references C).
  { intros Hin. destruct Hwf as (H1 & _). rewrite (placements_unfold _ _ _ HC) in H1.
    apply H1 in Hin. rewrite Hr in Hin. by destruct Hin. }
  assert (HC1 : comps w1 !! self = Some C) by done.
  rewrite bind_run. unfold _add, is_unlocked.
  rewrite !bind_run, (get_comp_run _ _ _ HC1), HL. cbn [mret M_ret].
  unfold Device_add, modify_comp. rewrite bind_run, (get_comp_run _ _ _ HC1).
  unfold put_comp. set (C2 := set_bb_valid false _). set (w2 := mkWorld _ _ _ _ _ _).
  rewrite bind_run.
  assert (HR2 : refs w2 !! r = Some (mkReference c None None))
    by (subst w2 w1; cbn [refs]; by rewrite lookup_insert_eq).
  assert (HC2 : comps w2 !! self = Some C2)
    by (subst w2; cbn [comps]; by rewrite lookup_insert_eq).
  assert (Hchild2 : ∃ child2, comps w2 !! c = Some child2
                              ∧ default (name child2) (function_name child2) = prefix).
  { subst w2 w1. cbn [comps]. destruct (decide (c = self)) as [->|Hne].
    - rewrite lookup_insert_eq. eexists. split; [done|].
      rewrite HC in Hchild. injection Hchild as <-. done.
    - rewrite lookup_insert_ne by done. by exists child. }
  destruct Hchild2 as (child2 & Hchild2 & Hprefix).
  assert (Hold : ∀ r', r' ∈ references C → alias_of_ref w2 r' = alias_of_ref w r').
  { intros r' Hr'. unfold alias_of_ref. subst w2 w1. cbn [refs].
    rewrite lookup_insert_ne; [done|]. intros <-. done. }
  assert (Hothers : other_aliases w2 C2 r = aliases w self).
  { unfold other_aliases, aliases. rewrite (placements_unfold _ _ _ HC).
    subst C2. cbn [references set_bb_valid set_references]. rewrite omap_app.
    cbn [omap list_omap]. rewrite decide_True by done. rewrite app_nil_r.
    apply omap_ext_in. intros r' Hr'. rewrite decide_False by (intros ->; done).
    by apply Hold. }
  destruct (register_reference_auto_run self r w2 (mkReference c None None) C2 child2
              HR2 eq_refl HC2 Hchild2) as (m & w' & C' & Hrun & Hm & Hfree & Hb & Hr' & Hc' & Href' & Hu').
  { intros a Ha. rewrite Hothers in Ha. by apply (Hcons C HC). }
  rewrite Hprefix in Hm, Hfree, Hb, Hr', Hu'.
  change (_reference_names_used C2) with (_reference_names_used C) in Hfree, Hb, Hu'.
  change (_reference_names_counter C2) with (_reference_names_counter C) in Hm, Hb.
  rewrite Hrun. cbn [mret M_ret]. exists m, w'. split; [done|]. split; [lia|].
  split; [done|]. split; [intros k Hk; apply Hb; lia|].
  assert (Hnew : alias_of_ref w' r = Some (alias_of prefix m)).
  { unfold alias_of_ref. rewrite Hr', lookup_insert_eq. done. }
  split; [exact Hnew|].
  unfold aliases. rewrite (placements_unfold _ _ _ HC).
  assert (HCf : comps w' !! self = Some C') by (by rewrite Hc', lookup_insert_eq).
  rewrite (placements_unfold _ _ _ HCf), Href'. subst C2.
  cbn [references set_bb_valid set_references]. rewrite aliases_app_new, Hnew.
  f_equal. apply omap_ext_in. intros r' Hr0. rewrite <- (Hold r' Hr0).
  unfold alias_of_ref. rewrite Hr'. rewrite lookup_insert_ne; [done|]. intros <-. done.
Qed.



(** After the seeded requests the next automatic name skips nothing more. *)
Example seeded_requests_next :
  (add_ref 0 (AComponent 1) None (add_refs 0 seeded_requests two_cells)).1 = Ok 5
  ∧ aliases (add_ref 0 (AComponent 1) None (add_refs 0 seeded_requests two_cells)).2 0
    = ["straight_2"; "straight_1"; "straight_3"; "straight_4"; "straight_5"].
Proof. split; by vm_compute. Qed.

